(** * The tabular query engine of NextMed: a shallow embedding

    The engine lives in two TypeScript modules:
    - the EHR data service ([loadEHRData], [getEHRStatistics],
      [searchRecords]), which parses the CSV file and owns the module-level
      cache;
    - the query route ([parseSimpleSQL], [executeFilterQuery],
      [executeAggregateQuery], [executeSQLQuery]).

    Conventions of the embedding.
    - A JavaScript string is a [string] of code units below 256.
    - A JavaScript number holding an integer is a [Z] (ages, limits, clock
      readings); array lengths and counters are [nat].  Numbers that are not
      integers are not represented, except NaN where [parseInt] can yield it.
    - A plain object used as a dictionary is a [JsObj.t]: its own properties
      in enumeration order.  The model follows the code for keys that are not
      among the names every object inherits ([JsObj.own_name]); a property
      of counts is stated for such keys.
    - The module-level cache, the clock and the file system are explicit:
      a [Heap] is threaded through the stateful functions, and every
      [Date.now()] and [fs.readFile] consumes one answer of an oracle. *)

From Stdlib Require Import String Ascii List ZArith Lia Bool Arith PeanoNat Permutation Sorted.
Import ListNotations.
Local Open Scope string_scope.
Local Open Scope list_scope.
Local Open Scope nat_scope.

Set Implicit Arguments.

(** ** Strings as JavaScript sees them *)

Module JsString.

Definition code (c : ascii) : nat := nat_of_ascii c.

Definition in_range (lo hi : nat) (c : ascii) : bool :=
  (lo <=? code c) && (code c <=? hi).

(** WhiteSpace and LineTerminator code units: the set stripped by
    [trim], skipped by [parseInt] and matched by [\s]. *)
Definition is_space (c : ascii) : bool :=
  in_range 9 13 c || (code c =? 32) || (code c =? 160).

Definition is_line_terminator (c : ascii) : bool :=
  (code c =? 10) || (code c =? 13).

Definition is_digit (c : ascii) : bool := in_range 48 57 c.

Definition is_upper (c : ascii) : bool := in_range 65 90 c.

Definition is_lower (c : ascii) : bool := in_range 97 122 c.

(** [\w] *)
Definition is_word (c : ascii) : bool :=
  is_upper c || is_lower c || is_digit c || (code c =? 95).

Definition lower_char (c : ascii) : ascii :=
  if is_upper c || (in_range 192 222 c && negb (code c =? 215))
  then ascii_of_nat (code c + 32)
  else c.

Fixpoint toLowerCase (s : string) : string :=
  match s with
  | EmptyString => EmptyString
  | String c s' => String (lower_char c) (toLowerCase s')
  end.

Fixpoint trimStart (s : string) : string :=
  match s with
  | EmptyString => EmptyString
  | String c s' => if is_space c then trimStart s' else s
  end.

Fixpoint trimEnd (s : string) : string :=
  match s with
  | EmptyString => EmptyString
  | String c s' =>
      match trimEnd s' with
      | EmptyString => if is_space c then EmptyString else String c EmptyString
      | t => String c t
      end
  end.

Definition trim (s : string) : string := trimEnd (trimStart s).

(** [s.includes(sub)] *)
Fixpoint includes (s sub : string) : bool :=
  prefix sub s ||
  match s with
  | EmptyString => false
  | String _ s' => includes s' sub
  end.

(** [s.split(sep)] for a separator of one code unit. *)
Fixpoint split_on (sep : ascii) (s : string) : list string :=
  match s with
  | EmptyString => [EmptyString]
  | String c s' =>
      if Ascii.eqb c sep then EmptyString :: split_on sep s'
      else match split_on sep s' with
           | piece :: rest => String c piece :: rest
           | [] => [String c EmptyString]
           end
  end.

(** The first [n] code units / what follows them. *)
Fixpoint take (n : nat) (s : string) : string :=
  match n, s with
  | S n', String c s' => String c (take n' s')
  | _, _ => EmptyString
  end.

Fixpoint drop (n : nat) (s : string) : string :=
  match n, s with
  | S n', String _ s' => drop n' s'
  | _, _ => s
  end.

(** Truthiness of a string value. *)
Definition truthy (s : string) : bool :=
  match s with EmptyString => false | _ => true end.

(** [Number.parseInt(s, 10)]: [None] is NaN.  The value is exact; a
    double only holds it exactly below 2^53. *)
Fixpoint digits_prefix (s : string) (acc : option Z) : option Z :=
  match s with
  | String c s' =>
      if is_digit c then
        let d := Z.of_nat (code c - 48) in
        digits_prefix s' (Some (match acc with Some a => 10 * a + d | None => d end))
      else acc
  | EmptyString => acc
  end%Z.

Definition parseInt (s : string) : option Z :=
  match trimStart s with
  | String "-" s' => option_map Z.opp (digits_prefix s' None)
  | String "+" s' => digits_prefix s' None
  | t => digits_prefix t None
  end.

(** The integers that a double holds exactly, up to
    [Number.MAX_SAFE_INTEGER]: on a numeral within this range
    [Number.parseInt] yields the value itself, beyond it the nearest
    double. *)
Definition safe_integer (n : Z) : bool := (Z.abs n <? 2 ^ 53)%Z.

End JsString.

(** ** Regular expressions, matched the way the engine of the language does:
       by backtracking, leftmost alternative and greedy/lazy repetition first *)

Module Regex.
Import JsString.

Inductive regex : Type :=
| RChar (p : ascii -> bool)            (* one code unit of a class *)
| REmpty
| REnd                                 (* $ without the m flag *)
| RSeq (a b : regex)
| RAlt (a b : regex)
| RStar (greedy : bool) (a : regex)    (* a* and a*? *)
| RGroup (n : nat) (a : regex).        (* the n-th capturing group *)

Definition RPlus (greedy : bool) (a : regex) : regex := RSeq a (RStar greedy a).
Definition ROpt (a : regex) : regex := RAlt a REmpty.

(** A literal under the [i] flag. *)
Definition ci (c : ascii) : regex :=
  RChar (fun x => Ascii.eqb (lower_char x) (lower_char c)).

Fixpoint lit (s : string) : regex :=
  match s with
  | EmptyString => REmpty
  | String c EmptyString => ci c
  | String c s' => RSeq (ci c) (lit s')
  end.

Fixpoint seq (rs : list regex) : regex :=
  match rs with
  | [] => REmpty
  | [r] => r
  | r :: rs' => RSeq r (seq rs')
  end.

Definition caps := list (nat * string).

Fixpoint cap_get (n : nat) (c : caps) : option string :=
  match c with
  | [] => None
  | (k, v) :: c' => if Nat.eqb n k then Some v else cap_get n c'
  end.

Definition cap_set (n : nat) (v : string) (c : caps) : caps := (n, v) :: c.

(** A successful match: the captures and the input left after it. *)
Definition mres : Type := caps * string.
Definition cont : Type := string -> caps -> option mres.

Section Star.
Variable body : string -> caps -> cont -> option mres.
Variable greedy : bool.
Variable k : cont.

(** An iteration that consumes nothing is rejected, so [fuel] = the
    length of the input is never exhausted by a real iteration. *)
Fixpoint star_loop (fuel : nat) (s : string) (c : caps) : option mres :=
  let again (_ : unit) :=
    match fuel with
    | O => None
    | S fuel' =>
        body s c (fun s' c' =>
          if String.length s' <? String.length s
          then star_loop fuel' s' c' else None)
    end in
  if greedy then
    match again tt with
    | Some r => Some r
    | None => k s c
    end
  else
    match k s c with
    | Some r => Some r
    | None => again tt
    end.
End Star.

Fixpoint rmatch (r : regex) (s : string) (c : caps) (k : cont) {struct r}
  : option mres :=
  match r with
  | RChar p =>
      match s with
      | String x s' => if p x then k s' c else None
      | EmptyString => None
      end
  | REmpty => k s c
  | REnd => match s with EmptyString => k s c | _ => None end
  | RSeq a b => rmatch a s c (fun s' c' => rmatch b s' c' k)
  | RAlt a b =>
      match rmatch a s c k with
      | Some r => Some r
      | None => rmatch b s c k
      end
  | RStar g a => star_loop (rmatch a) g k (String.length s) s c
  | RGroup n a =>
      rmatch a s c (fun s' c' =>
        k s' (cap_set n (take (String.length s - String.length s') s) c'))
  end.

(** The match that starts at the head of [s]. *)
Definition exec_at (r : regex) (s : string) : option mres :=
  rmatch r s [] (fun s' c => Some (c, s')).

(** A match found by [search]: what precedes it, what it matched, its
    captures, what follows it. *)
Record found : Type := Found {
  before : string;
  matched : string;
  groups : caps;
  after : string
}.

(** [s.match(r)] without the [g] flag: the leftmost match. *)
Fixpoint search (r : regex) (s : string) : option found :=
  match exec_at r s with
  | Some (c, rest) =>
      Some (Found EmptyString
                  (take (String.length s - String.length rest) s) c rest)
  | None =>
      match s with
      | EmptyString => None
      | String x s' =>
          match search r s' with
          | Some f => Some (Found (String x (before f)) (matched f) (groups f) (after f))
          | None => None
          end
      end
  end.

(** [s.match(r)] with the [g] flag: every matched substring, left to
    right; the empty list stands for [null]. *)
Fixpoint match_all_go (fuel : nat) (r : regex) (s : string) : list string :=
  match fuel with
  | O => []
  | S fuel' =>
      match search r s with
      | None => []
      | Some f =>
          matched f ::
          match matched f, after f with
          | EmptyString, String _ rest => match_all_go fuel' r rest
          | EmptyString, EmptyString => []
          | _, rest => match_all_go fuel' r rest
          end
      end
  end.

Definition match_all (r : regex) (s : string) : list string :=
  match_all_go (S (String.length s)) r s.

(** [s.split(r)] for a pattern without capturing groups. *)
Fixpoint split_go (fuel : nat) (r : regex) (piece s : string) : list string :=
  match fuel with
  | O => [(piece ++ s)%string]
  | S fuel' =>
      match s with
      | EmptyString => [piece]
      | String x s' =>
          match exec_at r s with
          | Some (_, rest) =>
              if (String.length rest =? String.length s) && negb (truthy piece)
              then split_go fuel' r (piece ++ String x EmptyString)%string s'
              else piece :: split_go fuel' r EmptyString rest
          | None => split_go fuel' r (piece ++ String x EmptyString)%string s'
          end
      end
  end.

Definition split (r : regex) (s : string) : list string :=
  match s with
  | EmptyString => match exec_at r s with Some _ => [] | None => [s] end
  | _ => split_go (S (2 * String.length s)) r EmptyString s
  end.

(** Whether every match of [r] passes through the [n]-th group. *)
Fixpoint binds (n : nat) (r : regex) : bool :=
  match r with
  | RGroup k a => Nat.eqb n k || binds n a
  | RSeq a b => binds n a || binds n b
  | RAlt a b => binds n a && binds n b
  | _ => false
  end.

(** Captures only accumulate along a match. *)
Definition extends (c c' : caps) : Prop :=
  forall n, cap_get n c <> None -> cap_get n c' <> None.

End Regex.

(** ** Plain objects used as dictionaries *)

Module JsObj.
Import JsString.

(** The own properties in the order [Object.entries] lists them: keys
    that are array indices first, by increasing value, then the other keys
    in the order of their creation. *)
Definition t (V : Type) : Type := list (string * V).

Definition empty {V : Type} : t V := [].

Fixpoint get {V : Type} (k : string) (o : t V) : option V :=
  match o with
  | [] => None
  | (k', v) :: o' => if String.eqb k k' then Some v else get k o'
  end.

Fixpoint all_digits (s : string) : bool :=
  match s with
  | EmptyString => true
  | String c s' => is_digit c && all_digits s'
  end.

Fixpoint digits_value (s : string) (acc : N) : N :=
  match s with
  | EmptyString => acc
  | String c s' => digits_value s' (10 * acc + N.of_nat (code c - 48))
  end%N.

(** A canonical numeric string below 2^32 - 1. *)
Definition array_index (k : string) : option N :=
  match k with
  | EmptyString => None
  | String c rest =>
      if all_digits k && (negb (Ascii.eqb c "0") || negb (truthy rest))
         && (String.length k <=? 10)
      then let n := digits_value k 0 in
           if (n <? 4294967295)%N then Some n else None
      else None
  end.

Fixpoint replace {V : Type} (k : string) (v : V) (o : t V) : t V :=
  match o with
  | [] => []
  | (k', v') :: o' =>
      if String.eqb k k' then (k, v) :: o' else (k', v') :: replace k v o'
  end.

Fixpoint insert_index {V : Type} (i : N) (k : string) (v : V) (o : t V) : t V :=
  match o with
  | [] => [(k, v)]
  | (k', v') :: o' =>
      match array_index k' with
      | Some j => if (j <? i)%N then (k', v') :: insert_index i k v o'
                  else (k, v) :: o
      | None => (k, v) :: o
      end
  end.

(** [o[k] = v] *)
Definition set {V : Type} (k : string) (v : V) (o : t V) : t V :=
  match get k o with
  | Some _ => replace k v o
  | None =>
      match array_index k with
      | Some i => insert_index i k v o
      | None => o ++ [(k, v)]
      end
  end.

(** [Object.fromEntries(l)] *)
Definition fromEntries {V : Type} (l : list (string * V)) : t V :=
  fold_left (fun o kv => set (fst kv) (snd kv) o) l empty.

(** The names that a plain object inherits from [Object.prototype].  On
    an object without an own property of such a name, [o[k]] is not
    [undefined] but the inherited function (or the prototype itself), and
    [(o[k] || 0) + 1] is then a string, which [o[k] = ...] stores (or
    drops, under [__proto__]). *)
Definition inherited_names : list string :=
  ["constructor"; "__proto__"; "hasOwnProperty"; "isPrototypeOf";
   "propertyIsEnumerable"; "toLocaleString"; "toString"; "valueOf";
   "__defineGetter__"; "__defineSetter__"; "__lookupGetter__";
   "__lookupSetter__"].

(** A key that is none of these names: for such keys [get], [set] and
    [bump] are what the code does on a plain object. *)
Definition own_name (k : string) : bool :=
  negb (existsb (String.eqb k) inherited_names).

(** [o[k] = (o[k] || 0) + 1], for a key with [own_name] *)
Definition bump (k : string) (o : t nat) : t nat :=
  set k (match get k o with Some n => n | None => 0 end + 1) o.

Definition total (o : t nat) : nat :=
  fold_right (fun kv acc => snd kv + acc) 0 o.

(** [entries.sort((a, b) => b[1] - a[1])]: the sort is stable. *)
Fixpoint insert_desc (x : string * nat) (l : list (string * nat))
  : list (string * nat) :=
  match l with
  | [] => [x]
  | y :: l' => if snd x <? snd y then y :: insert_desc x l' else x :: l
  end.

Definition sort_desc (l : list (string * nat)) : list (string * nat) :=
  fold_right insert_desc [] l.

End JsObj.

(** ** [array.slice(0, limit)] for an integer [limit] *)

Definition slice0 {A : Type} (l : list A) (limit : Z) : list A :=
  if (0 <=? limit)%Z then firstn (Z.to_nat limit) l
  else firstn (length l - Z.to_nat (- limit)) l.

(** [x || d] on a number *)
Definition num_or (x : option Z) (d : Z) : Z :=
  match x with
  | Some n => if (n =? 0)%Z then d else n
  | None => d
  end.

(** A string option that is present and not empty. *)
Definition present (x : option string) : option string :=
  match x with
  | Some s => if JsString.truthy s then Some s else None
  | None => None
  end.

(** ** The data model *)

Record PastVisit : Type := {
  date : string;
  diagnosis : string
}.

Record EHRRecord : Type := {
  fullName : string;
  age : Z;
  gender : string;
  region : string;
  address : string;
  symptoms : list string;
  medicationHistory : list string;
  pastVisits : list PastVisit;
  phoneNumber : string;
  insuranceId : string
}.

(** [avgVisitsPerPatient], a rounded double derived from [totalVisits] and
    [totalRecords], is not carried; [lastUpdated] holds the clock reading
    that the source renders as an ISO string. *)
Record EHRStatistics : Type := {
  totalRecords : nat;
  lastUpdated : Z;
  ageDistribution : JsObj.t nat;
  genderDistribution : JsObj.t nat;
  regionDistribution : JsObj.t nat;
  chronicConditions : JsObj.t nat;
  topDiagnoses : JsObj.t nat;
  topMedications : JsObj.t nat;
  patientsOnMedication : nat;
  patientsNoMedication : nat;
  totalVisits : nat;
  visitsByYear : JsObj.t nat
}.

(** ** The world outside the functions *)

(** The answers of the clock and of the file system: the [n]-th evaluation
    of [Date.now()] (or [new Date()]) yields [date_now n]; the [n]-th
    [fs.readFile] of the CSV yields [read_file n], [None] when it rejects. *)
Record Env : Type := {
  date_now : nat -> Z;
  read_file : nat -> option string
}.

(** The module-level variables of the data service, and how much of the
    oracles has been consumed. *)
Record Heap : Type := {
  cachedRecords : option (list EHRRecord);
  cachedStats : option EHRStatistics;
  cacheTimestamp : option Z;
  nowCalls : nat;
  fsReads : nat;
  console : list string
}.

Definition initial_heap : Heap :=
  {| cachedRecords := None; cachedStats := None; cacheTimestamp := None;
     nowCalls := 0; fsReads := 0; console := [] |}.

Definition M (A : Type) : Type := Heap -> A * Heap.

Definition ret {A : Type} (a : A) : M A := fun h => (a, h).

Definition bind {A B : Type} (m : M A) (f : A -> M B) : M B :=
  fun h => let (a, h') := m h in f a h'.

Declare Scope io_scope.
Delimit Scope io_scope with io.
Notation "x <- m ;; k" := (bind m (fun x => k))
  (at level 61, m at next level, right associativity) : io_scope.
Notation "m ;;; k" := (bind m (fun _ => k))
  (at level 61, right associativity) : io_scope.
Local Open Scope io_scope.

Section Effects.
Variable env : Env.

Definition Date_now : M Z := fun h =>
  (date_now env (nowCalls h),
   {| cachedRecords := cachedRecords h; cachedStats := cachedStats h;
      cacheTimestamp := cacheTimestamp h; nowCalls := S (nowCalls h);
      fsReads := fsReads h; console := console h |}).

Definition fs_readFile : M (option string) := fun h =>
  (read_file env (fsReads h),
   {| cachedRecords := cachedRecords h; cachedStats := cachedStats h;
      cacheTimestamp := cacheTimestamp h; nowCalls := nowCalls h;
      fsReads := S (fsReads h); console := console h |}).
End Effects.

Definition console_error (msg : string) : M unit := fun h =>
  (tt,
   {| cachedRecords := cachedRecords h; cachedStats := cachedStats h;
      cacheTimestamp := cacheTimestamp h; nowCalls := nowCalls h;
      fsReads := fsReads h; console := console h ++ [msg] |}).

Definition set_cachedRecords (v : option (list EHRRecord)) : M unit := fun h =>
  (tt,
   {| cachedRecords := v; cachedStats := cachedStats h;
      cacheTimestamp := cacheTimestamp h; nowCalls := nowCalls h;
      fsReads := fsReads h; console := console h |}).

Definition set_cachedStats (v : option EHRStatistics) : M unit := fun h =>
  (tt,
   {| cachedRecords := cachedRecords h; cachedStats := v;
      cacheTimestamp := cacheTimestamp h; nowCalls := nowCalls h;
      fsReads := fsReads h; console := console h |}).

Definition set_cacheTimestamp (v : option Z) : M unit := fun h =>
  (tt,
   {| cachedRecords := cachedRecords h; cachedStats := cachedStats h;
      cacheTimestamp := v; nowCalls := nowCalls h;
      fsReads := fsReads h; console := console h |}).

Definition read {A : Type} (field : Heap -> A) : M A := fun h => (field h, h).

(** ** The EHR data service *)

Module EhrDataService.
Import JsString Regex.

Definition CACHE_TTL_MS : Z := 5 * 60 * 1000.

Definition dquote : ascii := ascii_of_nat 34.
Definition newline : ascii := ascii_of_nat 10.

Fixpoint parseCSVRow_from (row current : string) (inQuotes : bool)
         (result : list string) : list string :=
  match row with
  | EmptyString => result ++ [trim current]
  | String char row' =>
      if Ascii.eqb char dquote then
        parseCSVRow_from row' current (negb inQuotes) result
      else if Ascii.eqb char "," && negb inQuotes then
        parseCSVRow_from row' EmptyString inQuotes (result ++ [trim current])
      else
        parseCSVRow_from row' (current ++ String char EmptyString)%string
                         inQuotes result
  end.

Definition parseCSVRow (row : string) : list string :=
  parseCSVRow_from row EmptyString false [].

(** [/\[([^\]]+)\]/g] *)
Definition visit_re : regex :=
  seq [RChar (Ascii.eqb "[");
       RGroup 1 (RPlus true (RChar (fun c => negb (Ascii.eqb c "]"))));
       RChar (Ascii.eqb "]")].

(** [content.indexOf(":")] *)
Fixpoint indexOf (c : ascii) (s : string) : option nat :=
  match s with
  | EmptyString => None
  | String x s' =>
      if Ascii.eqb x c then Some 0 else option_map S (indexOf c s')
  end.

Definition parsePastVisits (visitStr : string) : list PastVisit :=
  if negb (truthy visitStr) || String.eqb visitStr "None" then []
  else
    fold_left
      (fun visits m =>
         let content := take (String.length m - 2) (drop 1 m) in
         match indexOf ":" content with
         | Some colonIndex =>
             visits ++ [{| date := trim (take colonIndex content);
                           diagnosis := trim (drop (colonIndex + 1) content) |}]
         | None => visits
         end)
      (match_all visit_re visitStr) [].

Definition parseListField (value : string) : list string :=
  if negb (truthy value) || String.eqb value "None" then []
  else filter truthy (map trim (split_on "," value)).

Definition getAgeGroup (age : Z) : string :=
  if (age <? 18)%Z then "0-17"
  else if (age <? 30)%Z then "18-29"
  else if (age <? 45)%Z then "30-44"
  else if (age <? 60)%Z then "45-59"
  else if (age <? 75)%Z then "60-74"
  else "75+".

Definition field (fields : list string) (i : nat) : string :=
  nth i fields EmptyString.

(** The body of the [try] block of [loadEHRData], after the read. *)
Definition parseContent (content : string) : list EHRRecord :=
  let lines := filter (fun line => truthy (trim line)) (split_on newline content) in
  let dataLines := tl lines in
  fold_left
    (fun records line =>
       let fields := parseCSVRow line in
       if length fields <? 10 then records
       else records ++
            [{| fullName := field fields 0;
                age := num_or (parseInt (field fields 1)) 0;
                gender := field fields 2;
                region := field fields 3;
                address := field fields 4;
                symptoms := parseListField (field fields 5);
                medicationHistory := parseListField (field fields 6);
                pastVisits := parsePastVisits (field fields 7);
                phoneNumber := field fields 8;
                insuranceId := field fields 9 |}])
    dataLines [].

(** [ts && Date.now() - ts < CACHE_TTL_MS]: the clock is read only for a
    truthy timestamp. *)
Definition timestamp_fresh (env : Env) (ts : option Z) : M bool :=
  match ts with
  | Some t =>
      if (t =? 0)%Z then ret false
      else now <- Date_now env ;; ret (now - t <? CACHE_TTL_MS)%Z
  | None => ret false
  end.

(** The cache check of [loadEHRData]:
    [cachedRecords && cacheTimestamp && Date.now() - cacheTimestamp < CACHE_TTL_MS] *)
Definition recordsFresh (env : Env) : M bool :=
  cached <- read cachedRecords ;;
  match cached with
  | Some _ => ts <- read cacheTimestamp ;; timestamp_fresh env ts
  | None => ret false
  end.

Definition loadEHRData (env : Env) : M (list EHRRecord) :=
  hit <- recordsFresh env ;;
  cached <- read cachedRecords ;;
  match cached, hit with
  | Some records, true => ret records
  | _, _ =>
      content <- fs_readFile env ;;
      match content with
      | Some content =>
          let records := parseContent content in
          set_cachedRecords (Some records) ;;;
          now <- Date_now env ;;
          set_cacheTimestamp (Some now) ;;;
          set_cachedStats None ;;;
          ret records
      | None =>
          console_error "Failed to load EHR data:" ;;;
          ret []
      end
  end.

(** [visit.date.split("-")[0]] *)
Definition year_of (d : string) : string := hd EmptyString (split_on "-" d).

Definition emptyStatistics (n : nat) (now : Z) : EHRStatistics :=
  {| totalRecords := n; lastUpdated := now;
     ageDistribution := JsObj.empty; genderDistribution := JsObj.empty;
     regionDistribution := JsObj.empty; chronicConditions := JsObj.empty;
     topDiagnoses := JsObj.empty; topMedications := JsObj.empty;
     patientsOnMedication := 0; patientsNoMedication := 0;
     totalVisits := 0; visitsByYear := JsObj.empty |}.

(** One turn of the loop over the records. *)
Definition countRecord (stats : EHRStatistics) (record : EHRRecord)
  : EHRStatistics :=
  let onMedication := 0 <? length (medicationHistory record) in
  {| totalRecords := totalRecords stats;
     lastUpdated := lastUpdated stats;
     ageDistribution :=
       JsObj.bump (getAgeGroup (age record)) (ageDistribution stats);
     genderDistribution := JsObj.bump (gender record) (genderDistribution stats);
     regionDistribution := JsObj.bump (region record) (regionDistribution stats);
     chronicConditions :=
       fold_left (fun o condition => JsObj.bump condition o)
                 (symptoms record) (chronicConditions stats);
     topDiagnoses :=
       fold_left (fun o visit => JsObj.bump (diagnosis visit) o)
                 (pastVisits record) (topDiagnoses stats);
     topMedications :=
       fold_left (fun o med => JsObj.bump med o)
                 (medicationHistory record) (topMedications stats);
     patientsOnMedication :=
       if onMedication then S (patientsOnMedication stats)
       else patientsOnMedication stats;
     patientsNoMedication :=
       if onMedication then patientsNoMedication stats
       else S (patientsNoMedication stats);
     totalVisits := totalVisits stats + length (pastVisits record);
     visitsByYear :=
       fold_left (fun o visit =>
                    let year := year_of (date visit) in
                    if truthy year then JsObj.bump year o else o)
                 (pastVisits record) (visitsByYear stats) |}.

Definition sortAndLimit (obj : JsObj.t nat) (limit : nat) : JsObj.t nat :=
  JsObj.fromEntries (firstn limit (JsObj.sort_desc obj)).

(** What [getEHRStatistics] computes from the records it loaded. *)
Definition computeStatistics (records : list EHRRecord) (now : Z)
  : EHRStatistics :=
  let stats := fold_left countRecord records
                         (emptyStatistics (length records) now) in
  {| totalRecords := totalRecords stats;
     lastUpdated := lastUpdated stats;
     ageDistribution := ageDistribution stats;
     genderDistribution := genderDistribution stats;
     regionDistribution := sortAndLimit (regionDistribution stats) 30;
     chronicConditions := sortAndLimit (chronicConditions stats) 20;
     topDiagnoses := sortAndLimit (topDiagnoses stats) 20;
     topMedications := sortAndLimit (topMedications stats) 20;
     patientsOnMedication := patientsOnMedication stats;
     patientsNoMedication := patientsNoMedication stats;
     totalVisits := totalVisits stats;
     visitsByYear := visitsByYear stats |}.

(** The cache check of [getEHRStatistics]:
    [cachedStats && cacheTimestamp && Date.now() - cacheTimestamp < CACHE_TTL_MS] *)
Definition statsFresh (env : Env) : M bool :=
  cached <- read cachedStats ;;
  match cached with
  | Some _ => ts <- read cacheTimestamp ;; timestamp_fresh env ts
  | None => ret false
  end.

Definition getEHRStatistics (env : Env) : M EHRStatistics :=
  hit <- statsFresh env ;;
  cached <- read cachedStats ;;
  match cached, hit with
  | Some stats, true => ret stats
  | _, _ =>
      records <- loadEHRData env ;;
      now <- Date_now env ;;
      let stats := computeStatistics records now in
      set_cachedStats (Some stats) ;;;
      ret stats
  end.

Record SearchOptions : Type := {
  o_condition : option string;
  o_medication : option string;
  o_region : option string;
  o_ageMin : option Z;
  o_ageMax : option Z;
  o_gender : option string;
  o_diagnosis : option string;
  o_limit : option Z
}.

(** [strings.some((s) => s.toLowerCase().includes(needle))] *)
Definition some_includes (strings : list string) (needle : string) : bool :=
  existsb (fun s => includes (toLowerCase s) needle) strings.

(** [filtered] as it stands before the final [slice]. *)
Definition searchFiltered (options : SearchOptions) (records : list EHRRecord)
  : list EHRRecord :=
  let filtered := records in
  let filtered :=
    match present (o_condition options) with
    | Some condition =>
        let conditionLower := toLowerCase condition in
        filter (fun r => some_includes (symptoms r) conditionLower) filtered
    | None => filtered
    end in
  let filtered :=
    match present (o_medication options) with
    | Some medication =>
        let medLower := toLowerCase medication in
        filter (fun r => some_includes (medicationHistory r) medLower) filtered
    | None => filtered
    end in
  let filtered :=
    match present (o_region options) with
    | Some region_ =>
        let regionLower := toLowerCase region_ in
        filter (fun r => includes (toLowerCase (region r)) regionLower) filtered
    | None => filtered
    end in
  let filtered :=
    match o_ageMin options with
    | Some minAge => filter (fun r => (minAge <=? age r)%Z) filtered
    | None => filtered
    end in
  let filtered :=
    match o_ageMax options with
    | Some maxAge => filter (fun r => (age r <=? maxAge)%Z) filtered
    | None => filtered
    end in
  let filtered :=
    match present (o_gender options) with
    | Some gender_ =>
        let genderLower := toLowerCase gender_ in
        filter (fun r => String.eqb (toLowerCase (gender r)) genderLower) filtered
    | None => filtered
    end in
  let filtered :=
    match present (o_diagnosis options) with
    | Some diagnosis_ =>
        let diagLower := toLowerCase diagnosis_ in
        filter (fun r => some_includes (map diagnosis (pastVisits r)) diagLower)
               filtered
    | None => filtered
    end in
  filtered.

Definition searchRecords (env : Env) (options : SearchOptions)
  : M (list EHRRecord) :=
  records <- loadEHRData env ;;
  let limit := num_or (o_limit options) 50 in
  ret (slice0 (searchFiltered options records) limit).

End EhrDataService.

(** ** Exceptions *)

Inductive result (A : Type) : Type :=
| Ok (a : A)
| Throw (msg : string).
Arguments Ok {A} a.
Arguments Throw {A} msg.

Definition rbind {A B : Type} (m : result A) (f : A -> result B) : result B :=
  match m with
  | Ok a => f a
  | Throw msg => Throw msg
  end.

Notation "x <~ m ;; k" := (rbind m (fun x => k))
  (at level 61, m at next level, right associativity).

(** ** The query route *)

Module QueryRoute.
Import JsString Regex.

Record Filters : Type := {
  f_ageMin : option Z;
  f_ageMax : option Z;
  f_condition : option string;
  f_medication : option string;
  f_region : option string;
  f_gender : option string;
  f_diagnosis : option string
}.

Record FilterRequest : Type := {
  filters : Filters;
  limit : option Z
}.

Record SQLRequest : Type := { query : string }.

Record AggregateFilter : Type := {
  a_condition : option string;
  a_region : option string;
  a_gender : option string
}.

Record AggregateRequest : Type := {
  groupBy : string;
  filter_ : option AggregateFilter
}.

Record QueryStats : Type := {
  totalMatched : nat;
  queryTime : Z
}.

Record QueryData : Type := {
  records : option (list EHRRecord);
  aggregations : option (JsObj.t nat);
  stats : option QueryStats
}.

Record QueryResponse : Type := {
  success : bool;
  data : option QueryData;
  error : option string
}.

(** The value [parseSimpleSQL] returns. *)
Record QueryPlan : Type := {
  p_select : list string;
  p_where : JsObj.t string;
  p_groupBy : option string;
  p_limit : option Z
}.

Definition ws : regex := RChar is_space.
Definition dot : regex := RChar (fun c => negb (is_line_terminator c)).
Definition word : regex := RChar is_word.
Definition digit : regex := RChar is_digit.
Definition is_quote (c : ascii) : bool :=
  Ascii.eqb c "'" || Ascii.eqb c EhrDataService.dquote.
Definition quote : regex := RChar is_quote.
Definition not_quote : regex := RChar (fun c => negb (is_quote c)).

(** [/SELECT\s+(.+?)\s+FROM/i] *)
Definition selectRe : regex :=
  seq [lit "SELECT"; RPlus true ws; RGroup 1 (RPlus false dot);
       RPlus true ws; lit "FROM"].

(** [/WHERE\s+(.+?)(?:\s+GROUP|\s+ORDER|\s+LIMIT|$)/i] *)
Definition whereRe : regex :=
  seq [lit "WHERE"; RPlus true ws; RGroup 1 (RPlus false dot);
       RAlt (RSeq (RPlus true ws) (lit "GROUP"))
            (RAlt (RSeq (RPlus true ws) (lit "ORDER"))
                  (RAlt (RSeq (RPlus true ws) (lit "LIMIT")) REnd))].

(** [/\s+AND\s+/i] *)
Definition andRe : regex :=
  seq [RPlus true ws; lit "AND"; RPlus true ws].

(** [/(\w+)\s*=\s*Q?(N+)Q?/i], where Q is the class of the single and
    the double quote and N its complement *)
Definition eqRe : regex :=
  seq [RGroup 1 (RPlus true word); RStar true ws; lit "="; RStar true ws;
       ROpt quote; RGroup 2 (RPlus true not_quote); ROpt quote].

(** [/(\w+)\s+LIKE\s+Q?%?(N+)%?Q?/i], with Q and N as above *)
Definition likeRe : regex :=
  seq [RGroup 1 (RPlus true word); RPlus true ws; lit "LIKE"; RPlus true ws;
       ROpt quote; ROpt (lit "%"); RGroup 2 (RPlus true not_quote);
       ROpt (lit "%"); ROpt quote].

(** [/GROUP\s+BY\s+(\w+)/i] *)
Definition groupRe : regex :=
  seq [lit "GROUP"; RPlus true ws; lit "BY"; RPlus true ws;
       RGroup 1 (RPlus true word)].

(** [/LIMIT\s+(\d+)/i] *)
Definition limitRe : regex :=
  seq [lit "LIMIT"; RPlus true ws; RGroup 1 (RPlus true digit)].

(** [m[n]] where a string is needed: reading a capture that took no part
    in the match is reported as an exception. *)
Definition group (m : found) (n : nat) : result string :=
  match cap_get n (groups m) with
  | Some s => Ok s
  | None => Throw "TypeError: Cannot read properties of undefined"
  end.

Definition with_select (p : QueryPlan) (v : list string) : QueryPlan :=
  {| p_select := v; p_where := p_where p;
     p_groupBy := p_groupBy p; p_limit := p_limit p |}.

Definition with_where (p : QueryPlan) (k v : string) : QueryPlan :=
  {| p_select := p_select p; p_where := JsObj.set k v (p_where p);
     p_groupBy := p_groupBy p; p_limit := p_limit p |}.

Definition with_groupBy (p : QueryPlan) (v : string) : QueryPlan :=
  {| p_select := p_select p; p_where := p_where p;
     p_groupBy := Some v; p_limit := p_limit p |}.

Definition with_limit (p : QueryPlan) (v : option Z) : QueryPlan :=
  {| p_select := p_select p; p_where := p_where p;
     p_groupBy := p_groupBy p; p_limit := v |}.

(** One turn of the loop over the conditions of the WHERE clause. *)
Definition parseCondition (res : QueryPlan) (condition : string)
  : result QueryPlan :=
  res <~ match search eqRe condition with
         | Some eqMatch =>
             k <~ group eqMatch 1 ;;
             v <~ group eqMatch 2 ;;
             Ok (with_where res (toLowerCase k) v)
         | None => Ok res
         end ;;
  match search likeRe condition with
  | Some likeMatch =>
      k <~ group likeMatch 1 ;;
      v <~ group likeMatch 2 ;;
      Ok (with_where res (toLowerCase k) v)
  | None => Ok res
  end.

Definition defaultPlan : QueryPlan :=
  {| p_select := ["*"]; p_where := JsObj.empty;
     p_groupBy := None; p_limit := None |}.

Definition parseSimpleSQL (query : string) : result QueryPlan :=
  let res := defaultPlan in
  let normalizedQuery := trim query in
  res <~ match search selectRe normalizedQuery with
         | Some selectMatch =>
             fields <~ group selectMatch 1 ;;
             Ok (with_select res (map trim (split_on "," fields)))
         | None => Ok res
         end ;;
  res <~ match search whereRe normalizedQuery with
         | Some whereMatch =>
             clause <~ group whereMatch 1 ;;
             fold_left (fun acc condition =>
                          res <~ acc ;; parseCondition res condition)
                       (split andRe clause) (Ok res)
         | None => Ok res
         end ;;
  res <~ match search groupRe normalizedQuery with
         | Some groupMatch =>
             g <~ group groupMatch 1 ;;
             Ok (with_groupBy res (toLowerCase g))
         | None => Ok res
         end ;;
  match search limitRe normalizedQuery with
  | Some limitMatch =>
      n <~ group limitMatch 1 ;;
      Ok (with_limit res (parseInt n))
  | None => Ok res
  end.

(** The route's own bucketing. *)
Definition getAgeGroup (age : Z) : string :=
  if (age <? 20)%Z then "0-19"
  else if (age <? 40)%Z then "20-39"
  else if (age <? 60)%Z then "40-59"
  else if (age <? 80)%Z then "60-79"
  else "80+".

(** [a || b] on two optional strings *)
Definition str_or (a b : option string) : option string :=
  match present a with
  | Some s => Some s
  | None => b
  end.

(** [x && x !== "all" ? x : undefined] *)
Definition unless_all (x : option string) : option string :=
  match present x with
  | Some s => if String.eqb s "all" then None else Some s
  | None => None
  end.

Definition okResponse (d : QueryData) : QueryResponse :=
  {| success := true; data := Some d; error := None |}.

Definition errorResponse (msg : string) : QueryResponse :=
  {| success := false; data := None; error := Some msg |}.

Definition searchOptionsOf (request : FilterRequest)
  : EhrDataService.SearchOptions :=
  let filters := filters request in
  let limit := match limit request with Some l => l | None => 100%Z end in
  {| EhrDataService.o_condition := unless_all (f_condition filters);
     EhrDataService.o_medication := unless_all (f_medication filters);
     EhrDataService.o_region := unless_all (f_region filters);
     EhrDataService.o_ageMin := f_ageMin filters;
     EhrDataService.o_ageMax := f_ageMax filters;
     EhrDataService.o_gender := unless_all (f_gender filters);
     EhrDataService.o_diagnosis := unless_all (f_diagnosis filters);
     EhrDataService.o_limit := Some limit |}.

Definition executeFilterQuery (env : Env) (request : FilterRequest)
  : M QueryResponse :=
  startTime <- Date_now env ;;
  records <- EhrDataService.searchRecords env (searchOptionsOf request) ;;
  endTime <- Date_now env ;;
  ret (okResponse
         {| records := Some records; aggregations := None;
            stats := Some {| totalMatched := length records;
                             queryTime := endTime - startTime |} |}).

(** The filters of an aggregate request, applied in turn. *)
Definition aggregateFiltered (filter : option AggregateFilter)
           (allRecords : list EHRRecord) : list EHRRecord :=
  let filteredRecords := allRecords in
  let filteredRecords :=
    match present (match filter with Some f => a_condition f | None => None end) with
    | Some condition =>
        let condLower := toLowerCase condition in
        List.filter (fun r => EhrDataService.some_includes (symptoms r) condLower)
                    filteredRecords
    | None => filteredRecords
    end in
  let filteredRecords :=
    match present (match filter with Some f => a_region f | None => None end) with
    | Some region_ =>
        let regLower := toLowerCase region_ in
        List.filter (fun r => includes (toLowerCase (region r)) regLower)
                    filteredRecords
    | None => filteredRecords
    end in
  let filteredRecords :=
    match present (match filter with Some f => a_gender f | None => None end) with
    | Some gender_ =>
        List.filter (fun r => String.eqb (toLowerCase (gender r))
                                         (toLowerCase gender_))
                    filteredRecords
    | None => filteredRecords
    end in
  filteredRecords.

(** One turn of the aggregation loop of [executeAggregateQuery]. *)
Definition aggregateRecord (groupBy : string) (aggregations : JsObj.t nat)
           (record : EHRRecord) : JsObj.t nat :=
  if String.eqb groupBy "age" then
    JsObj.bump (getAgeGroup (age record)) aggregations
  else if String.eqb groupBy "gender" then
    JsObj.bump (gender record) aggregations
  else if String.eqb groupBy "region" then
    JsObj.bump (region record) aggregations
  else if String.eqb groupBy "condition" then
    fold_left (fun agg cond => JsObj.bump cond agg) (symptoms record) aggregations
  else if String.eqb groupBy "medication" then
    fold_left (fun agg med => JsObj.bump med agg)
              (medicationHistory record) aggregations
  else
    JsObj.bump "unknown" aggregations.

Definition executeAggregateQuery (env : Env) (request : AggregateRequest)
  : M QueryResponse :=
  startTime <- Date_now env ;;
  allRecords <- EhrDataService.loadEHRData env ;;
  let filteredRecords := aggregateFiltered (filter_ request) allRecords in
  let aggregations :=
    fold_left (aggregateRecord (groupBy request)) filteredRecords JsObj.empty in
  let sortedAggregations := JsObj.fromEntries (JsObj.sort_desc aggregations) in
  endTime <- Date_now env ;;
  ret (okResponse
         {| records := None; aggregations := Some sortedAggregations;
            stats := Some {| totalMatched := length filteredRecords;
                             queryTime := endTime - startTime |} |}).

(** The WHERE conditions of a parsed query, applied in turn. *)
Definition whereFiltered (parsed : QueryPlan) (allRecords : list EHRRecord)
  : list EHRRecord :=
  let where_ := p_where parsed in
  let filteredRecords := allRecords in
  let filteredRecords :=
    match present (JsObj.get "age" where_) with
    | Some a =>
        let age_ := parseInt a in
        List.filter (fun r => match age_ with
                              | Some n => (age r =? n)%Z
                              | None => false
                              end) filteredRecords
    | None => filteredRecords
    end in
  let filteredRecords :=
    match str_or (JsObj.get "age_group" where_) (present (JsObj.get "agegroup" where_)) with
    | Some ageGroup =>
        List.filter (fun r => String.eqb (getAgeGroup (age r)) ageGroup)
                    filteredRecords
    | None => filteredRecords
    end in
  let filteredRecords :=
    match present (JsObj.get "gender" where_) with
    | Some g =>
        List.filter (fun r => String.eqb (toLowerCase (gender r)) (toLowerCase g))
                    filteredRecords
    | None => filteredRecords
    end in
  let filteredRecords :=
    match present (JsObj.get "region" where_) with
    | Some g =>
        let regLower := toLowerCase g in
        List.filter (fun r => includes (toLowerCase (region r)) regLower)
                    filteredRecords
    | None => filteredRecords
    end in
  let filteredRecords :=
    match str_or (JsObj.get "condition" where_) (present (JsObj.get "symptom" where_)) with
    | Some c =>
        let cond := toLowerCase c in
        List.filter (fun r => EhrDataService.some_includes (symptoms r) cond)
                    filteredRecords
    | None => filteredRecords
    end in
  let filteredRecords :=
    match present (JsObj.get "medication" where_) with
    | Some m =>
        let med := toLowerCase m in
        List.filter (fun r => EhrDataService.some_includes (medicationHistory r) med)
                    filteredRecords
    | None => filteredRecords
    end in
  filteredRecords.

(** The key of a record under the GROUP BY of a parsed query. *)
Definition groupKey (groupBy : string) (record : EHRRecord) : string :=
  if String.eqb groupBy "age_group" || String.eqb groupBy "agegroup"
     || String.eqb groupBy "age"
  then getAgeGroup (age record)
  else if String.eqb groupBy "gender" then gender record
  else if String.eqb groupBy "region" then region record
  else "unknown".

Definition executeSQLQuery (env : Env) (request : SQLRequest)
  : M QueryResponse :=
  startTime <- Date_now env ;;
  match parseSimpleSQL (query request) with
  | Throw msg => ret (errorResponse msg)
  | Ok parsed =>
      allRecords <- EhrDataService.loadEHRData env ;;
      let filteredRecords := whereFiltered parsed allRecords in
      match present (p_groupBy parsed) with
      | Some groupBy =>
          let aggregations :=
            fold_left (fun agg record => JsObj.bump (groupKey groupBy record) agg)
                      filteredRecords JsObj.empty in
          endTime <- Date_now env ;;
          ret (okResponse
                 {| records := None; aggregations := Some aggregations;
                    stats := Some {| totalMatched := length filteredRecords;
                                     queryTime := endTime - startTime |} |})
      | None =>
          let limit := num_or (p_limit parsed) 100 in
          let limitedRecords := slice0 filteredRecords limit in
          endTime <- Date_now env ;;
          ret (okResponse
                 {| records := Some limitedRecords; aggregations := None;
                    stats := Some {| totalMatched := length filteredRecords;
                                     queryTime := endTime - startTime |} |})
      end
  end.

Inductive QueryRequest : Type :=
| FilterQuery (request : FilterRequest)
| SQLQuery (request : SQLRequest)
| AggregateQuery (request : AggregateRequest).

(** The dispatch of [POST] on a well-typed body. *)
Definition POST (env : Env) (body : QueryRequest) : M QueryResponse :=
  match body with
  | FilterQuery request => executeFilterQuery env request
  | SQLQuery request => executeSQLQuery env request
  | AggregateQuery request => executeAggregateQuery env request
  end.

End QueryRoute.

(** ** Sample data *)

Module Samples.
Import QueryRoute.

Definition patient (name : string) (a : Z) (g r : string)
           (conds meds : list string) : EHRRecord :=
  {| fullName := name; age := a; gender := g; region := r;
     address := EmptyString; symptoms := conds; medicationHistory := meds;
     pastVisits := []; phoneNumber := EmptyString; insuranceId := EmptyString |}.

Definition alice : EHRRecord :=
  patient "Alice" 18 "Female" "Kanto" ["Diabetes"; "Hypertension"] ["Metformin"].
Definition bob : EHRRecord :=
  patient "Bob" 45 "Male" "Kansai" [] [].
Definition carol : EHRRecord :=
  patient "Carol" 70 "Female" "Kanto" ["Asthma"] [].

Definition noFilters : Filters :=
  {| f_ageMin := None; f_ageMax := None; f_condition := None;
     f_medication := None; f_region := None; f_gender := None;
     f_diagnosis := None |}.

(** A world whose clock advances by one at each reading and whose file
    cannot be read. *)
Definition env_unreadable : Env :=
  {| date_now := fun n => Z.of_nat (S n); read_file := fun _ => None |}.

(** A file of a header and two rows, and a world that can read it. *)
Definition csv : string :=
  let q := String EhrDataService.dquote EmptyString in
  let nl := String EhrDataService.newline EmptyString in
  ("Full Name,Age,Gender,Region,Address,Symptoms,Medication,Visits,Phone,Insurance"
   ++ nl ++ "Alice,18,Female,Kanto,1 Main St," ++ q ++ "Diabetes, Hypertension" ++ q
   ++ ",Metformin," ++ q ++ "[2024-10-06: Fever], [2024-08-16: Allergic Rhinitis]" ++ q
   ++ ",090-0000,INS-1"
   ++ nl ++ "Bob,45,Male,Kansai,2 Side St,None,None,None,090-0001,INS-2"
   ++ nl)%string.

Definition env_csv : Env :=
  {| date_now := fun n => Z.of_nat (S n); read_file := fun _ => Some csv |}.

(** A world whose clock advances by 200000 ms at each reading and whose
    file can be read. *)
Definition env_ticking : Env :=
  {| date_now := fun n => (200000 * Z.of_nat (S n))%Z;
     read_file := fun _ => Some csv |}.

(** A world whose clock advances by 400000 ms at each reading and whose
    file can be read once, and never again. *)
Definition env_flaky : Env :=
  {| date_now := fun n => (400000 * Z.of_nat (S n))%Z;
     read_file := fun n => match n with O => Some csv | S _ => None end |}.

(** Thirty-three records over thirty-two regions of one letter each, the
    first region taken twice. *)
Definition regionNamed (i : nat) : string :=
  String (ascii_of_nat (65 + i)) EmptyString.

Definition crowd : list EHRRecord :=
  map (fun i => patient "P" 30 "Female" (regionNamed i) [] []) (0 :: seq 0 32).


(** A heap holding a warm cache of [rs], stamped at time 1. *)
Definition warm (rs : list EHRRecord) : Heap :=
  {| cachedRecords := Some rs; cachedStats := None; cacheTimestamp := Some 1%Z;
     nowCalls := 1; fsReads := 1; console := [] |}.

End Samples.

(** ** Notions used to state the properties *)

Module Props.
Import JsString QueryRoute EhrDataService.

(** The records a query function works on: it reads the clock once for
    [startTime], then calls [loadEHRData]. *)
Definition loaded (env : Env) (h : Heap) : list EHRRecord :=
  fst (loadEHRData env (snd (Date_now env h))).

Definition responseRecords (r : QueryResponse) : option (list EHRRecord) :=
  match data r with Some d => records d | None => None end.

Definition responseAggregations (r : QueryResponse) : option (JsObj.t nat) :=
  match data r with Some d => aggregations d | None => None end.

Definition responseTotalMatched (r : QueryResponse) : option nat :=
  match data r with Some d => option_map totalMatched (stats d) | None => None end.

(** The sum of all group counts of a response. *)
Definition responseGroupTotal (r : QueryResponse) : option nat :=
  option_map JsObj.total (responseAggregations r).

(** [o[k] || 0] on an object of counts *)
Definition countOf (k : string) (o : JsObj.t nat) : nat :=
  match JsObj.get k o with Some n => n | None => 0 end.

(** Updates of one filter field of a request. *)
Definition withFilters (request : FilterRequest) (f : Filters) : FilterRequest :=
  {| filters := f; limit := limit request |}.

Definition withCondition (request : FilterRequest) (v : option string) :=
  let f := filters request in
  withFilters request
    {| f_ageMin := f_ageMin f; f_ageMax := f_ageMax f; f_condition := v;
       f_medication := f_medication f; f_region := f_region f;
       f_gender := f_gender f; f_diagnosis := f_diagnosis f |}.

Definition withMedication (request : FilterRequest) (v : option string) :=
  let f := filters request in
  withFilters request
    {| f_ageMin := f_ageMin f; f_ageMax := f_ageMax f;
       f_condition := f_condition f; f_medication := v;
       f_region := f_region f; f_gender := f_gender f;
       f_diagnosis := f_diagnosis f |}.

Definition withRegion (request : FilterRequest) (v : option string) :=
  let f := filters request in
  withFilters request
    {| f_ageMin := f_ageMin f; f_ageMax := f_ageMax f;
       f_condition := f_condition f; f_medication := f_medication f;
       f_region := v; f_gender := f_gender f; f_diagnosis := f_diagnosis f |}.

Definition withGender (request : FilterRequest) (v : option string) :=
  let f := filters request in
  withFilters request
    {| f_ageMin := f_ageMin f; f_ageMax := f_ageMax f;
       f_condition := f_condition f; f_medication := f_medication f;
       f_region := f_region f; f_gender := v; f_diagnosis := f_diagnosis f |}.

Definition withDiagnosis (request : FilterRequest) (v : option string) :=
  let f := filters request in
  withFilters request
    {| f_ageMin := f_ageMin f; f_ageMax := f_ageMax f;
       f_condition := f_condition f; f_medication := f_medication f;
       f_region := f_region f; f_gender := f_gender f; f_diagnosis := v |}.

(** [x'] carries the bound of [x], or [x] carries none. *)
Definition addsTo {A : Type} (x x' : option A) : Prop := x = None \/ x' = x.

(** [x'] carries the string predicate of [x], or [x] carries none: it is
    absent or empty. *)
Definition addsStringTo (x x' : option string) : Prop :=
  present x = None \/ x' = x.

(** [o'] is [o] with further predicates, under the same limit. *)
Definition addsPredicates (o o' : SearchOptions) : Prop :=
  addsStringTo (o_condition o) (o_condition o') /\
  addsStringTo (o_medication o) (o_medication o') /\
  addsStringTo (o_region o) (o_region o') /\
  addsTo (o_ageMin o) (o_ageMin o') /\
  addsTo (o_ageMax o) (o_ageMax o') /\
  addsStringTo (o_gender o) (o_gender o') /\
  addsStringTo (o_diagnosis o) (o_diagnosis o') /\
  o_limit o' = o_limit o.

(** The conjunction of the predicates that [searchRecords] applies. *)
Definition keeps (o : SearchOptions) (r : EHRRecord) : bool :=
  match present (o_condition o) with
  | Some c => some_includes (symptoms r) (toLowerCase c) | None => true end &&
  match present (o_medication o) with
  | Some m => some_includes (medicationHistory r) (toLowerCase m) | None => true end &&
  match present (o_region o) with
  | Some g => includes (toLowerCase (region r)) (toLowerCase g) | None => true end &&
  match o_ageMin o with Some a => (a <=? age r)%Z | None => true end &&
  match o_ageMax o with Some a => (age r <=? a)%Z | None => true end &&
  match present (o_gender o) with
  | Some g => String.eqb (toLowerCase (gender r)) (toLowerCase g) | None => true end &&
  match present (o_diagnosis o) with
  | Some d => some_includes (map diagnosis (pastVisits r)) (toLowerCase d)
  | None => true end.

(** A query of white space only. *)
Fixpoint blank (s : string) : bool :=
  match s with
  | EmptyString => true
  | String c s' => is_space c && blank s'
  end.

(** The clock never runs backwards. *)
Definition monotoneClock (env : Env) : Prop :=
  forall i j, i <= j -> (date_now env i <= date_now env j)%Z.

(** The heaps the service can be in: from the initial one, by calls of the
    two functions that own the cache, and by clock readings and console
    output of other code. *)
Inductive reachable (env : Env) : Heap -> Prop :=
| reach_initial : reachable env initial_heap
| reach_load h : reachable env h -> reachable env (snd (loadEHRData env h))
| reach_stats h : reachable env h -> reachable env (snd (getEHRStatistics env h))
| reach_clock h : reachable env h -> reachable env (snd (Date_now env h)).

(** [st] is what [getEHRStatistics] computes from the records [rs]. *)
Definition computedFrom (st : EHRStatistics) (rs : list EHRRecord) : Prop :=
  st = computeStatistics rs (lastUpdated st).

(** Number of entries of a multi-valued field over a list of records. *)
Definition entries (field : EHRRecord -> list string) (rs : list EHRRecord) : nat :=
  fold_right (fun r acc => length (field r) + acc) 0 rs.

(** The three cache variables of a heap. *)
Definition cacheOf (h : Heap)
  : option (list EHRRecord) * option EHRStatistics * option Z :=
  (cachedRecords h, cachedStats h, cacheTimestamp h).

(** No later clock reading can find the cache timestamp fresh: there is
    none, or it is falsy, or a reading already made found it too old. *)
Definition expired (env : Env) (h : Heap) : Prop :=
  match cacheTimestamp h with
  | None => True
  | Some t =>
      t = 0%Z \/
      exists i, i < nowCalls h /\ (CACHE_TTL_MS <= date_now env i - t)%Z
  end.

(** The invariant of the cache: a timestamp only comes with records, and
    cached statistics are those of the cached records unless the timestamp
    is expired. *)
Definition coherent (env : Env) (h : Heap) : Prop :=
  (cachedRecords h = None -> cacheTimestamp h = None) /\
  forall st, cachedStats h = Some st ->
             (exists rs, cachedRecords h = Some rs /\ computedFrom st rs)
             \/ expired env h.

(** What one record adds to the sum of the counts of an aggregate query. *)
Definition weight (groupBy : string) (r : EHRRecord) : nat :=
  if String.eqb groupBy "condition" then length (symptoms r)
  else if String.eqb groupBy "medication" then length (medicationHistory r)
  else 1.

End Props.

(** ** Shapes of strings and lists *)

Module Shapes.
Import JsString.

(** Every code unit of [s] is in the class [p]. *)
Fixpoint all_in (p : ascii -> bool) (s : string) : bool :=
  match s with
  | EmptyString => true
  | String c s' => p c && all_in p s'
  end.

(** The code unit [c] does not occur in [s]. *)
Definition lacks (c : ascii) (s : string) : bool :=
  all_in (fun x => negb (Ascii.eqb x c)) s.

(** [s] has no white space at either end. *)
Definition trimmed (s : string) : Prop := trim s = s.

(** [s] does not begin with white space. *)
Definition headed (s : string) : bool :=
  match s with
  | EmptyString => true
  | String c _ => negb (is_space c)
  end.

(** [s] is its own lower-case form. *)
Definition lowercase (s : string) : Prop := toLowerCase s = s.

(** A field as the row parser leaves it. *)
Definition clean_field (f : string) : Prop :=
  lacks EhrDataService.dquote f = true /\ trimmed f.

(** An item as [parseListField] leaves it. *)
Definition clean_item (s : string) : Prop :=
  truthy s = true /\ trimmed s /\ lacks "," s = true.

(** A visit as [parsePastVisits] leaves it. *)
Definition clean_visit (v : PastVisit) : Prop :=
  lacks ":" (date v) = true /\ trimmed (date v) /\ trimmed (diagnosis v).

(** [l] is [l'] with some elements left out, the order kept. *)
Inductive Subseq {A : Type} : list A -> list A -> Prop :=
| Subseq_nil : Subseq [] []
| Subseq_keep x l l' : Subseq l l' -> Subseq (x :: l) (x :: l')
| Subseq_skip x l l' : Subseq l l' -> Subseq l (x :: l').

(** Entries listed by count, the greatest first. *)
Definition descending (l : list (string * nat)) : Prop :=
  StronglySorted (fun a b => snd b <= snd a) l.

(** How often [x] occurs in [l]. *)
Definition occurrences (x : string) (l : list string) : nat :=
  length (filter (String.eqb x) l).

(** Whether a line of the file holds a row: ten fields or more. *)
Definition wide (line : string) : bool :=
  10 <=? length (EhrDataService.parseCSVRow line).

(** The record [loadEHRData] builds from the fields of a row. *)
Definition recordOf (fields : list string) : EHRRecord :=
  {| fullName := EhrDataService.field fields 0;
     age := num_or (parseInt (EhrDataService.field fields 1)) 0;
     gender := EhrDataService.field fields 2;
     region := EhrDataService.field fields 3;
     address := EhrDataService.field fields 4;
     symptoms := EhrDataService.parseListField (EhrDataService.field fields 5);
     medicationHistory :=
       EhrDataService.parseListField (EhrDataService.field fields 6);
     pastVisits := EhrDataService.parsePastVisits (EhrDataService.field fields 7);
     phoneNumber := EhrDataService.field fields 8;
     insuranceId := EhrDataService.field fields 9 |}.

(** One turn of the loop of [loadEHRData] over the data lines. *)
Definition addRow (records : list EHRRecord) (line : string) : list EHRRecord :=
  let fields := EhrDataService.parseCSVRow line in
  if length fields <? 10 then records else records ++ [recordOf fields].

(** How many visits the records hold. *)
Definition visitCount (rs : list EHRRecord) : nat :=
  fold_right (fun r acc => length (pastVisits r) + acc) 0 rs.

(** How often [x] occurs in a list field over the records. *)
Definition occurrencesIn (field : EHRRecord -> list string) (x : string)
           (rs : list EHRRecord) : nat :=
  fold_right (fun r acc => occurrences x (field r) + acc) 0 rs.

(** How many records have the value [x] for a field. *)
Definition having (field : EHRRecord -> string) (x : string)
           (rs : list EHRRecord) : nat :=
  length (filter (fun r => String.eqb (field r) x) rs).


(** A record as [loadEHRData] leaves it. *)
Definition clean_record (r : EHRRecord) : Prop :=
  clean_field (fullName r) /\ clean_field (gender r) /\ clean_field (region r) /\
  Forall clean_item (symptoms r) /\ Forall clean_item (medicationHistory r) /\
  Forall clean_visit (pastVisits r).

End Shapes.

(** ** Pieces of the context generator *)

Module AiContext.

(** [items.join(sep)] *)
Fixpoint join (sep : string) (items : list string) : string :=
  match items with
  | [] => EmptyString
  | [x] => x
  | x :: rest => (x ++ sep ++ join sep rest)%string
  end.

(** [items.length > 0 ? items.join(", ") : "None"]: how
    [generateAIContext] writes the conditions and the medications of a
    sample record. *)
Definition listOrNone (items : list string) : string :=
  match items with
  | [] => "None"
  | _ => join ", " items
  end.

End AiContext.

(** ** Variants of options, records and plans *)

Module Variants.
Import JsString EhrDataService.

(** The options with every string predicate in lower case. *)
Definition inLowerCase (o : SearchOptions) : SearchOptions :=
  {| o_condition := option_map toLowerCase (o_condition o);
     o_medication := option_map toLowerCase (o_medication o);
     o_region := option_map toLowerCase (o_region o);
     o_ageMin := o_ageMin o;
     o_ageMax := o_ageMax o;
     o_gender := option_map toLowerCase (o_gender o);
     o_diagnosis := option_map toLowerCase (o_diagnosis o);
     o_limit := o_limit o |}.

(** The record with every field that a predicate reads in lower case. *)
Definition recordInLowerCase (r : EHRRecord) : EHRRecord :=
  {| fullName := fullName r;
     age := age r;
     gender := toLowerCase (gender r);
     region := toLowerCase (region r);
     address := address r;
     symptoms := map toLowerCase (symptoms r);
     medicationHistory := map toLowerCase (medicationHistory r);
     pastVisits :=
       map (fun v => {| date := date v; diagnosis := toLowerCase (diagnosis v) |})
           (pastVisits r);
     phoneNumber := phoneNumber r;
     insuranceId := insuranceId r |}.

(** The options that carry the two age bounds and nothing else. *)
Definition ageRange (a b : Z) (limit : option Z) : SearchOptions :=
  {| o_condition := None; o_medication := None; o_region := None;
     o_ageMin := Some a; o_ageMax := Some b;
     o_gender := None; o_diagnosis := None; o_limit := limit |}.


End Variants.

(** ** Plans as the parser leaves them *)

Module Plans.
Import JsString QueryRoute Shapes.

(** The where-keys and the group-by are in lower case, the group-by is not
    empty, the limit is a natural number, and the select list has an
    entry. *)
Definition settled (p : QueryPlan) : Prop :=
  p_select p <> [] /\
  Forall lowercase (map fst (p_where p)) /\
  (forall g, p_groupBy p = Some g -> lowercase g /\ truthy g = true) /\
  (forall n, p_limit p = Some n -> (0 <= n)%Z).

(** The where-keys that [executeSQLQuery] reads. *)
Definition whereKeys : list string :=
  ["age"; "age_group"; "agegroup"; "gender"; "region"; "condition"; "symptom";
   "medication"].

(** The group-by columns that [executeSQLQuery] knows. *)
Definition sqlGroupColumns : list string :=
  ["age_group"; "agegroup"; "age"; "gender"; "region"].

(** The group-by values that [executeAggregateQuery] knows. *)
Definition aggregateGroupColumns : list string :=
  ["age"; "gender"; "region"; "condition"; "medication"].



(** The one bucket of a grouping by a column that is not known. *)
Definition unknownBucket (matched : list EHRRecord) : JsObj.t nat :=
  match matched with
  | [] => []
  | _ => [("unknown", length matched)]
  end.

(** The key of a record under a single-valued [groupBy] of an aggregate
    request. *)
Definition aggregateKey (groupBy : string) (r : EHRRecord) : string :=
  if String.eqb groupBy "age" then getAgeGroup (age r)
  else if String.eqb groupBy "gender" then gender r
  else region r.

(** The search options that carry the gender, region, condition and
    medication of a plan's WHERE clause. *)
Definition searchOptionsOfPlan (p : QueryPlan) : EhrDataService.SearchOptions :=
  {| EhrDataService.o_condition := JsObj.get "condition" (p_where p);
     EhrDataService.o_medication := JsObj.get "medication" (p_where p);
     EhrDataService.o_region := JsObj.get "region" (p_where p);
     EhrDataService.o_ageMin := None;
     EhrDataService.o_ageMax := None;
     EhrDataService.o_gender := JsObj.get "gender" (p_where p);
     EhrDataService.o_diagnosis := None;
     EhrDataService.o_limit := p_limit p |}.

End Plans.

(** ** An aggregate filter as search options *)

Module Paths.
Import QueryRoute.

(** The search options that carry the condition, region and gender of the
    filter of an aggregate request, taken as they are. *)
Definition searchOptionsOfAggregate (f : AggregateFilter)
  : EhrDataService.SearchOptions :=
  {| EhrDataService.o_condition := a_condition f;
     EhrDataService.o_medication := None;
     EhrDataService.o_region := a_region f;
     EhrDataService.o_ageMin := None;
     EhrDataService.o_ageMax := None;
     EhrDataService.o_gender := a_gender f;
     EhrDataService.o_diagnosis := None;
     EhrDataService.o_limit := None |}.

End Paths.

(** ** The keys a count is kept under *)

Module Domains.
Import JsString QueryRoute.

(** Every record has an own name for the value of [key]. *)
Definition ownValued (key : EHRRecord -> string) (rs : list EHRRecord) : Prop :=
  Forall (fun r => JsObj.own_name (key r) = true) rs.

(** Every record has own names for all the values of [keys]. *)
Definition ownListed (keys : EHRRecord -> list string) (rs : list EHRRecord)
  : Prop :=
  Forall (fun r => forallb JsObj.own_name (keys r) = true) rs.

(** The keys under which an aggregate request counts a record. *)
Definition aggregateKeys (groupBy : string) (r : EHRRecord) : list string :=
  if String.eqb groupBy "age" then [getAgeGroup (age r)]
  else if String.eqb groupBy "gender" then [gender r]
  else if String.eqb groupBy "region" then [region r]
  else if String.eqb groupBy "condition" then symptoms r
  else if String.eqb groupBy "medication" then medicationHistory r
  else ["unknown"].


(** The ages of the records are integers that a double holds exactly. *)
Definition safeAges (rs : list EHRRecord) : Prop :=
  Forall (fun r => safe_integer (age r) = true) rs.

End Domains.

(** ** Where cached statistics come from *)

Module Lineage.
Import EhrDataService Props.

(** The cache timestamp is a clock reading already made. *)
Definition stamped (env : Env) (h : Heap) : Prop :=
  forall t, cacheTimestamp h = Some t ->
            exists j, j < nowCalls h /\ t = date_now env j.

(** Cached statistics were computed at a clock reading made after the one
    that stamped the cached records, and from these records, or else from
    the empty result of a read that failed. *)
Definition derived (env : Env) (h : Heap) : Prop :=
  forall st, cachedStats h = Some st ->
    exists i, i < nowCalls h /\ lastUpdated st = date_now env i /\
      ((exists rs, cachedRecords h = Some rs /\ computedFrom st rs)
       \/ computedFrom st []) /\
      (forall t, cacheTimestamp h = Some t ->
                 exists j, j < i /\ t = date_now env j).

End Lineage.

(** * Properties *)

(** ** Objects of counts *)

Module JsObjFacts.
Import JsObj Props.

Section Get.
Variable V : Type.
Implicit Types (o : t V) (k : string) (v : V).

Lemma get_replace_same k v o :
  get k o <> None -> get k (replace k v o) = Some v.
Proof.
  induction o as [|[k' v'] o IH]; simpl; [congruence|].
  destruct (String.eqb k k') eqn:E; simpl.
  - rewrite String.eqb_refl. reflexivity.
  - rewrite E. exact IH.
Qed.

Lemma get_replace_other k k' v o :
  k' <> k -> get k' (replace k v o) = get k' o.
Proof.
  intros Hne. induction o as [|[k0 v0] o IH]; simpl; [reflexivity|].
  destruct (String.eqb k k0) eqn:E; simpl.
  - apply String.eqb_eq in E. subst k0.
    apply String.eqb_neq in Hne. rewrite Hne. reflexivity.
  - rewrite IH. reflexivity.
Qed.

Lemma get_insert_index_same i k v o :
  get k o = None -> get k (insert_index i k v o) = Some v.
Proof.
  induction o as [|[k0 v0] o IH]; simpl; intros H.
  - rewrite String.eqb_refl. reflexivity.
  - destruct (String.eqb k k0) eqn:E; [discriminate|].
    destruct (array_index k0) as [j|]; [destruct (j <? i)%N|]; simpl;
      rewrite ?E, ?String.eqb_refl; auto.
Qed.

Lemma get_insert_index_other i k k' v o :
  k' <> k -> get k' (insert_index i k v o) = get k' o.
Proof.
  intros Hne. apply String.eqb_neq in Hne.
  induction o as [|[k0 v0] o IH]; simpl.
  - rewrite Hne. reflexivity.
  - destruct (array_index k0) as [j|]; [destruct (j <? i)%N|]; simpl;
      rewrite ?Hne, ?IH; reflexivity.
Qed.

Lemma get_app_last k k' v o :
  get k' (o ++ [(k, v)]) =
  match get k' o with
  | Some x => Some x
  | None => if String.eqb k' k then Some v else None
  end.
Proof.
  induction o as [|[k0 v0] o IH]; simpl; [reflexivity|].
  destruct (String.eqb k' k0); auto.
Qed.

Lemma get_set_same k v o : get k (set k v o) = Some v.
Proof.
  unfold set. destruct (get k o) eqn:E.
  - apply get_replace_same. congruence.
  - destruct (array_index k).
    + apply get_insert_index_same. exact E.
    + rewrite get_app_last, E, String.eqb_refl. reflexivity.
Qed.

Lemma get_set_other k k' v o : k' <> k -> get k' (set k v o) = get k' o.
Proof.
  intros Hne. unfold set. destruct (get k o) eqn:E.
  - apply get_replace_other. exact Hne.
  - destruct (array_index k).
    + apply get_insert_index_other. exact Hne.
    + rewrite get_app_last. apply String.eqb_neq in Hne. rewrite Hne.
      destruct (get k' o); reflexivity.
Qed.

Lemma get_None_keys k o : get k o = None <-> ~ In k (map fst o).
Proof.
  induction o as [|[k0 v0] o IH]; simpl; [tauto|].
  destruct (String.eqb k k0) eqn:E.
  - apply String.eqb_eq in E. subst. split; [discriminate|tauto].
  - apply String.eqb_neq in E. rewrite IH. split; [intros H [H1|H1]|]; auto.
Qed.

Lemma keys_replace k v o : map fst (replace k v o) = map fst o.
Proof.
  induction o as [|[k0 v0] o IH]; simpl; [reflexivity|].
  destruct (String.eqb k k0) eqn:E; simpl.
  - apply String.eqb_eq in E. subst. reflexivity.
  - rewrite IH. reflexivity.
Qed.

Lemma perm_insert_index i k v o :
  Permutation (insert_index i k v o) ((k, v) :: o).
Proof.
  induction o as [|[k0 v0] o IH]; simpl; [reflexivity|].
  destruct (array_index k0) as [j|]; [destruct (j <? i)%N|]; try reflexivity.
  rewrite IH. apply perm_swap.
Qed.

Lemma perm_set_new k v o :
  get k o = None -> Permutation (set k v o) ((k, v) :: o).
Proof.
  intros E. unfold set. rewrite E. destruct (array_index k).
  - apply perm_insert_index.
  - symmetry. apply Permutation_cons_append.
Qed.

Lemma NoDup_keys_set k v o :
  NoDup (map fst o) -> NoDup (map fst (set k v o)).
Proof.
  intros Hnd. destruct (get k o) eqn:E.
  - unfold set. rewrite E, keys_replace. exact Hnd.
  - eapply Permutation_NoDup.
    + symmetry. apply Permutation_map. apply perm_set_new. exact E.
    + simpl. constructor; [apply get_None_keys; exact E | exact Hnd].
Qed.
End Get.

Lemma total_perm (o o' : t nat) : Permutation o o' -> total o = total o'.
Proof.
  induction 1; simpl; try lia.
Qed.

Lemma total_replace k v n (o : t nat) :
  get k o = Some n -> total (replace k v o) + n = total o + v.
Proof.
  induction o as [|[k0 v0] o IH]; simpl; [discriminate|].
  destruct (String.eqb k k0); simpl.
  - intros [= ->]. lia.
  - intros H. specialize (IH H). lia.
Qed.

Lemma total_set_new k v (o : t nat) :
  get k o = None -> total (set k v o) = v + total o.
Proof.
  intros E. rewrite (total_perm (perm_set_new k v o E)). reflexivity.
Qed.

Lemma total_bump k (o : t nat) : total (bump k o) = S (total o).
Proof.
  unfold bump. destruct (get k o) as [n|] eqn:E.
  - unfold set. rewrite E.
    pose proof (total_replace k (n + 1) o E). lia.
  - rewrite total_set_new by exact E. simpl. reflexivity.
Qed.

Lemma NoDup_keys_bump k (o : t nat) :
  NoDup (map fst o) -> NoDup (map fst (bump k o)).
Proof. apply NoDup_keys_set. Qed.

Lemma countOf_bump k k' (o : t nat) :
  countOf k (bump k' o) = if String.eqb k' k then S (countOf k o) else countOf k o.
Proof.
  unfold countOf, bump. destruct (String.eqb k' k) eqn:E.
  - apply String.eqb_eq in E. subst. rewrite get_set_same.
    destruct (get k o); lia.
  - apply String.eqb_neq in E. rewrite get_set_other by congruence. reflexivity.
Qed.

Lemma perm_insert_desc x l : Permutation (insert_desc x l) (x :: l).
Proof.
  induction l as [|y l IH]; simpl; [reflexivity|].
  destruct (snd x <? snd y); [|reflexivity].
  rewrite IH. apply perm_swap.
Qed.

Lemma perm_sort_desc l : Permutation (sort_desc l) l.
Proof.
  induction l as [|x l IH]; simpl; [reflexivity|].
  rewrite perm_insert_desc. constructor. exact IH.
Qed.

Lemma fold_set_total (l : list (string * nat)) : forall acc : t nat,
  NoDup (map fst l) ->
  (forall k, In k (map fst l) -> get k acc = None) ->
  total (fold_left (fun o kv => set (fst kv) (snd kv) o) l acc)
  = total acc + total l.
Proof.
  induction l as [|[k v] l IH]; simpl; intros acc Hnd Hfresh; [lia|].
  inversion Hnd as [|? ? Hk Hnd']; subst.
  rewrite IH.
  - rewrite total_set_new by (apply Hfresh; auto). lia.
  - exact Hnd'.
  - intros k' Hin. rewrite get_set_other.
    + apply Hfresh. auto.
    + intros ->. contradiction.
Qed.

Lemma total_fromEntries (l : list (string * nat)) :
  NoDup (map fst l) -> total (fromEntries l) = total l.
Proof.
  intros Hnd. unfold fromEntries. rewrite fold_set_total; auto.
Qed.

Lemma total_sorted (o : t nat) :
  NoDup (map fst o) -> total (fromEntries (sort_desc o)) = total o.
Proof.
  intros Hnd. rewrite total_fromEntries.
  - apply total_perm, perm_sort_desc.
  - eapply Permutation_NoDup; [|exact Hnd].
    symmetry. apply Permutation_map, perm_sort_desc.
Qed.
End JsObjFacts.

(** ** The query functions, step by step *)

Module RouteFacts.
Import JsString Regex QueryRoute EhrDataService Props JsObjFacts.

Lemma executeFilterQuery_eq env request h :
  executeFilterQuery env request h =
  let h2 := snd (loadEHRData env (snd (Date_now env h))) in
  let o := searchOptionsOf request in
  let rs := slice0 (searchFiltered o (loaded env h)) (num_or (o_limit o) 50) in
  (okResponse
     {| records := Some rs; aggregations := None;
        stats := Some {| totalMatched := length rs;
                         queryTime := date_now env (nowCalls h2)
                                      - date_now env (nowCalls h) |} |},
   snd (Date_now env h2)).
Proof.
  unfold executeFilterQuery, searchRecords, loaded, bind, ret. simpl.
  destruct (loadEHRData env _) as [all h2]. reflexivity.
Qed.

Lemma executeAggregateQuery_eq env request h :
  executeAggregateQuery env request h =
  let h2 := snd (loadEHRData env (snd (Date_now env h))) in
  let filtered := aggregateFiltered (filter_ request) (loaded env h) in
  let agg := fold_left (aggregateRecord (groupBy request)) filtered JsObj.empty in
  (okResponse
     {| records := None;
        aggregations := Some (JsObj.fromEntries (JsObj.sort_desc agg));
        stats := Some {| totalMatched := length filtered;
                         queryTime := date_now env (nowCalls h2)
                                      - date_now env (nowCalls h) |} |},
   snd (Date_now env h2)).
Proof.
  unfold executeAggregateQuery, loaded, bind, ret. simpl.
  destruct (loadEHRData env _) as [all h2]. reflexivity.
Qed.

Lemma executeSQLQuery_eq env q parsed h :
  parseSimpleSQL q = Ok parsed ->
  executeSQLQuery env {| query := q |} h =
  let h2 := snd (loadEHRData env (snd (Date_now env h))) in
  let filtered := whereFiltered parsed (loaded env h) in
  let st := {| totalMatched := length filtered;
               queryTime := date_now env (nowCalls h2)
                            - date_now env (nowCalls h) |} in
  (okResponse
     match present (p_groupBy parsed) with
     | Some g =>
         {| records := None;
            aggregations :=
              Some (fold_left (fun agg record => JsObj.bump (groupKey g record) agg)
                              filtered JsObj.empty);
            stats := Some st |}
     | None =>
         {| records := Some (slice0 filtered (num_or (p_limit parsed) 100));
            aggregations := None;
            stats := Some st |}
     end,
   snd (Date_now env h2)).
Proof.
  intros Hp. unfold executeSQLQuery, loaded, bind, ret. simpl. rewrite Hp.
  destruct (loadEHRData env _) as [all h2]. simpl.
  destruct (present (p_groupBy parsed)); reflexivity.
Qed.

Lemma length_slice0 (A : Type) (l : list A) (limit : Z) :
  (0 <= limit)%Z -> length (slice0 l limit) = Nat.min (Z.to_nat limit) (length l).
Proof.
  intros H. unfold slice0. apply Z.leb_le in H. rewrite H. apply length_firstn.
Qed.

(** The textual path reports the count before the limit. *)
Lemma executeSQLQuery_limit env q parsed h :
  parseSimpleSQL q = Ok parsed ->
  present (p_groupBy parsed) = None ->
  (match p_limit parsed with Some n => 0 <= n | None => True end)%Z ->
  let resp := fst (executeSQLQuery env {| query := q |} h) in
  let filtered := whereFiltered parsed (loaded env h) in
  responseTotalMatched resp = Some (length filtered) /\
  option_map (@length _) (responseRecords resp)
  = Some (Nat.min (Z.to_nat (num_or (p_limit parsed) 100)) (length filtered)).
Proof.
  intros Hp Hg Hl. rewrite executeSQLQuery_eq with (parsed := parsed) by exact Hp. cbn zeta.
  rewrite Hg. unfold responseTotalMatched, responseRecords. simpl.
  split; [reflexivity|]. f_equal. apply length_slice0.
  unfold num_or. destruct (p_limit parsed) as [n|]; [|lia].
  destruct (n =? 0)%Z; lia.
Qed.

(** The slice of the filter path, for a limit that is not negative. *)
Lemma executeFilterQuery_slice env request h :
  (match limit request with Some n => 0 <= n | None => True end)%Z ->
  let o := searchOptionsOf request in
  option_map (@length _) (responseRecords (fst (executeFilterQuery env request h)))
  = Some (Nat.min (Z.to_nat (num_or (o_limit o) 50))
                  (length (searchFiltered o (loaded env h)))).
Proof.
  intros Hl. rewrite executeFilterQuery_eq. cbn zeta.
  unfold responseRecords. simpl. f_equal. apply length_slice0.
  destruct (limit request) as [n|]; simpl; [|lia].
  destruct (n =? 0)%Z; lia.
Qed.

(** The filter path reports the length of the slice it returns. *)
Lemma executeFilterQuery_totalMatched env request h :
  let resp := fst (executeFilterQuery env request h) in
  responseTotalMatched resp = option_map (@length _) (responseRecords resp).
Proof.
  rewrite executeFilterQuery_eq. reflexivity.
Qed.

End RouteFacts.

(** ** Limits and matched counts *)

Module LimitFacts.
Import JsString Regex QueryRoute EhrDataService Props Samples RouteFacts.

(** C1 does not hold on the filter path: with three records matching and a
    limit of 1, the response carries one record and reports [totalMatched]
    = 1, the length of the slice, where the count before the limit is 3. *)
Theorem filter_totalMatched_is_slice_length :
  let request := {| filters := noFilters; limit := Some 1%Z |} in
  let h := warm [alice; bob; carol] in
  let resp := fst (executeFilterQuery env_unreadable request h) in
  length (searchFiltered (searchOptionsOf request) (loaded env_unreadable h)) = 3 /\
  responseRecords resp = Some [alice] /\
  responseTotalMatched resp = Some 1.
Proof.
  vm_compute. repeat split.
Qed.

(** C10: a limit of 0 falls back to 50 on the filter path and to 100 on the
    textual path. *)
Theorem zero_limit_falls_back env h fs q parsed :
  parseSimpleSQL q = Ok parsed ->
  p_limit parsed = Some 0%Z ->
  present (p_groupBy parsed) = None ->
  let request := {| filters := fs; limit := Some 0%Z |} in
  responseRecords (fst (executeFilterQuery env request h))
  = Some (firstn 50 (searchFiltered (searchOptionsOf request) (loaded env h))) /\
  responseRecords (fst (executeSQLQuery env {| query := q |} h))
  = Some (firstn 100 (whereFiltered parsed (loaded env h))).
Proof.
  intros Hp Hl Hg. split.
  - rewrite executeFilterQuery_eq. reflexivity.
  - rewrite executeSQLQuery_eq with (parsed := parsed) by exact Hp.
    cbn zeta. rewrite Hg, Hl. reflexivity.
Qed.

Lemma zero_limit_falls_back_witness :
  let q := "SELECT * FROM ehr_records LIMIT 0" in
  let h := warm (repeat alice 120) in
  responseRecords (fst (executeFilterQuery env_unreadable
                          {| filters := noFilters; limit := Some 0%Z |} h))
  = Some (repeat alice 50) /\
  responseRecords (fst (executeSQLQuery env_unreadable {| query := q |} h))
  = Some (repeat alice 100).
Proof.
  exact (@zero_limit_falls_back env_unreadable (warm (repeat alice 120)) noFilters
           "SELECT * FROM ehr_records LIMIT 0"
           {| p_select := ["*"]; p_where := []; p_groupBy := None;
              p_limit := Some 0%Z |}
           eq_refl eq_refl eq_refl).
Defined.

(** C9: the sentinel ["all"] in any of the five string filters gives the
    response (and the heap) of the request without that field. *)
Theorem sentinel_all_is_absent env request h :
  executeFilterQuery env (withCondition request (Some "all")) h
    = executeFilterQuery env (withCondition request None) h /\
  executeFilterQuery env (withMedication request (Some "all")) h
    = executeFilterQuery env (withMedication request None) h /\
  executeFilterQuery env (withRegion request (Some "all")) h
    = executeFilterQuery env (withRegion request None) h /\
  executeFilterQuery env (withGender request (Some "all")) h
    = executeFilterQuery env (withGender request None) h /\
  executeFilterQuery env (withDiagnosis request (Some "all")) h
    = executeFilterQuery env (withDiagnosis request None) h.
Proof.
  repeat split; rewrite !executeFilterQuery_eq; reflexivity.
Qed.

End LimitFacts.

(** ** Grouped counts *)

Module GroupFacts.
Import JsString Regex QueryRoute EhrDataService Props Samples Domains RouteFacts JsObjFacts.

Lemma total_bump_all (l : list string) : forall agg : JsObj.t nat,
  JsObj.total (fold_left (fun agg k => JsObj.bump k agg) l agg)
  = JsObj.total agg + length l.
Proof.
  induction l as [|k l IH]; simpl; intros agg; [lia|].
  rewrite IH, total_bump. lia.
Qed.

Lemma NoDup_bump_all (l : list string) : forall agg : JsObj.t nat,
  NoDup (map fst agg) ->
  NoDup (map fst (fold_left (fun agg k => JsObj.bump k agg) l agg)).
Proof.
  induction l as [|k l IH]; simpl; intros agg H; [exact H|].
  apply IH, NoDup_keys_bump, H.
Qed.

Lemma total_aggregateRecord g agg r :
  JsObj.total (aggregateRecord g agg r) = JsObj.total agg + weight g r.
Proof.
  unfold aggregateRecord, weight.
  destruct (String.eqb g "age") eqn:E1.
  { apply String.eqb_eq in E1. subst g. simpl. rewrite total_bump. lia. }
  destruct (String.eqb g "gender") eqn:E2.
  { apply String.eqb_eq in E2. subst g. simpl. rewrite total_bump. lia. }
  destruct (String.eqb g "region") eqn:E3.
  { apply String.eqb_eq in E3. subst g. simpl. rewrite total_bump. lia. }
  destruct (String.eqb g "condition"); [apply total_bump_all|].
  destruct (String.eqb g "medication"); [apply total_bump_all|].
  rewrite total_bump. lia.
Qed.

Lemma NoDup_aggregateRecord g agg r :
  NoDup (map fst agg) -> NoDup (map fst (aggregateRecord g agg r)).
Proof.
  intros H. unfold aggregateRecord.
  repeat match goal with
         | |- context [if ?b then _ else _] => destruct b
         end; auto using NoDup_keys_bump, NoDup_bump_all.
Qed.

Lemma total_aggregate g (rs : list EHRRecord) : forall agg,
  JsObj.total (fold_left (aggregateRecord g) rs agg)
  = JsObj.total agg + fold_right (fun r acc => weight g r + acc) 0 rs.
Proof.
  induction rs as [|r rs IH]; simpl; intros agg; [lia|].
  rewrite IH, total_aggregateRecord. lia.
Qed.

Lemma NoDup_aggregate g (rs : list EHRRecord) : forall agg,
  NoDup (map fst agg) -> NoDup (map fst (fold_left (aggregateRecord g) rs agg)).
Proof.
  induction rs as [|r rs IH]; simpl; intros agg H; [exact H|].
  apply IH, NoDup_aggregateRecord, H.
Qed.

Lemma weights_sum g (rs : list EHRRecord) :
  fold_right (fun r acc => weight g r + acc) 0 rs =
  if String.eqb g "condition" then entries symptoms rs
  else if String.eqb g "medication" then entries medicationHistory rs
  else length rs.
Proof.
  unfold weight, entries.
  destruct (String.eqb g "condition"); [reflexivity|].
  destruct (String.eqb g "medication"); [reflexivity|].
  induction rs as [|r rs IH]; simpl in *; [reflexivity | f_equal; exact IH].
Qed.

(** C2, as the code has it: for group keys that are own names, the group
    counts of an aggregate response sum to [totalMatched] when grouping by
    age, gender or region or by any other value (one count per record);
    grouping by condition or medication counts every entry of the record's
    list, so the sum is the number of such entries over the filtered
    records. *)
Theorem aggregate_group_total env request h :
  let resp := fst (executeAggregateQuery env request h) in
  let filtered := aggregateFiltered (filter_ request) (loaded env h) in
  responseTotalMatched resp = Some (length filtered) /\
  (ownListed (aggregateKeys (groupBy request)) filtered ->
   responseGroupTotal resp =
   Some (if String.eqb (groupBy request) "condition" then entries symptoms filtered
         else if String.eqb (groupBy request) "medication"
              then entries medicationHistory filtered
              else length filtered)).
Proof.
  rewrite executeAggregateQuery_eq. cbn zeta.
  unfold responseTotalMatched, responseGroupTotal, responseAggregations. simpl.
  split; [reflexivity|]. intros _. f_equal.
  rewrite total_sorted by (apply NoDup_aggregate; constructor).
  rewrite total_aggregate, weights_sum. reflexivity.
Qed.

Lemma aggregate_group_total_witness :
  let h := warm [alice; bob; carol] in
  let request := {| groupBy := "gender";
                    filter_ := Some {| a_condition := None; a_region := Some "kan";
                                       a_gender := None |} |} in
  let resp := fst (executeAggregateQuery env_unreadable request h) in
  responseAggregations resp = Some [("Female", 2); ("Male", 1)] /\
  responseTotalMatched resp = Some 3 /\
  responseGroupTotal resp = Some 3.
Proof.
  split; [reflexivity|].
  destruct (@aggregate_group_total env_unreadable
              {| groupBy := "gender";
                 filter_ := Some {| a_condition := None; a_region := Some "kan";
                                    a_gender := None |} |}
              (warm [alice; bob; carol])) as (Hm & Hs).
  split; [exact Hm|]. apply Hs. repeat constructor.
Defined.

(** C2 fails as stated: one matched record with two conditions, grouped by
    condition, gives counts that sum to 2. *)
Lemma aggregate_by_condition_counts_entries :
  let resp := fst (executeAggregateQuery env_unreadable
                     {| groupBy := "condition"; filter_ := None |} (warm [alice])) in
  responseAggregations resp = Some [("Diabetes", 1); ("Hypertension", 1)] /\
  responseGroupTotal resp = Some 2 /\
  responseTotalMatched resp = Some 1 /\
  responseGroupTotal resp <> responseTotalMatched resp.
Proof.
  vm_compute. repeat split. discriminate.
Qed.

Lemma countOf_tally (key : EHRRecord -> string) (k : string) (rs : list EHRRecord) :
  forall agg,
  countOf k (fold_left (fun agg r => JsObj.bump (key r) agg) rs agg)
  = countOf k agg + length (filter (fun r => String.eqb (key r) k) rs).
Proof.
  induction rs as [|r rs IH]; simpl; intros agg; [lia|].
  rewrite IH, countOf_bump. destruct (String.eqb (key r) k); simpl; lia.
Qed.

Lemma total_tally (key : EHRRecord -> string) (rs : list EHRRecord) : forall agg,
  JsObj.total (fold_left (fun agg r => JsObj.bump (key r) agg) rs agg)
  = JsObj.total agg + length rs.
Proof.
  induction rs as [|r rs IH]; simpl; intros agg; [lia|].
  rewrite IH, total_bump. lia.
Qed.

Lemma groupKey_age g r :
  g = "age_group" \/ g = "agegroup" \/ g = "age" ->
  groupKey g r = QueryRoute.getAgeGroup (age r).
Proof. intros [-> | [-> | ->]]; reflexivity. Qed.

Lemma getAgeGroup_bucket (a : Z) :
  String.eqb (QueryRoute.getAgeGroup a) "0-19" = (a <? 20)%Z /\
  String.eqb (QueryRoute.getAgeGroup a) "20-39" = ((20 <=? a) && (a <? 40))%Z /\
  String.eqb (QueryRoute.getAgeGroup a) "40-59" = ((40 <=? a) && (a <? 60))%Z /\
  String.eqb (QueryRoute.getAgeGroup a) "60-79" = ((60 <=? a) && (a <? 80))%Z /\
  String.eqb (QueryRoute.getAgeGroup a) "80+" = (80 <=? a)%Z.
Proof.
  unfold QueryRoute.getAgeGroup.
  destruct (a <? 20)%Z eqn:E1; [|destruct (a <? 40)%Z eqn:E2;
    [|destruct (a <? 60)%Z eqn:E3; [|destruct (a <? 80)%Z eqn:E4]]];
  simpl; repeat split; symmetry;
  rewrite ?andb_true_iff, ?andb_false_iff, ?Z.leb_le, ?Z.leb_gt, ?Z.ltb_lt, ?Z.ltb_ge in *;
  lia.
Qed.

(** C3, as the code has it: a textual query grouped by [age_group],
    [agegroup] or [age] returns no records; its counts are those of the
    records passing the WHERE conditions, by the route's own buckets
    (below 20, 20-39, 40-59, 60-79, 80 and above), and nothing else. *)
Theorem sql_group_by_age env q parsed g h :
  parseSimpleSQL q = Ok parsed ->
  p_groupBy parsed = Some g ->
  g = "age_group" \/ g = "agegroup" \/ g = "age" ->
  let resp := fst (executeSQLQuery env {| query := q |} h) in
  let filtered := whereFiltered parsed (loaded env h) in
  let count p := length (filter (fun r => p (age r)) filtered) in
  responseRecords resp = None /\
  responseTotalMatched resp = Some (length filtered) /\
  exists agg,
    responseAggregations resp = Some agg /\
    countOf "0-19" agg = count (fun a => a <? 20)%Z /\
    countOf "20-39" agg = count (fun a => (20 <=? a) && (a <? 40))%Z /\
    countOf "40-59" agg = count (fun a => (40 <=? a) && (a <? 60))%Z /\
    countOf "60-79" agg = count (fun a => (60 <=? a) && (a <? 80))%Z /\
    countOf "80+" agg = count (fun a => 80 <=? a)%Z /\
    JsObj.total agg = length filtered.
Proof.
  intros Hp Hg Hage.
  rewrite executeSQLQuery_eq with (parsed := parsed) by exact Hp. cbn zeta.
  assert (Hpres : present (p_groupBy parsed) = Some g).
  { rewrite Hg. destruct Hage as [-> | [-> | ->]]; reflexivity. }
  rewrite Hpres. unfold responseRecords, responseTotalMatched, responseAggregations.
  simpl. split; [reflexivity|]. split; [reflexivity|].
  eexists. split; [reflexivity|].
  rewrite total_tally, !countOf_tally. simpl.
  repeat split;
    try (f_equal; apply filter_ext; intros r; rewrite groupKey_age by exact Hage;
         apply getAgeGroup_bucket).
Qed.

Lemma sql_group_by_age_witness :
  let resp := fst (executeSQLQuery env_unreadable
                     {| query := "SELECT * FROM ehr_records WHERE gender = 'Female' GROUP BY age" |}
                     (warm [alice; bob; carol])) in
  responseRecords resp = None /\
  responseTotalMatched resp = Some 2 /\
  exists agg,
    responseAggregations resp = Some agg /\
    countOf "0-19" agg = 1 /\ countOf "20-39" agg = 0 /\ countOf "40-59" agg = 0 /\
    countOf "60-79" agg = 1 /\ countOf "80+" agg = 0 /\ JsObj.total agg = 2.
Proof.
  exact (@sql_group_by_age env_unreadable
           "SELECT * FROM ehr_records WHERE gender = 'Female' GROUP BY age"
           {| p_select := ["*"]; p_where := [("gender", "Female")];
              p_groupBy := Some "age"; p_limit := None |}
           "age" (warm [alice; bob; carol])
           eq_refl eq_refl (or_intror (or_intror eq_refl))).
Defined.

(** C3 fails as stated: a record of age 18 is counted under ["0-19"], the
    route's bucket, where the statistics bucketing of the data service puts
    it under ["18-29"]. *)
Lemma sql_group_by_age_uses_route_buckets :
  let resp := fst (executeSQLQuery env_unreadable
                     {| query := "SELECT * FROM ehr_records GROUP BY age" |}
                     (warm [alice])) in
  responseAggregations resp = Some [("0-19", 1)] /\
  EhrDataService.getAgeGroup (age alice) = "18-29" /\
  responseAggregations resp
  <> Some (fold_left (fun agg r => JsObj.bump (EhrDataService.getAgeGroup (age r)) agg)
                     [alice] JsObj.empty).
Proof.
  vm_compute. repeat split. discriminate.
Qed.

End GroupFacts.

(** ** Monotonicity of the filters *)

Module FilterFacts.
Import JsString QueryRoute EhrDataService Props Samples.

Lemma filter_filter (A : Type) (f g : A -> bool) (l : list A) :
  filter g (filter f l) = filter (fun x => f x && g x) l.
Proof.
  induction l as [|x l IH]; simpl; [reflexivity|].
  destruct (f x); simpl; [destruct (g x)|]; rewrite IH; reflexivity.
Qed.

(** An optional stage of the chain is a filter by a predicate that holds
    when the option is absent. *)
Lemma stage_filter (A B : Type) (x : option B) (f : B -> A -> bool) (l : list A) :
  match x with Some v => filter (f v) l | None => l end
  = filter (fun r => match x with Some v => f v r | None => true end) l.
Proof.
  destruct x; [reflexivity|]. symmetry. apply filter_true.
Qed.

Lemma searchFiltered_keeps o rs : searchFiltered o rs = filter (keeps o) rs.
Proof.
  unfold searchFiltered. cbn zeta.
  rewrite (stage_filter (present (o_diagnosis o))
             (fun d r => some_includes (map diagnosis (pastVisits r)) (toLowerCase d))).
  rewrite (stage_filter (present (o_gender o))
             (fun g r => String.eqb (toLowerCase (gender r)) (toLowerCase g))).
  rewrite (stage_filter (o_ageMax o) (fun a r => (age r <=? a)%Z)).
  rewrite (stage_filter (o_ageMin o) (fun a r => (a <=? age r)%Z)).
  rewrite (stage_filter (present (o_region o))
             (fun g r => includes (toLowerCase (region r)) (toLowerCase g))).
  rewrite (stage_filter (present (o_medication o))
             (fun m r => some_includes (medicationHistory r) (toLowerCase m))).
  rewrite (stage_filter (present (o_condition o))
             (fun c r => some_includes (symptoms r) (toLowerCase c))).
  rewrite !filter_filter. apply filter_ext. intros r. unfold keeps.
  rewrite !andb_assoc. reflexivity.
Qed.

Lemma filter_length_mono (A : Type) (f g : A -> bool) (l : list A) :
  (forall x, f x = true -> g x = true) ->
  length (filter f l) <= length (filter g l).
Proof.
  intros H. induction l as [|x l IH]; simpl; [lia|].
  destruct (f x) eqn:E.
  - rewrite (H x E). simpl. lia.
  - destruct (g x); simpl; lia.
Qed.

Lemma filter_incl_mono (A : Type) (f g : A -> bool) (l : list A) :
  (forall x, f x = true -> g x = true) ->
  incl (filter f l) (filter g l).
Proof.
  intros H x Hin. apply filter_In in Hin. apply filter_In.
  split; [tauto|]. apply H. tauto.
Qed.

Lemma keeps_mono o o' r :
  addsPredicates o o' -> keeps o' r = true -> keeps o r = true.
Proof.
  intros (Hc & Hm & Hr & Hlo & Hhi & Hg & Hd & _). unfold keeps.
  rewrite !andb_true_iff. intros ((((((K1 & K2) & K3) & K4) & K5) & K6) & K7).
  repeat split.
  - destruct Hc as [E|E]; [rewrite E; reflexivity | rewrite <- E; exact K1].
  - destruct Hm as [E|E]; [rewrite E; reflexivity | rewrite <- E; exact K2].
  - destruct Hr as [E|E]; [rewrite E; reflexivity | rewrite <- E; exact K3].
  - destruct Hlo as [E|E]; [rewrite E; reflexivity | rewrite <- E; exact K4].
  - destruct Hhi as [E|E]; [rewrite E; reflexivity | rewrite <- E; exact K5].
  - destruct Hg as [E|E]; [rewrite E; reflexivity | rewrite <- E; exact K6].
  - destruct Hd as [E|E]; [rewrite E; reflexivity | rewrite <- E; exact K7].
Qed.

Lemma length_slice0_mono (A : Type) (l l' : list A) (limit : Z) :
  length l' <= length l -> length (slice0 l' limit) <= length (slice0 l limit).
Proof.
  intros H. unfold slice0. destruct (0 <=? limit)%Z; rewrite !length_firstn; lia.
Qed.

(** C7: with further predicates, the records that pass [searchRecords]'s
    filters are among those that passed before, in no greater number, on
    every list of records; the slice [searchRecords] returns and the
    [totalMatched] of the filter response do not grow either. *)
Theorem filter_monotone env h rs o o' :
  addsPredicates o o' ->
  incl (searchFiltered o' rs) (searchFiltered o rs) /\
  length (searchFiltered o' rs) <= length (searchFiltered o rs) /\
  length (fst (searchRecords env o' h)) <= length (fst (searchRecords env o h)) /\
  forall request request',
    searchOptionsOf request = o -> searchOptionsOf request' = o' ->
    exists n n',
      responseTotalMatched (fst (executeFilterQuery env request h)) = Some n /\
      responseTotalMatched (fst (executeFilterQuery env request' h)) = Some n' /\
      n' <= n.
Proof.
  intros Hadd.
  assert (Hlen : forall l,
             length (searchFiltered o' l) <= length (searchFiltered o l)).
  { intros l. rewrite !searchFiltered_keeps. apply filter_length_mono.
    intros r. apply keeps_mono, Hadd. }
  assert (Hlim : o_limit o' = o_limit o) by apply Hadd.
  split; [|split; [|split]].
  - rewrite !searchFiltered_keeps. apply filter_incl_mono.
    intros r. apply keeps_mono, Hadd.
  - apply Hlen.
  - unfold searchRecords, bind, ret.
    destruct (loadEHRData env h) as [l h']. simpl.
    rewrite Hlim. apply length_slice0_mono, Hlen.
  - intros request request' Ho Ho'.
    rewrite !RouteFacts.executeFilterQuery_eq. cbn zeta.
    rewrite Ho, Ho'. unfold responseTotalMatched. simpl.
    do 2 eexists. split; [reflexivity|]. split; [reflexivity|].
    rewrite Hlim. apply length_slice0_mono, Hlen.
Qed.

Lemma filter_monotone_witness :
  let o := searchOptionsOf {| filters := noFilters; limit := None |} in
  let o' := searchOptionsOf (withGender {| filters := noFilters; limit := None |}
                                        (Some "Female")) in
  let rs := [alice; bob; carol] in
  searchFiltered o rs = [alice; bob; carol] /\
  searchFiltered o' rs = [alice; carol] /\
  incl (searchFiltered o' rs) (searchFiltered o rs) /\
  length (searchFiltered o' rs) <= length (searchFiltered o rs).
Proof.
  split; [reflexivity|]. split; [reflexivity|].
  pose proof (@filter_monotone env_unreadable (warm [alice; bob; carol])
                [alice; bob; carol]
                (searchOptionsOf {| filters := noFilters; limit := None |})
                (searchOptionsOf (withGender {| filters := noFilters; limit := None |}
                                             (Some "Female")))) as H.
  destruct H as (H1 & H2 & _).
  - unfold addsPredicates, addsTo, addsStringTo. simpl. repeat split; auto.
  - split; [exact H1 | exact H2].
Defined.

End FilterFacts.

(** ** The matcher *)

Module RegexFacts.
Import JsString Regex.

(** Whatever the matcher answers, its continuation answered, on an input no
    longer than the given one and with captures that extend the given ones. *)
Lemma star_loop_answer body g k res :
  (forall s c k', body s c k' = Some res ->
                  exists s' c', k' s' c' = Some res /\ extends c c' /\
                                String.length s' <= String.length s) ->
  forall fuel s c,
    star_loop body g k fuel s c = Some res ->
    exists s' c', k s' c' = Some res /\ extends c c' /\
                  String.length s' <= String.length s.
Proof.
  intros Hbody. induction fuel as [|fuel IH]; intros s c H.
  - simpl in H. destruct g; destruct (k s c) eqn:E; try discriminate;
      exists s, c; repeat split; try congruence; try lia; intros n Hn; exact Hn.
  - simpl in H.
    assert (Hagain :
      body s c (fun s' c' => if String.length s' <? String.length s
                             then star_loop body g k fuel s' c' else None) = Some res ->
      exists s' c', k s' c' = Some res /\ extends c c' /\
                    String.length s' <= String.length s).
    { intros Hb. apply Hbody in Hb. destruct Hb as (s1 & c1 & H1 & E1 & L1).
      destruct (String.length s1 <? String.length s); [|discriminate].
      apply IH in H1. destruct H1 as (s2 & c2 & H2 & E2 & L2).
      exists s2, c2. split; [exact H2|]. split; [|lia].
      intros n Hn. apply E2, E1, Hn. }
    destruct g.
    + destruct (body s c _) eqn:Eb.
      * inversion H; subst. apply Hagain. reflexivity.
      * exists s, c. repeat split; [exact H | | lia]. intros n Hn; exact Hn.
    + destruct (k s c) eqn:Ek.
      * inversion H; subst. exists s, c.
        repeat split; [exact Ek | | lia]. intros n Hn; exact Hn.
      * apply Hagain. exact H.
Qed.

Lemma rmatch_answer r : forall s c k res,
  rmatch r s c k = Some res ->
  exists s' c', k s' c' = Some res /\ extends c c' /\
                String.length s' <= String.length s /\
                forall n, binds n r = true -> cap_get n c' <> None.
Proof.
  induction r as [p| | |a IHa b IHb|a IHa b IHb|g a IHa|m a IHa];
    intros s c k res H; simpl in H.
  - destruct s as [|x s]; [discriminate|]. destruct (p x); [|discriminate].
    exists s, c. repeat split; auto; [intros n Hn; exact Hn | simpl; lia | discriminate].
  - exists s, c. repeat split; auto; [intros n Hn; exact Hn | discriminate].
  - destruct s; [|discriminate].
    exists EmptyString, c. repeat split; auto; [intros n Hn; exact Hn | discriminate].
  - apply IHa in H. destruct H as (s1 & c1 & H1 & E1 & L1 & B1).
    apply IHb in H1. destruct H1 as (s2 & c2 & H2 & E2 & L2 & B2).
    exists s2, c2. split; [exact H2|]. split; [|split; [lia|]].
    + intros n Hn. apply E2, E1, Hn.
    + intros n Hn. simpl in Hn. apply orb_true_iff in Hn.
      destruct Hn as [Hn|Hn]; [apply E2, B1, Hn | apply B2, Hn].
  - destruct (rmatch a s c k) eqn:Ea.
    + inversion H; subst. apply IHa in Ea.
      destruct Ea as (s1 & c1 & H1 & E1 & L1 & B1).
      exists s1, c1. repeat split; auto. intros n Hn. simpl in Hn.
      apply andb_true_iff in Hn. apply B1, Hn.
    + apply IHb in H. destruct H as (s1 & c1 & H1 & E1 & L1 & B1).
      exists s1, c1. repeat split; auto. intros n Hn. simpl in Hn.
      apply andb_true_iff in Hn. apply B1, Hn.
  - apply star_loop_answer in H.
    + destruct H as (s1 & c1 & H1 & E1 & L1). exists s1, c1.
      repeat split; auto. discriminate.
    + intros s0 c0 k' Hb. apply IHa in Hb.
      destruct Hb as (s1 & c1 & H1 & E1 & L1 & _).
      exists s1, c1. repeat split; assumption.
  - apply IHa in H. destruct H as (s1 & c1 & H1 & E1 & L1 & B1).
    eexists s1, _. split; [exact H1|]. split; [|split; [exact L1|]].
    + intros n Hn. simpl. destruct (Nat.eqb n m); [discriminate | apply E1, Hn].
    + intros n Hn. simpl in Hn. simpl. destruct (Nat.eqb n m); [discriminate|].
      simpl in Hn. apply B1, Hn.
Qed.

(** What [exec_at] leaves is no longer than what it was given. *)
Lemma exec_at_shrinks r s c rest :
  exec_at r s = Some (c, rest) -> String.length rest <= String.length s.
Proof.
  unfold exec_at. intros H. apply rmatch_answer in H.
  destruct H as (s' & c' & H & _ & L & _). inversion H; subst. exact L.
Qed.

Lemma search_binds r n : forall s m,
  search r s = Some m -> binds n r = true -> cap_get n (groups m) <> None.
Proof.
  induction s as [|x s IH]; intros m H Hb; simpl in H.
  - destruct (exec_at r EmptyString) as [[c rest]|] eqn:E; [|discriminate].
    inversion H; subst. simpl. unfold exec_at in E.
    apply rmatch_answer in E. destruct E as (s1 & c1 & H1 & _ & _ & B1).
    inversion H1; subst. apply B1, Hb.
  - destruct (exec_at r (String x s)) as [[c rest]|] eqn:E.
    + inversion H; subst. simpl. unfold exec_at in E.
      apply rmatch_answer in E. destruct E as (s1 & c1 & H1 & _ & _ & B1).
      inversion H1; subst. apply B1, Hb.
    + destruct (search r s) as [f|] eqn:Es; [|discriminate].
      inversion H; subst. simpl. apply IH; auto.
Qed.

Lemma search_shrinks r : forall s m,
  search r s = Some m -> String.length (after m) <= String.length s.
Proof.
  induction s as [|x s IH]; intros m H; simpl in H.
  - destruct (exec_at r EmptyString) as [[c rest]|] eqn:E; [|discriminate].
    inversion H; subst. simpl. apply (exec_at_shrinks _ _ E).
  - destruct (exec_at r (String x s)) as [[c rest]|] eqn:E.
    + inversion H; subst. simpl. apply (exec_at_shrinks _ _ E).
    + destruct (search r s) as [f|] eqn:Es; [|discriminate].
      inversion H; subst. simpl. specialize (IH f eq_refl). lia.
Qed.

(** [split] never runs out of fuel. *)
Lemma split_go_more_fuel r : forall fuel piece s,
  2 * String.length s + (if truthy piece then 1 else 0) <= fuel ->
  split_go (S fuel) r piece s = split_go fuel r piece s.
Proof.
  induction fuel as [|fuel IH]; intros piece s Hlen.
  - destruct s as [|x s]; [|simpl in Hlen; lia].
    destruct piece; [reflexivity | simpl in Hlen; lia].
  - destruct s as [|x s]; [reflexivity|].
    change (split_go (S (S fuel)) r piece (String x s))
      with (match exec_at r (String x s) with
            | Some (_, rest) =>
                if (String.length rest =? String.length (String x s))
                   && negb (truthy piece)
                then split_go (S fuel) r (piece ++ String x EmptyString)%string s
                else piece :: split_go (S fuel) r EmptyString rest
            | None => split_go (S fuel) r (piece ++ String x EmptyString)%string s
            end).
    change (split_go (S fuel) r piece (String x s))
      with (match exec_at r (String x s) with
            | Some (_, rest) =>
                if (String.length rest =? String.length (String x s))
                   && negb (truthy piece)
                then split_go fuel r (piece ++ String x EmptyString)%string s
                else piece :: split_go fuel r EmptyString rest
            | None => split_go fuel r (piece ++ String x EmptyString)%string s
            end).
    assert (Hstep : split_go (S fuel) r (piece ++ String x EmptyString)%string s
                    = split_go fuel r (piece ++ String x EmptyString)%string s).
    { apply IH. simpl in Hlen.
      destruct (truthy (piece ++ String x EmptyString)); lia. }
    destruct (exec_at r (String x s)) as [[c rest]|] eqn:E; [|exact Hstep].
    pose proof (exec_at_shrinks _ _ E) as Hrest.
    destruct (String.length rest =? String.length (String x s)) eqn:El;
      destruct (truthy piece) eqn:Ep; simpl; try exact Hstep;
      f_equal; apply IH; simpl in *;
      rewrite ?Nat.eqb_eq, ?Nat.eqb_neq in El; lia.
Qed.

Lemma split_fuel_enough r x s : forall fuel,
  S (2 * String.length (String x s)) <= fuel ->
  split_go fuel r EmptyString (String x s) = split r (String x s).
Proof.
  unfold split. induction fuel as [|fuel IH]; intros Hlen; [lia|].
  destruct (Nat.eq_dec (S (2 * String.length (String x s))) (S fuel)) as [E|E].
  - rewrite E. reflexivity.
  - rewrite split_go_more_fuel by (simpl in *; lia). apply IH. lia.
Qed.

Lemma take_nonempty n s : truthy (take n s) = true -> 0 < n.
Proof.
  destruct n; [discriminate | lia].
Qed.

(** A match that is not empty leaves strictly less input. *)
Lemma search_consumes r : forall s m,
  search r s = Some m -> truthy (matched m) = true ->
  String.length (after m) < String.length s.
Proof.
  induction s as [|x s IH]; intros m H Hne; simpl in H.
  - destruct (exec_at r EmptyString) as [[c rest]|]; [|discriminate].
    inversion H; subst. simpl in Hne. destruct (0 - String.length rest); discriminate.
  - destruct (exec_at r (String x s)) as [[c rest]|] eqn:E.
    + inversion H; subst. cbn [matched after] in *.
      pose proof (exec_at_shrinks _ _ E) as Hle.
      apply take_nonempty in Hne. simpl in Hle |- *.
      destruct (String.length rest); lia.
    + destruct (search r s) as [f|] eqn:Es; [|discriminate].
      inversion H; subst. cbn [matched after] in *.
      specialize (IH f eq_refl Hne). simpl. lia.
Qed.

(** The global match never runs out of fuel. *)
Lemma match_all_go_more_fuel r : forall fuel s,
  String.length s < fuel ->
  match_all_go (S fuel) r s = match_all_go fuel r s.
Proof.
  induction fuel as [|fuel IH]; intros s Hlen; [lia|].
  change (match_all_go (S (S fuel)) r s)
    with (match search r s with
          | None => []
          | Some f =>
              matched f ::
              match matched f, after f with
              | EmptyString, String _ rest => match_all_go (S fuel) r rest
              | EmptyString, EmptyString => []
              | _, rest => match_all_go (S fuel) r rest
              end
          end).
  change (match_all_go (S fuel) r s)
    with (match search r s with
          | None => []
          | Some f =>
              matched f ::
              match matched f, after f with
              | EmptyString, String _ rest => match_all_go fuel r rest
              | EmptyString, EmptyString => []
              | _, rest => match_all_go fuel r rest
              end
          end).
  destruct (search r s) as [f|] eqn:E; [|reflexivity].
  pose proof (search_shrinks _ _ E) as Hle.
  pose proof (search_consumes _ _ E) as Hlt.
  f_equal. destruct (matched f) as [|y w].
  - destruct (after f) as [|z rest]; [reflexivity|]. apply IH. simpl in Hle. lia.
  - apply IH. specialize (Hlt eq_refl). lia.
Qed.

Lemma match_all_fuel_enough r s : forall fuel,
  String.length s < fuel -> match_all_go fuel r s = match_all r s.
Proof.
  unfold match_all. induction fuel as [|fuel IH]; intros Hlen; [lia|].
  destruct (Nat.eq_dec (String.length s) fuel) as [E|E].
  - rewrite E. reflexivity.
  - rewrite match_all_go_more_fuel by lia. apply IH. lia.
Qed.

(** A continuation that always fails makes the matcher fail. *)
Lemma rmatch_none r s c k :
  (forall s' c', k s' c' = None) -> rmatch r s c k = None.
Proof.
  intros Hk. destruct (rmatch r s c k) as [res|] eqn:E; [|reflexivity].
  apply rmatch_answer in E. destruct E as (s' & c' & H & _).
  rewrite Hk in H. discriminate.
Qed.

Lemma star_loop_ext body g k1 k2 :
  (forall s c ka kb, (forall s' c', ka s' c' = kb s' c') -> body s c ka = body s c kb) ->
  (forall s' c', k1 s' c' = k2 s' c') ->
  forall fuel s c, star_loop body g k1 fuel s c = star_loop body g k2 fuel s c.
Proof.
  intros Hbody Hk. induction fuel as [|fuel IH]; intros s c; simpl.
  - rewrite Hk. reflexivity.
  - rewrite Hk.
    rewrite (Hbody s c _ (fun s' c' => if String.length s' <? String.length s
                                       then star_loop body g k2 fuel s' c' else None)).
    + reflexivity.
    + intros s' c'. destruct (String.length s' <? String.length s); auto.
Qed.

(** The matcher only looks at what its continuation answers. *)
Lemma rmatch_ext r : forall s c k1 k2,
  (forall s' c', k1 s' c' = k2 s' c') -> rmatch r s c k1 = rmatch r s c k2.
Proof.
  induction r as [p| | |a IHa b IHb|a IHa b IHb|g a IHa|m a IHa];
    intros s c k1 k2 Hk; simpl.
  - destruct s as [|x s]; [reflexivity|]. destruct (p x); auto.
  - apply Hk.
  - destruct s; auto.
  - apply IHa. intros s' c'. apply IHb, Hk.
  - rewrite (IHa s c k1 k2 Hk), (IHb s c k1 k2 Hk). reflexivity.
  - apply star_loop_ext; [|exact Hk]. intros s0 c0 ka kb Hab. apply IHa, Hab.
  - apply IHa. intros s' c'. apply Hk.
Qed.

(** One more unit of fuel than the length of the input changes nothing. *)
Lemma star_loop_more_fuel a g k : forall fuel s c,
  String.length s <= fuel ->
  star_loop (rmatch a) g k (S fuel) s c = star_loop (rmatch a) g k fuel s c.
Proof.
  induction fuel as [|fuel IH]; intros s c Hlen.
  - destruct s as [|x s]; [|simpl in Hlen; lia].
    simpl. rewrite rmatch_none by reflexivity.
    destruct g; [reflexivity|]. destruct (k EmptyString c); reflexivity.
  - change (star_loop (rmatch a) g k (S (S fuel)) s c)
      with (let again (_ : unit) :=
              rmatch a s c (fun s' c' =>
                if String.length s' <? String.length s
                then star_loop (rmatch a) g k (S fuel) s' c' else None) in
            if g then match again tt with Some r => Some r | None => k s c end
            else match k s c with Some r => Some r | None => again tt end).
    change (star_loop (rmatch a) g k (S fuel) s c)
      with (let again (_ : unit) :=
              rmatch a s c (fun s' c' =>
                if String.length s' <? String.length s
                then star_loop (rmatch a) g k fuel s' c' else None) in
            if g then match again tt with Some r => Some r | None => k s c end
            else match k s c with Some r => Some r | None => again tt end).
    cbn zeta.
    rewrite (rmatch_ext a s c _
               (fun s' c' => if String.length s' <? String.length s
                             then star_loop (rmatch a) g k fuel s' c' else None)).
    + reflexivity.
    + intros s' c'. destruct (String.length s' <? String.length s) eqn:E; [|reflexivity].
      apply Nat.ltb_lt in E. apply IH. lia.
Qed.

(** The repetition is matched the same with any fuel that covers the input:
    running out of fuel is never what makes a match fail. *)
Lemma star_fuel_enough a g k s c : forall fuel,
  String.length s <= fuel ->
  star_loop (rmatch a) g k fuel s c = rmatch (RStar g a) s c k.
Proof.
  simpl. induction fuel as [|fuel IH]; intros Hlen.
  - replace (String.length s) with 0 by lia. reflexivity.
  - destruct (Nat.eq_dec (String.length s) (S fuel)) as [E|E].
    + rewrite E. reflexivity.
    + rewrite star_loop_more_fuel by lia. apply IH. lia.
Qed.

End RegexFacts.

(** ** The parser of textual queries *)

Module ParserFacts.
Import JsString Regex QueryRoute Props Samples RegexFacts.

Lemma group_ok r n s m :
  search r s = Some m -> binds n r = true -> exists v, group m n = Ok v.
Proof.
  intros H Hb. pose proof (search_binds r n s H Hb) as Hn.
  unfold group. destruct (cap_get n (groups m)) as [v|]; [|congruence].
  exists v. reflexivity.
Qed.

Lemma parseCondition_total res condition :
  exists res', parseCondition res condition = Ok res'.
Proof.
  unfold parseCondition.
  destruct (search eqRe condition) as [m|] eqn:Eeq.
  - destruct (group_ok eqRe 1 condition Eeq eq_refl) as [k Hk].
    destruct (group_ok eqRe 2 condition Eeq eq_refl) as [v Hv].
    rewrite Hk, Hv. simpl.
    destruct (search likeRe condition) as [m'|] eqn:Elike; [|eauto].
    destruct (group_ok likeRe 1 condition Elike eq_refl) as [k' Hk'].
    destruct (group_ok likeRe 2 condition Elike eq_refl) as [v' Hv'].
    rewrite Hk', Hv'. simpl. eauto.
  - simpl.
    destruct (search likeRe condition) as [m'|] eqn:Elike; [|eauto].
    destruct (group_ok likeRe 1 condition Elike eq_refl) as [k' Hk'].
    destruct (group_ok likeRe 2 condition Elike eq_refl) as [v' Hv'].
    rewrite Hk', Hv'. simpl. eauto.
Qed.

(** A condition of neither shape leaves the plan as it is. *)
Lemma unrecognised_condition_dropped res condition :
  search eqRe condition = None -> search likeRe condition = None ->
  parseCondition res condition = Ok res.
Proof.
  intros Heq Hlike. unfold parseCondition. rewrite Heq. simpl.
  rewrite Hlike. reflexivity.
Qed.

Lemma parseConditions_total (conditions : list string) : forall res,
  exists res',
    fold_left (fun acc condition => res <~ acc ;; parseCondition res condition)
              conditions (Ok res) = Ok res'.
Proof.
  induction conditions as [|c cs IH]; intros res; simpl; [eauto|].
  destruct (parseCondition_total res c) as [res1 H1]. rewrite H1. apply IH.
Qed.

Lemma parseSimpleSQL_total query : exists plan, parseSimpleSQL query = Ok plan.
Proof.
  unfold parseSimpleSQL. set (q := trim query).
  assert (H1 : exists r1,
    match search selectRe q with
    | Some selectMatch =>
        fields <~ group selectMatch 1 ;;
        Ok (with_select defaultPlan (map trim (split_on "," fields)))
    | None => Ok defaultPlan
    end = Ok r1).
  { destruct (search selectRe q) as [m|] eqn:E; [|eauto].
    destruct (group_ok selectRe 1 q E eq_refl) as [v Hv]. rewrite Hv. simpl. eauto. }
  destruct H1 as [r1 ->]. simpl.
  assert (H2 : exists r2,
    match search whereRe q with
    | Some whereMatch =>
        clause <~ group whereMatch 1 ;;
        fold_left (fun acc condition => res <~ acc ;; parseCondition res condition)
                  (split andRe clause) (Ok r1)
    | None => Ok r1
    end = Ok r2).
  { destruct (search whereRe q) as [m|] eqn:E; [|eauto].
    destruct (group_ok whereRe 1 q E eq_refl) as [v Hv]. rewrite Hv. simpl.
    apply parseConditions_total. }
  destruct H2 as [r2 ->]. simpl.
  assert (H3 : exists r3,
    match search groupRe q with
    | Some groupMatch =>
        g <~ group groupMatch 1 ;; Ok (with_groupBy r2 (toLowerCase g))
    | None => Ok r2
    end = Ok r3).
  { destruct (search groupRe q) as [m|] eqn:E; [|eauto].
    destruct (group_ok groupRe 1 q E eq_refl) as [v Hv]. rewrite Hv. simpl. eauto. }
  destruct H3 as [r3 ->]. simpl.
  destruct (search limitRe q) as [m|] eqn:E; [|eauto].
  destruct (group_ok limitRe 1 q E eq_refl) as [v Hv]. rewrite Hv. simpl. eauto.
Qed.

Lemma trimStart_blank s : blank s = true -> trimStart s = EmptyString.
Proof.
  induction s as [|c s IH]; simpl; [reflexivity|].
  intros H. apply andb_true_iff in H. destruct H as [Hc Hs].
  rewrite Hc. apply IH, Hs.
Qed.

(** C8: on every string the parser returns a plan, without raising; on a
    string of white space only (the empty one included) the plan is the
    default one: select [*], no predicate, no group-by, no limit. *)
Theorem parser_total_and_blank_default query :
  (exists plan, parseSimpleSQL query = Ok plan) /\
  (blank query = true ->
   parseSimpleSQL query
   = Ok {| p_select := ["*"]; p_where := JsObj.empty;
           p_groupBy := None; p_limit := None |}).
Proof.
  split; [apply parseSimpleSQL_total|].
  intros Hb. unfold parseSimpleSQL, trim.
  rewrite (trimStart_blank query Hb). reflexivity.
Qed.

Lemma parser_total_and_blank_default_witness :
  let q := String " " (String (ascii_of_nat 9) (String (ascii_of_nat 10) " ")) in
  blank q = true /\
  parseSimpleSQL q
  = Ok {| p_select := ["*"]; p_where := JsObj.empty;
          p_groupBy := None; p_limit := None |}.
Proof.
  split; [reflexivity|].
  apply (proj2 (parser_total_and_blank_default
                  (String " " (String (ascii_of_nat 9) (String (ascii_of_nat 10) " "))))).
  reflexivity.
Defined.

(** C4 does not hold on the LIKE shape: the pattern ['%abet%'] is stored as
    [abet%], the trailing [%] kept, so a record with the conditions Diabetes
    and Hypertension is not matched; the equality shape does match it, and a
    condition of neither shape is dropped. *)
Theorem like_keeps_trailing_percent :
  let like := "SELECT * FROM ehr_records WHERE condition LIKE '%abet%'" in
  let eq := "SELECT * FROM ehr_records WHERE condition = 'Diabetes'" in
  let run q := fst (executeSQLQuery env_unreadable {| query := q |} (warm [alice])) in
  symptoms alice = ["Diabetes"; "Hypertension"] /\
  parseSimpleSQL like
  = Ok {| p_select := ["*"]; p_where := [("condition", "abet%")];
          p_groupBy := None; p_limit := None |} /\
  responseRecords (run like) = Some [] /\
  responseTotalMatched (run like) = Some 0 /\
  parseSimpleSQL eq
  = Ok {| p_select := ["*"]; p_where := [("condition", "Diabetes")];
          p_groupBy := None; p_limit := None |} /\
  responseRecords (run eq) = Some [alice] /\
  parseSimpleSQL "SELECT * FROM ehr_records WHERE condition <> 'Diabetes'"
  = Ok defaultPlan.
Proof.
  vm_compute. repeat split.
Qed.

End ParserFacts.

(** ** The cache *)

Module CacheFacts.
Import JsString QueryRoute EhrDataService Props Samples RouteFacts.

(** Unfolds the monadic plumbing of the cache functions. *)
Ltac run :=
  unfold getEHRStatistics, statsFresh, loadEHRData, recordsFresh, timestamp_fresh,
    bind, ret, read, Date_now, fs_readFile, console_error,
    set_cachedRecords, set_cachedStats, set_cacheTimestamp;
  simpl.

(** Splits on every test the cache functions make. *)
Ltac cases :=
  repeat match goal with
         | |- context [match ?x with _ => _ end] =>
             lazymatch x with
             | context [match _ with _ => _ end] => fail
             | _ => destruct x eqn:?; simpl
             end
         end.

Lemma timestamp_fresh_frame env ts h :
  let h' := snd (timestamp_fresh env ts h) in
  cacheOf h' = cacheOf h /\ fsReads h' = fsReads h /\ console h' = console h /\
  nowCalls h <= nowCalls h'.
Proof.
  run. cases; repeat split; auto.
Qed.

Lemma timestamp_fresh_false env ts h :
  fst (timestamp_fresh env ts h) = false ->
  ts = None \/ ts = Some 0%Z \/
  exists t, ts = Some t /\ nowCalls (snd (timestamp_fresh env ts h)) = S (nowCalls h) /\
            (CACHE_TTL_MS <= date_now env (nowCalls h) - t)%Z.
Proof.
  run. cases; auto.
  - apply Z.eqb_eq in Heqb. subst. auto.
  - intros H. apply Z.ltb_ge in H. right. right. eauto.
Qed.

Lemma timestamp_fresh_true env ts h :
  fst (timestamp_fresh env ts h) = true ->
  exists t, ts = Some t /\ t <> 0%Z /\
            (date_now env (nowCalls h) - t < CACHE_TTL_MS)%Z.
Proof.
  run. cases; try discriminate.
  intros H. apply Z.ltb_lt in H. apply Z.eqb_neq in Heqb. eauto.
Qed.

Lemma recordsFresh_frame env h :
  let h' := snd (recordsFresh env h) in
  cacheOf h' = cacheOf h /\ fsReads h' = fsReads h /\ console h' = console h /\
  nowCalls h <= nowCalls h'.
Proof.
  unfold recordsFresh, bind, read. destruct (cachedRecords h).
  - apply timestamp_fresh_frame.
  - simpl. auto.
Qed.

Lemma statsFresh_frame env h :
  let h' := snd (statsFresh env h) in
  cacheOf h' = cacheOf h /\ fsReads h' = fsReads h /\ console h' = console h /\
  nowCalls h <= nowCalls h'.
Proof.
  unfold statsFresh, bind, read. destruct (cachedStats h).
  - apply timestamp_fresh_frame.
  - simpl. auto.
Qed.

(** The three ways [loadEHRData] can go. *)
Lemma loadEHRData_cases env h :
  let rs := fst (loadEHRData env h) in
  let h' := snd (loadEHRData env h) in
  nowCalls h <= nowCalls h' /\
  ((fst (recordsFresh env h) = true /\ cachedRecords h = Some rs /\
    cacheOf h' = cacheOf h /\ fsReads h' = fsReads h /\ console h' = console h)
   \/
   (fst (recordsFresh env h) = false /\
    exists content,
      read_file env (fsReads h) = Some content /\ rs = parseContent content /\
      cachedRecords h' = Some rs /\ cachedStats h' = None /\
      fsReads h' = S (fsReads h) /\ console h' = console h)
   \/
   (fst (recordsFresh env h) = false /\ read_file env (fsReads h) = None /\
    rs = [] /\ cacheOf h' = cacheOf h /\ fsReads h' = S (fsReads h) /\
    console h' = console h ++ ["Failed to load EHR data:"])).
Proof.
  destruct h as [cr cs ts nc fr co]. run. unfold cacheOf. simpl.
  destruct cr as [l|]; simpl;
    [destruct ts as [t|]; simpl;
     [destruct (t =? 0)%Z; simpl;
      [|destruct (date_now env nc - t <? CACHE_TTL_MS)%Z; simpl]|]|];
    try (split; [lia | left; repeat split; reflexivity]);
    destruct (read_file env fr) as [content|]; simpl;
    (split; [lia|]); right;
    solve [ left; split; [reflexivity|]; exists content; repeat split; reflexivity
          | right; repeat split; reflexivity ].
Qed.

(** The two ways [getEHRStatistics] can go. *)
Lemma getEHRStatistics_cases env h :
  let st := fst (getEHRStatistics env h) in
  let h' := snd (getEHRStatistics env h) in
  (fst (statsFresh env h) = true /\ cachedStats h = Some st /\
   h' = snd (statsFresh env h))
  \/
  (fst (statsFresh env h) = false /\
   let h1 := snd (statsFresh env h) in
   let rs := fst (loadEHRData env h1) in
   let h2 := snd (loadEHRData env h1) in
   st = computeStatistics rs (date_now env (nowCalls h2)) /\
   cachedStats h' = Some st /\ cachedRecords h' = cachedRecords h2 /\
   cacheTimestamp h' = cacheTimestamp h2 /\ fsReads h' = fsReads h2 /\
   console h' = console h2 /\ nowCalls h' = S (nowCalls h2)).
Proof.
  unfold getEHRStatistics, bind.
  destruct (statsFresh env h) as [hit h1] eqn:E1.
  assert (Hcs : cachedStats h1 = cachedStats h).
  { pose proof (statsFresh_frame env h) as (Hc & _). rewrite E1 in Hc.
    unfold cacheOf in Hc. simpl in Hc. congruence. }
  assert (Hhit : hit = true -> cachedStats h <> None).
  { intros ->. unfold statsFresh, bind, read in E1.
    destruct (cachedStats h); [discriminate|]. inversion E1. }
  unfold read. simpl. rewrite !Hcs.
  destruct (cachedStats h) as [st|] eqn:Est, hit; simpl.
  - left. repeat split; reflexivity.
  - right. split; [reflexivity|].
    destruct (loadEHRData env h1) as [rs h2]. simpl. repeat split; reflexivity.
  - exfalso. apply Hhit; reflexivity.
  - right. split; [reflexivity|].
    destruct (loadEHRData env h1) as [rs h2]. simpl. repeat split; reflexivity.
Qed.

Lemma lastUpdated_counted (rs : list EHRRecord) : forall st,
  lastUpdated (fold_left countRecord rs st) = lastUpdated st.
Proof.
  induction rs as [|r rs IH]; intros st; simpl; [reflexivity|].
  rewrite IH. reflexivity.
Qed.

Lemma computedFrom_computeStatistics rs now :
  computedFrom (computeStatistics rs now) rs.
Proof.
  unfold computedFrom. f_equal. unfold computeStatistics. simpl.
  rewrite lastUpdated_counted. reflexivity.
Qed.

Lemma expired_later env h h' :
  cacheTimestamp h' = cacheTimestamp h -> nowCalls h <= nowCalls h' ->
  expired env h -> expired env h'.
Proof.
  unfold expired. intros -> Hn. destruct (cacheTimestamp h) as [t|]; [|auto].
  intros [H|(i & Hi & H)]; [auto|]. right. exists i. split; [lia | exact H].
Qed.

(** Coherence only depends on the cache variables, and survives the passing
    of time. *)
Lemma coherent_frame env h h' :
  cacheOf h' = cacheOf h -> nowCalls h <= nowCalls h' ->
  coherent env h -> coherent env h'.
Proof.
  unfold cacheOf. intros Hc Hn [HA HB]. injection Hc as Hr Hs Ht.
  split.
  - rewrite Hr, Ht. exact HA.
  - intros st Hst. rewrite Hs in Hst. rewrite Hr.
    destruct (HB st Hst) as [H|H]; [left; exact H|].
    right. revert H. apply expired_later; assumption.
Qed.

Lemma coherent_Date_now env h : coherent env h -> coherent env (snd (Date_now env h)).
Proof.
  apply coherent_frame; simpl; [reflexivity | lia].
Qed.

Lemma coherent_load env h : coherent env h -> coherent env (snd (loadEHRData env h)).
Proof.
  intros Hc.
  destruct (loadEHRData_cases env h) as
    (Hn & [(_ & _ & Hf & _) | [(_ & c & _ & _ & Hr & Hs & _) | (_ & _ & _ & Hf & _)]]).
  - revert Hc. apply coherent_frame; assumption.
  - split; [rewrite Hr; discriminate | rewrite Hs; discriminate].
  - revert Hc. apply coherent_frame; assumption.
Qed.

(** A failed cache check of [loadEHRData] leaves an expired timestamp. *)
Lemma recordsFresh_false env h :
  coherent env h -> fst (recordsFresh env h) = false ->
  expired env (snd (recordsFresh env h)).
Proof.
  intros [HA HB]. unfold recordsFresh, bind, read.
  destruct (cachedRecords h) as [l|] eqn:Er.
  - simpl. intros Hf.
    pose proof (timestamp_fresh_frame env (cacheTimestamp h) h) as (Hc & _).
    unfold cacheOf in Hc. injection Hc as Hx0 Hx1 Ht.
    unfold expired. rewrite Ht.
    destruct (timestamp_fresh_false env (cacheTimestamp h) h Hf)
      as [E | [E | (t & E & Hn & Hold)]].
    + rewrite E. exact I.
    + rewrite E. left. reflexivity.
    + rewrite Hn, E. right. exists (nowCalls h). split; [lia | exact Hold].
  - intros _. simpl. unfold expired. rewrite HA; auto.
Qed.

Lemma coherent_stats env h :
  coherent env h -> coherent env (snd (getEHRStatistics env h)).
Proof.
  intros Hc.
  assert (Hc1 : coherent env (snd (statsFresh env h))).
  { pose proof (statsFresh_frame env h) as (Hf & _ & _ & Hn).
    revert Hc. apply coherent_frame; assumption. }
  destruct (getEHRStatistics_cases env h) as [(_ & _ & ->) | (_ & H)]; [exact Hc1|].
  cbn zeta in H. destruct H as (Hst & Hs & Hr & Ht & _ & _ & Hn).
  set (h1 := snd (statsFresh env h)) in *.
  pose proof (@coherent_load env h1 Hc1) as [HA2 _].
  split; [rewrite Hr, Ht; exact HA2|].
  intros st Est. rewrite Hs in Est. inversion Est; subst st; clear Est.
  rewrite Hst.
  destruct (loadEHRData_cases env h1) as
    (Hn1 & [(_ & Hhit & Hf & _) | [(_ & c & _ & _ & Hr2 & _) | (Hfalse & _ & _ & Hf & _)]]).
  - left. exists (fst (loadEHRData env h1)). split.
    + rewrite Hr. unfold cacheOf in Hf. injection Hf as Hr1 Hx1 Hx2.
      rewrite Hr1. exact Hhit.
    + apply computedFrom_computeStatistics.
  - left. exists (fst (loadEHRData env h1)). split.
    + rewrite Hr. exact Hr2.
    + apply computedFrom_computeStatistics.
  - right. pose proof (@recordsFresh_false env h1 Hc1 Hfalse) as Hexp.
    pose proof (recordsFresh_frame env h1) as (Hf1 & _ & _ & Hn0).
    unfold cacheOf in Hf, Hf1. injection Hf as Hx0 Hx1 Ht2.
    injection Hf1 as Hy0 Hy1 Ht1.
    revert Hexp. apply expired_later.
    + rewrite Ht, Ht2, Ht1. reflexivity.
    + rewrite Hn.
      assert (nowCalls (snd (recordsFresh env h1))
              <= nowCalls (snd (loadEHRData env h1))).
      { unfold loadEHRData, bind. destruct (recordsFresh env h1) as [hit h1'].
        simpl. unfold read. destruct (cachedRecords h1'), hit; simpl; try lia;
          unfold fs_readFile; simpl; destruct (read_file env (fsReads h1')); simpl; lia. }
      lia.
Qed.

Lemma reachable_coherent env h : reachable env h -> coherent env h.
Proof.
  induction 1.
  - split; simpl; [reflexivity | discriminate].
  - apply coherent_load. assumption.
  - apply coherent_stats. assumption.
  - apply coherent_Date_now. assumption.
Qed.

End CacheFacts.

(** ** Coherence of records and statistics *)

Module CoherenceFacts.
Import JsString QueryRoute EhrDataService Props Samples Lineage RouteFacts CacheFacts.

Lemma statsFresh_true env h :
  fst (statsFresh env h) = true ->
  exists t, cacheTimestamp h = Some t /\ t <> 0%Z /\
            (date_now env (nowCalls h) - t < CACHE_TTL_MS)%Z.
Proof.
  unfold statsFresh, bind, read. destruct (cachedStats h); simpl.
  - apply timestamp_fresh_true.
  - discriminate.
Qed.

Lemma fresh_not_expired env h :
  monotoneClock env -> fst (statsFresh env h) = true -> ~ expired env h.
Proof.
  intros Hmono Hfresh Hexp.
  destruct (statsFresh_true env h Hfresh) as (t & Ht & Hnz & Hlt).
  unfold expired in Hexp. rewrite Ht in Hexp.
  destruct Hexp as [H0 | (i & Hi & Hold)]; [contradiction|].
  assert (date_now env i <= date_now env (nowCalls h))%Z by (apply Hmono; lia).
  lia.
Qed.

Lemma stamped_frame env h h' :
  cacheTimestamp h' = cacheTimestamp h -> nowCalls h <= nowCalls h' ->
  stamped env h -> stamped env h'.
Proof.
  intros Ht Hn Hs t E. rewrite Ht in E. destruct (Hs t E) as (j & Hj & ->).
  exists j. split; [lia | reflexivity].
Qed.

Lemma stamped_load env h : stamped env h -> stamped env (snd (loadEHRData env h)).
Proof.
  destruct h as [cr cs ts nc fr co]. unfold stamped. run. intros Hs.
  destruct cr as [l|]; simpl;
    [destruct ts as [t|]; simpl;
     [destruct (t =? 0)%Z; simpl;
      [|destruct (date_now env nc - t <? CACHE_TTL_MS)%Z; simpl]|]|];
    try destruct (read_file env fr); simpl; intros t0 E;
    try (injection E as <-; eexists; split; [|reflexivity]; lia);
    destruct (Hs t0 E) as (j & Hj & ->); exists j; (split; [lia | reflexivity]).
Qed.

Lemma stamped_stats env h :
  stamped env h -> stamped env (snd (getEHRStatistics env h)).
Proof.
  intros Hs.
  pose proof (statsFresh_frame env h) as (Hk & _ & _ & Hn). cbn zeta in Hk, Hn.
  unfold cacheOf in Hk. injection Hk as _ _ Ht.
  assert (H1 : stamped env (snd (statsFresh env h)))
    by exact (@stamped_frame env h _ Ht Hn Hs).
  destruct (getEHRStatistics_cases env h) as [(_ & _ & ->) | (_ & H)];
    [exact H1|].
  cbn zeta in H. destruct H as (_ & _ & _ & Ht2 & _ & _ & Hn2).
  apply (@stamped_frame env (snd (loadEHRData env (snd (statsFresh env h)))));
    [exact Ht2 | lia | apply stamped_load; exact H1].
Qed.

Lemma reachable_stamped env h : reachable env h -> stamped env h.
Proof.
  induction 1 as [|h Hr IH|h Hr IH|h Hr IH].
  - intros t E. discriminate E.
  - apply stamped_load. exact IH.
  - apply stamped_stats. exact IH.
  - apply (@stamped_frame env h); [reflexivity | simpl; lia | exact IH].
Qed.

Lemma derived_frame env h h' :
  cacheOf h' = cacheOf h -> nowCalls h <= nowCalls h' ->
  derived env h -> derived env h'.
Proof.
  unfold cacheOf. intros Hk Hn Hd st E. injection Hk as Hr Hs Ht.
  rewrite Hs in E. destruct (Hd st E) as (i & Hi & Hl & Hc & Hj).
  exists i. rewrite Hr, Ht. repeat split; [lia | exact Hl | exact Hc | exact Hj].
Qed.

Lemma derived_load env h : derived env h -> derived env (snd (loadEHRData env h)).
Proof.
  intros Hd.
  destruct (loadEHRData_cases env h) as
    (Hn & [(_ & _ & Hk & _) | [(_ & c & _ & _ & _ & Hs & _) | (_ & _ & _ & Hk & _)]]).
  - exact (@derived_frame env h _ Hk Hn Hd).
  - intros st E. rewrite Hs in E. discriminate E.
  - exact (@derived_frame env h _ Hk Hn Hd).
Qed.

Lemma lastUpdated_computeStatistics rs now :
  lastUpdated (computeStatistics rs now) = now.
Proof.
  unfold computeStatistics. simpl. rewrite lastUpdated_counted. reflexivity.
Qed.

Lemma derived_stats env h :
  stamped env h -> derived env h -> derived env (snd (getEHRStatistics env h)).
Proof.
  intros Hs Hd.
  pose proof (statsFresh_frame env h) as (Hk & _ & _ & Hn). cbn zeta in Hk, Hn.
  assert (Hd1 : derived env (snd (statsFresh env h)))
    by exact (@derived_frame env h _ Hk Hn Hd).
  assert (Hs1 : stamped env (snd (statsFresh env h))).
  { unfold cacheOf in Hk. injection Hk as _ _ Ht.
    exact (@stamped_frame env h _ Ht Hn Hs). }
  destruct (getEHRStatistics_cases env h) as [(_ & _ & ->) | (_ & H)];
    [exact Hd1|].
  cbn zeta in H. destruct H as (Hst & Hcs & Hcr & Hct & _ & _ & Hnc).
  set (h1 := snd (statsFresh env h)) in *.
  set (h2 := snd (loadEHRData env h1)) in *.
  assert (Hs2 : stamped env h2) by (apply stamped_load; exact Hs1).
  intros st E. rewrite Hcs in E. injection E as <-.
  exists (nowCalls h2). rewrite Hnc, Hcr, Hct.
  split; [lia|]. split; [rewrite Hst; apply lastUpdated_computeStatistics|].
  split; [|exact Hs2].
  rewrite Hst.
  destruct (loadEHRData_cases env h1) as
    (_ & [(_ & Hr & Hk2 & _) | [(_ & c & _ & Hrs & Hr & _) | (_ & _ & Hrs & _)]]).
  - left. exists (fst (loadEHRData env h1)). split.
    + unfold cacheOf in Hk2. injection Hk2 as Hr2 _ _. fold h2 in Hr2.
      rewrite Hr2. exact Hr.
    + apply computedFrom_computeStatistics.
  - left. exists (fst (loadEHRData env h1)). split; [exact Hr|].
    apply computedFrom_computeStatistics.
  - right. rewrite Hrs. apply computedFrom_computeStatistics.
Qed.

Lemma reachable_derived env h : reachable env h -> derived env h.
Proof.
  induction 1 as [|h Hr IH|h Hr IH|h Hr IH].
  - intros st E. discriminate E.
  - apply derived_load. exact IH.
  - apply derived_stats; [apply reachable_stamped; exact Hr | exact IH].
  - apply (@derived_frame env h); [reflexivity | simpl; lia | exact IH].
Qed.

(** C6: in every state the service can reach, a reload of the records
    empties the statistics cache; cached statistics were computed at a
    clock reading made after the one that stamped the cached records, from
    these records or from the empty result of a failed read, so never from
    a snapshot that has been replaced; statistics served from the cache are
    the cached ones, and recomputed ones those of the records just loaded;
    recomputing them while the records are fresh reads no file and leaves
    the record cache as it is.  Under a clock that does not run backwards,
    statistics served from the cache are those of the cached records. *)
Theorem cache_coherence env h :
  reachable env h ->
  (forall content,
      fst (recordsFresh env h) = false ->
      read_file env (fsReads h) = Some content ->
      fst (loadEHRData env h) = parseContent content /\
      cachedRecords (snd (loadEHRData env h)) = Some (parseContent content) /\
      cachedStats (snd (loadEHRData env h)) = None) /\
  (forall st,
      cachedStats h = Some st ->
      exists i, i < nowCalls h /\ lastUpdated st = date_now env i /\
        ((exists rs, cachedRecords h = Some rs /\ computedFrom st rs)
         \/ computedFrom st []) /\
        (forall t, cacheTimestamp h = Some t ->
                   exists j, j < i /\ t = date_now env j)) /\
  (fst (statsFresh env h) = true ->
   cachedStats h = Some (fst (getEHRStatistics env h)) /\
   cacheOf (snd (getEHRStatistics env h)) = cacheOf h /\
   fsReads (snd (getEHRStatistics env h)) = fsReads h) /\
  (fst (statsFresh env h) = false ->
   computedFrom (fst (getEHRStatistics env h))
                (fst (loadEHRData env (snd (statsFresh env h))))) /\
  (fst (statsFresh env h) = false ->
   fst (recordsFresh env (snd (statsFresh env h))) = true ->
   fsReads (snd (getEHRStatistics env h)) = fsReads h /\
   cachedRecords (snd (getEHRStatistics env h)) = cachedRecords h /\
   cacheTimestamp (snd (getEHRStatistics env h)) = cacheTimestamp h) /\
  (monotoneClock env ->
   fst (statsFresh env h) = true ->
   exists rs, cachedRecords h = Some rs /\
              computedFrom (fst (getEHRStatistics env h)) rs).
Proof.
  intros Hreach. pose proof (@reachable_coherent env h Hreach) as Hc.
  split; [|split; [|split; [|split; [|split]]]].
  - intros content Hmiss Hread.
    destruct (loadEHRData_cases env h) as
      (_ & [(Hhit & _) | [(_ & c & Hc' & Hrs & Hr & Hs & _) | (_ & Hnone & _)]]);
      try congruence.
    assert (c = content) by congruence. subst c.
    rewrite <- Hrs. auto.
  - exact (@reachable_derived env h Hreach).
  - intros Hfresh.
    destruct (getEHRStatistics_cases env h) as [(_ & Hst & Hh') | (Hf & _)];
      [|congruence].
    pose proof (statsFresh_frame env h) as (Hk & Hfs & _). cbn zeta in Hk, Hfs.
    rewrite Hh'. repeat split; assumption.
  - intros Hmiss.
    destruct (getEHRStatistics_cases env h) as [(Hf & _) | (_ & H)]; [congruence|].
    cbn zeta in H. destruct H as (-> & _). apply computedFrom_computeStatistics.
  - intros Hmiss Hrec.
    destruct (getEHRStatistics_cases env h) as [(Hf & _) | (_ & H)]; [congruence|].
    cbn zeta in H. destruct H as (_ & _ & Hr & Ht & Hfs & _).
    pose proof (statsFresh_frame env h) as (Hfr & Hfs1 & _).
    unfold cacheOf in Hfr. injection Hfr as Hr1 _ Ht1.
    destruct (loadEHRData_cases env (snd (statsFresh env h))) as
      (_ & [(_ & _ & Hfr2 & Hfs2 & _) | [(Hf & _) | (Hf & _)]]); try congruence.
    unfold cacheOf in Hfr2. injection Hfr2 as Hr2 _ Ht2.
    repeat split; congruence.
  - intros Hmono Hfresh.
    destruct (getEHRStatistics_cases env h) as [(_ & Hst & Hh') | (Hf & _)];
      [|congruence].
    destruct Hc as [_ HB]. destruct (HB _ Hst) as [(rs & Hr & Hfrom) | Hexp].
    + exists rs. split; assumption.
    + exfalso. exact (@fresh_not_expired env h Hmono Hfresh Hexp).
Qed.

Lemma cache_coherence_witness :
  let h1 := snd (getEHRStatistics env_ticking initial_heap) in
  let h2 := snd (loadEHRData env_ticking h1) in
  totalRecords (fst (getEHRStatistics env_ticking initial_heap)) = 2 /\
  cachedStats h1 = Some (fst (getEHRStatistics env_ticking initial_heap)) /\
  fst (recordsFresh env_ticking h1) = false /\
  fsReads h2 = S (fsReads h1) /\
  cachedRecords h2 = Some (parseContent csv) /\
  cachedStats h2 = None /\
  fsReads (snd (getEHRStatistics env_ticking h2)) = fsReads h2 /\
  computedFrom (fst (getEHRStatistics env_ticking h2)) (parseContent csv).
Proof.
  assert (R1 : reachable env_ticking (snd (getEHRStatistics env_ticking initial_heap)))
    by (apply reach_stats, reach_initial).
  assert (R2 : reachable env_ticking
                 (snd (loadEHRData env_ticking
                         (snd (getEHRStatistics env_ticking initial_heap)))))
    by (apply reach_load; exact R1).
  destruct (cache_coherence R1) as (A1 & _).
  destruct (A1 csv eq_refl eq_refl) as (_ & A1r & A1s).
  destruct (cache_coherence R2) as (_ & _ & _ & B4 & B5 & _).
  split; [reflexivity|]. split; [reflexivity|]. split; [reflexivity|].
  split; [reflexivity|]. split; [exact A1r|]. split; [exact A1s|]. split.
  - apply B5; reflexivity.
  - apply (B4 eq_refl).
Defined.

Lemma aggregateFiltered_nil filter : aggregateFiltered filter [] = [].
Proof.
  unfold aggregateFiltered. cases; reflexivity.
Qed.

Lemma whereFiltered_nil parsed : whereFiltered parsed [] = [].
Proof.
  unfold whereFiltered, str_or. cases; reflexivity.
Qed.

(** C5, as the code has it: when the file cannot be read during a refresh,
    [loadEHRData] reads once, logs the failure, returns no record and
    leaves the cache as it was, so a record snapshot cached before is kept:
    by [loadEHRData], by the three query functions, and by
    [getEHRStatistics], which then stores the statistics of no record.  The
    failure is not reported: the query functions answer with a success
    response over the empty record set, not with an error response. *)
Theorem source_failure_is_swallowed env h :
  fst (recordsFresh env h) = false ->
  read_file env (fsReads h) = None ->
  fst (loadEHRData env h) = [] /\
  cacheOf (snd (loadEHRData env h)) = cacheOf h /\
  fsReads (snd (loadEHRData env h)) = S (fsReads h) /\
  console (snd (loadEHRData env h)) = console h ++ ["Failed to load EHR data:"] /\
  (forall h0,
      snd (statsFresh env h0) = h -> fst (statsFresh env h0) = false ->
      let st := fst (getEHRStatistics env h0) in
      let h' := snd (getEHRStatistics env h0) in
      cachedRecords h' = cachedRecords h0 /\
      cacheTimestamp h' = cacheTimestamp h0 /\
      fsReads h' = S (fsReads h0) /\
      computedFrom st [] /\ cachedStats h' = Some st) /\
  forall h0, snd (Date_now env h0) = h ->
    (forall request,
        let resp := fst (executeFilterQuery env request h0) in
        let h' := snd (executeFilterQuery env request h0) in
        success resp = true /\ error resp = None /\
        responseRecords resp = Some [] /\ responseTotalMatched resp = Some 0 /\
        cacheOf h' = cacheOf h0 /\ fsReads h' = S (fsReads h0)) /\
    (forall request,
        let resp := fst (executeAggregateQuery env request h0) in
        let h' := snd (executeAggregateQuery env request h0) in
        success resp = true /\ error resp = None /\
        responseAggregations resp = Some [] /\ responseTotalMatched resp = Some 0 /\
        cacheOf h' = cacheOf h0 /\ fsReads h' = S (fsReads h0)) /\
    (forall request,
        let resp := fst (executeSQLQuery env request h0) in
        let h' := snd (executeSQLQuery env request h0) in
        success resp = true /\ error resp = None /\
        responseTotalMatched resp = Some 0 /\
        cacheOf h' = cacheOf h0 /\ fsReads h' = S (fsReads h0)).
Proof.
  intros Hmiss Hread.
  destruct (loadEHRData_cases env h) as
    (_ & [(Hhit & _) | [(_ & c & Hc & _) | (_ & _ & Hrs & Hcache & Hfs & Hlog)]]);
    try congruence.
  repeat (split; [assumption|]).
  split.
  - intros h0 Hh0 Hstale. cbn zeta.
    destruct (getEHRStatistics_cases env h0) as [(Hf & _) | (_ & H)]; [congruence|].
    cbn zeta in H. rewrite Hh0 in H. destruct H as (Hst & Hcs & Hcr & Hct & Hfr & _).
    pose proof (statsFresh_frame env h0) as (Hk & Hf0 & _). cbn zeta in Hk, Hf0.
    rewrite Hh0 in Hk, Hf0. unfold cacheOf in Hk, Hcache.
    injection Hk as Hk1 _ Hk3. injection Hcache as Hc1 _ Hc3.
    repeat split; try congruence.
    rewrite Hst, Hrs. apply computedFrom_computeStatistics.
  - intros h0 Hh0.
    assert (Hloaded : loaded env h0 = []) by (unfold loaded; rewrite Hh0; exact Hrs).
    assert (Hkept : cacheOf (snd (Date_now env (snd (loadEHRData env h)))) = cacheOf h0
                    /\ fsReads (snd (Date_now env (snd (loadEHRData env h))))
                       = S (fsReads h0)).
    { unfold cacheOf in *. simpl. rewrite <- Hh0 in Hcache, Hfs. simpl in Hcache, Hfs.
      rewrite <- Hh0. split; assumption. }
    rewrite <- Hh0 in Hkept.
    split; [|split]; intros request; cbn zeta.
    + rewrite executeFilterQuery_eq. cbn zeta. rewrite Hloaded.
      rewrite FilterFacts.searchFiltered_keeps. simpl.
      unfold slice0. destruct (0 <=? _)%Z; rewrite firstn_nil; repeat split;
        apply Hkept.
    + rewrite executeAggregateQuery_eq. cbn zeta. rewrite Hloaded.
      rewrite aggregateFiltered_nil. repeat split; apply Hkept.
    + destruct request as [q].
      destruct (ParserFacts.parseSimpleSQL_total q) as [parsed Hp].
      rewrite executeSQLQuery_eq with (parsed := parsed) by exact Hp. cbn zeta.
      rewrite Hloaded, whereFiltered_nil.
      destruct (present (p_groupBy parsed)); repeat split; apply Hkept.
Qed.

Lemma source_failure_is_swallowed_witness :
  let h1 := snd (loadEHRData env_flaky initial_heap) in
  let h := snd (Date_now env_flaky h1) in
  let request := {| filters := noFilters; limit := None |} in
  cachedRecords h1 = Some (parseContent csv) /\
  length (parseContent csv) = 2 /\
  fst (loadEHRData env_flaky h) = [] /\
  cachedRecords (snd (loadEHRData env_flaky h)) = Some (parseContent csv) /\
  success (fst (executeFilterQuery env_flaky request h1)) = true /\
  responseRecords (fst (executeFilterQuery env_flaky request h1)) = Some [] /\
  cachedRecords (snd (executeFilterQuery env_flaky request h1))
  = Some (parseContent csv).
Proof.
  destruct (@source_failure_is_swallowed env_flaky
              (snd (Date_now env_flaky (snd (loadEHRData env_flaky initial_heap))))
              eq_refl eq_refl)
    as (H1 & H2 & _ & _ & _ & H6).
  split; [reflexivity|]. split; [reflexivity|]. split; [exact H1|].
  split; [exact (f_equal (fun c => fst (fst c)) H2)|].
  destruct (H6 (snd (loadEHRData env_flaky initial_heap)) eq_refl) as (Hf & _).
  destruct (Hf {| filters := noFilters; limit := None |})
    as (F1 & _ & F3 & _ & F5 & _).
  split; [exact F1|]. split; [exact F3|].
  exact (f_equal (fun c => fst (fst c)) F5).
Defined.

(** C5 fails as stated: with an unreadable file and an empty cache, the
    answer to a filter request is a success response with no error. *)
Lemma unreadable_source_yields_success :
  let resp := fst (executeFilterQuery env_unreadable
                     {| filters := noFilters; limit := None |} initial_heap) in
  success resp = true /\ error resp = None /\ responseRecords resp = Some [] /\
  forall msg, resp <> errorResponse msg.
Proof.
  vm_compute. repeat split. discriminate.
Qed.

End CoherenceFacts.

(** ** The query functions keep the heap reachable *)

Module ReachFacts.
Import JsString QueryRoute EhrDataService Props RouteFacts.

Lemma reachable_searchRecords env options h :
  reachable env h -> reachable env (snd (searchRecords env options h)).
Proof.
  intros H. unfold searchRecords, bind, ret.
  pose proof (reach_load H) as Hl.
  destruct (loadEHRData env h) as [rs h']. exact Hl.
Qed.

Lemma reachable_POST env body h :
  reachable env h -> reachable env (snd (POST env body h)).
Proof.
  intros H.
  assert (Hq : reachable env
                 (snd (Date_now env (snd (loadEHRData env (snd (Date_now env h))))))).
  { apply reach_clock, reach_load, reach_clock, H. }
  destruct body as [request|[q]|request]; simpl.
  - rewrite executeFilterQuery_eq. exact Hq.
  - destruct (ParserFacts.parseSimpleSQL_total q) as [parsed Hp].
    rewrite executeSQLQuery_eq with (parsed := parsed) by exact Hp. exact Hq.
  - rewrite executeAggregateQuery_eq. exact Hq.
Qed.

End ReachFacts.

(** ** The example scenarios *)

Module Scenarios.
Import JsString QueryRoute EhrDataService Props Samples.

(** Ages 10, 45 and 70 under the filter ageMin 40, ageMax 80. *)
Example age_range_filter :
  let young := patient "Dan" 10 "Male" "Kanto" [] [] in
  let request :=
    {| filters := {| f_ageMin := Some 40%Z; f_ageMax := Some 80%Z;
                     f_condition := None; f_medication := None; f_region := None;
                     f_gender := None; f_diagnosis := None |};
       limit := None |} in
  let resp := fst (executeFilterQuery env_unreadable request (warm [young; bob; carol])) in
  responseRecords resp = Some [bob; carol] /\ responseTotalMatched resp = Some 2.
Proof. vm_compute. split; reflexivity. Qed.

(** A textual query grouped by gender. *)
Example group_by_gender :
  let resp := fst (executeSQLQuery env_unreadable
                     {| query := "SELECT * FROM ehr_records GROUP BY gender" |}
                     (warm [bob; alice; bob])) in
  responseAggregations resp = Some [("Male", 2); ("Female", 1)].
Proof. vm_compute. reflexivity. Qed.

(** The visit history sub-format. *)
Example visit_history :
  parsePastVisits "[2024-10-06: Fever], [2024-08-16: Allergic Rhinitis]"
  = [{| date := "2024-10-06"; diagnosis := "Fever" |};
     {| date := "2024-08-16"; diagnosis := "Allergic Rhinitis" |}].
Proof. vm_compute. reflexivity. Qed.

(** A WHERE clause that runs over a line break is not recognised: [.] does
    not match a line terminator. *)
Example where_clause_stops_at_line_break :
  let nl := String newline EmptyString in
  parseSimpleSQL ("SELECT * FROM ehr_records WHERE gender = 'Female'" ++ nl
                  ++ "AND condition = 'Diabetes' LIMIT 50")%string
  = Ok {| p_select := ["*"]; p_where := JsObj.empty;
          p_groupBy := None; p_limit := Some 50%Z |}.
Proof. vm_compute. reflexivity. Qed.

(** A first load, then statistics from the cached records: one file read. *)
Example statistics_after_load :
  let h1 := snd (loadEHRData env_csv initial_heap) in
  let (st, h2) := getEHRStatistics env_csv h1 in
  totalRecords st = 2 /\ fsReads h2 = 1 /\
  ageDistribution st = [("18-29", 1); ("45-59", 1)] /\
  cachedStats h2 = Some st.
Proof. vm_compute. repeat split. Qed.

End Scenarios.

(** ** Strings: trimming and case *)

Module StringFacts.
Import JsString Shapes.

Lemma trimEnd_cons c s :
  trimEnd (String c s) =
  match trimEnd s with
  | EmptyString => if is_space c then EmptyString else String c EmptyString
  | t => String c t
  end.
Proof. reflexivity. Qed.

Lemma trimEnd_idem s : trimEnd (trimEnd s) = trimEnd s.
Proof.
  induction s as [|c s IH]; [reflexivity|].
  rewrite trimEnd_cons. destruct (trimEnd s) as [|d t] eqn:E.
  - destruct (is_space c) eqn:Ec; [reflexivity|].
    rewrite trimEnd_cons. simpl. rewrite Ec. reflexivity.
  - rewrite trimEnd_cons, IH. reflexivity.
Qed.

Lemma headed_trimStart s : headed (trimStart s) = true.
Proof.
  induction s as [|c s IH]; simpl; [reflexivity|].
  destruct (is_space c) eqn:E; [exact IH|]. simpl. rewrite E. reflexivity.
Qed.

Lemma headed_trimEnd s : headed s = true -> headed (trimEnd s) = true.
Proof.
  destruct s as [|c s]; simpl; [reflexivity|]. intros H.
  destruct (trimEnd s); [|exact H].
  destruct (is_space c) eqn:E; [reflexivity|]. simpl. rewrite E. reflexivity.
Qed.

Lemma trimStart_headed s : headed s = true -> trimStart s = s.
Proof.
  destruct s as [|c s]; simpl; [reflexivity|]. intros H.
  apply negb_true_iff in H. rewrite H. reflexivity.
Qed.

Lemma trim_idem s : trim (trim s) = trim s.
Proof.
  unfold trim. rewrite trimStart_headed.
  - apply trimEnd_idem.
  - apply headed_trimEnd, headed_trimStart.
Qed.

Lemma all_in_trimStart p s : all_in p s = true -> all_in p (trimStart s) = true.
Proof.
  induction s as [|c s IH]; simpl; [reflexivity|]. intros H.
  apply andb_true_iff in H. destruct H as [Hc Hs].
  destruct (is_space c); [apply IH, Hs|]. simpl. rewrite Hc, Hs. reflexivity.
Qed.

Lemma all_in_trimEnd p s : all_in p s = true -> all_in p (trimEnd s) = true.
Proof.
  induction s as [|c s IH]; simpl; [reflexivity|]. intros H.
  apply andb_true_iff in H. destruct H as [Hc Hs]. specialize (IH Hs).
  destruct (trimEnd s) as [|d t].
  - destruct (is_space c); [reflexivity|]. simpl. rewrite Hc. reflexivity.
  - simpl in *. rewrite Hc, IH. reflexivity.
Qed.

Lemma all_in_trim p s : all_in p s = true -> all_in p (trim s) = true.
Proof.
  intros H. unfold trim. apply all_in_trimEnd, all_in_trimStart, H.
Qed.

Lemma all_in_append p s t :
  all_in p (s ++ t) = all_in p s && all_in p t.
Proof.
  induction s as [|c s IH]; simpl; [reflexivity|]. rewrite IH, andb_assoc. reflexivity.
Qed.

Lemma truthy_trim_blank s : truthy (trim s) = false -> trim s = EmptyString.
Proof.
  destruct (trim s); [reflexivity | discriminate].
Qed.

Lemma lower_char_idem c : lower_char (lower_char c) = lower_char c.
Proof.
  destruct c as [[] [] [] [] [] [] [] []]; reflexivity.
Qed.

Lemma toLowerCase_idem s : toLowerCase (toLowerCase s) = toLowerCase s.
Proof.
  induction s as [|c s IH]; simpl; [reflexivity|].
  rewrite lower_char_idem, IH. reflexivity.
Qed.

Lemma truthy_toLowerCase s : truthy (toLowerCase s) = truthy s.
Proof. destruct s; reflexivity. Qed.

End StringFacts.

(** ** Parsing the rows of the file *)

Module CsvFacts.
Import JsString Regex EhrDataService Shapes StringFacts AiContext.

Lemma append_empty s : (s ++ EmptyString)%string = s.
Proof. induction s as [|c s IH]; simpl; [reflexivity | rewrite IH; reflexivity]. Qed.

Lemma append_assoc_one s c t :
  ((s ++ String c EmptyString) ++ t)%string = (s ++ String c t)%string.
Proof. induction s as [|d s IH]; simpl; [reflexivity | rewrite IH; reflexivity]. Qed.

Lemma clean_trim f : lacks dquote f = true -> clean_field (trim f).
Proof.
  intros H. split; [apply all_in_trim, H | apply trim_idem].
Qed.

Lemma parseCSVRow_from_clean row : forall current inQuotes result,
  lacks dquote current = true -> Forall clean_field result ->
  Forall clean_field (parseCSVRow_from row current inQuotes result).
Proof.
  induction row as [|char row IH]; intros current inQuotes result Hc Hr; simpl.
  - apply Forall_app. split; [exact Hr|]. constructor; [apply clean_trim, Hc | constructor].
  - destruct (Ascii.eqb char dquote) eqn:Eq; [apply IH; assumption|].
    destruct (Ascii.eqb char "," && negb inQuotes).
    + apply IH; [reflexivity|]. apply Forall_app. split; [exact Hr|].
      constructor; [apply clean_trim, Hc | constructor].
    + apply IH; [|exact Hr]. unfold lacks in *. rewrite all_in_append, Hc. simpl.
      rewrite Eq. reflexivity.
Qed.

Lemma split_on_cons sep s : exists p ps, split_on sep s = p :: ps.
Proof.
  destruct s as [|c s]; simpl; [eauto|].
  destruct (Ascii.eqb c sep); [eauto|]. destruct (split_on sep s); eauto.
Qed.

Lemma parseCSVRow_from_plain row : forall current result,
  lacks dquote row = true ->
  parseCSVRow_from row current false result =
  result ++ match split_on "," row with
            | p :: ps => trim (current ++ p) :: map trim ps
            | [] => [trim current]
            end.
Proof.
  induction row as [|char row IH]; intros current result Hq; simpl.
  - rewrite append_empty. reflexivity.
  - unfold lacks in Hq. simpl in Hq. apply andb_true_iff in Hq.
    destruct Hq as [Hc Hrow]. apply negb_true_iff in Hc. rewrite Hc.
    destruct (Ascii.eqb char ",") eqn:Ec; simpl.
    + rewrite IH by exact Hrow. rewrite append_empty, <- app_assoc. simpl.
      destruct (split_on_cons "," row) as (p & ps & ->). reflexivity.
    + rewrite IH by exact Hrow.
      destruct (split_on_cons "," row) as (p & ps & ->).
      rewrite append_assoc_one. reflexivity.
Qed.

(** X1: the row parser always yields at least one field; no field holds a
    double quote or white space at its ends; and on a row without double
    quotes the fields are the pieces between the commas, each trimmed. *)
Theorem parseCSVRow_fields row :
  parseCSVRow row <> [] /\
  Forall (fun f => lacks dquote f = true /\ trimmed f) (parseCSVRow row) /\
  (lacks dquote row = true -> parseCSVRow row = map trim (split_on "," row)).
Proof.
  split; [|split].
  - unfold parseCSVRow. intros H.
    assert (Hlen : forall r c q res, parseCSVRow_from r c q res <> []).
    { induction r as [|ch r IH]; intros c q res; simpl.
      - destruct res; discriminate.
      - destruct (Ascii.eqb ch dquote); [apply IH|].
        destruct (Ascii.eqb ch "," && negb q); apply IH. }
    exact (Hlen _ _ _ _ H).
  - apply parseCSVRow_from_clean; [reflexivity | constructor].
  - intros Hq. unfold parseCSVRow. rewrite parseCSVRow_from_plain by exact Hq.
    destruct (split_on_cons "," row) as (p & ps & ->). reflexivity.
Qed.

Lemma parseCSVRow_fields_witness :
  parseCSVRow "Alice, 18 ,Female" = ["Alice"; "18"; "Female"].
Proof.
  apply (proj2 (proj2 (parseCSVRow_fields "Alice, 18 ,Female"))). reflexivity.
Defined.

Lemma split_on_lacks sep s : Forall (fun p => lacks sep p = true) (split_on sep s).
Proof.
  induction s as [|c s IH]; simpl; [repeat constructor|].
  destruct (Ascii.eqb c sep) eqn:E; [constructor; [reflexivity | exact IH]|].
  destruct (split_on sep s) as [|p ps]; [repeat constructor; unfold lacks; simpl; rewrite E; reflexivity|].
  inversion IH; subst. constructor; [|assumption].
  unfold lacks in *. simpl. rewrite E. simpl. assumption.
Qed.

Lemma parseListField_clean value : Forall clean_item (parseListField value).
Proof.
  unfold parseListField.
  destruct (negb (truthy value) || String.eqb value "None"); [constructor|].
  pose proof (split_on_lacks "," value) as H.
  induction (split_on "," value) as [|p ps IH]; simpl; [constructor|].
  inversion H; subst. destruct (truthy (trim p)) eqn:E; [|apply IH; assumption].
  constructor; [|apply IH; assumption].
  repeat split; [exact E | apply trim_idem | apply all_in_trim; assumption].
Qed.

Lemma split_on_item item rest :
  lacks "," item = true ->
  split_on "," (item ++ String "," rest) = item :: split_on "," rest.
Proof.
  induction item as [|c item IH]; simpl; intros H; [reflexivity|].
  unfold lacks in H. simpl in H. apply andb_true_iff in H. destruct H as [Hc Hi].
  apply negb_true_iff in Hc. rewrite Hc, (IH Hi). reflexivity.
Qed.

Lemma split_on_last item :
  lacks "," item = true -> split_on "," item = [item].
Proof.
  induction item as [|c item IH]; simpl; intros H; [reflexivity|].
  unfold lacks in H. simpl in H. apply andb_true_iff in H. destruct H as [Hc Hi].
  apply negb_true_iff in Hc. rewrite Hc, (IH Hi). reflexivity.
Qed.

Lemma trim_spaced item : trimmed item -> trim (String " " item) = item.
Proof. intros H. unfold trim. simpl. exact H. Qed.

Lemma trimmed_join_pieces items :
  Forall clean_item items ->
  items <> [] ->
  filter truthy (map trim (split_on "," (join ", " items))) = items.
Proof.
  induction items as [|x rest IH]; intros Hc Hne; [congruence|].
  inversion Hc as [|? ? (Ht & Htr & Hl) Hrest]; subst.
  destruct rest as [|y rest'].
  - simpl. rewrite split_on_last by exact Hl. simpl.
    rewrite Htr, Ht. reflexivity.
  - specialize (IH Hrest ltac:(discriminate)).
    change (join ", " (x :: y :: rest'))
      with (x ++ String "," (String " " (join ", " (y :: rest'))))%string.
    remember (join ", " (y :: rest')) as J eqn:EJ. clear EJ.
    rewrite split_on_item by exact Hl.
    change (split_on "," (String " " J))
      with (match split_on "," J with
            | piece :: more => String " " piece :: more
            | [] => [String " " EmptyString]
            end).
    destruct (split_on_cons "," J) as (p & ps & Hp). rewrite Hp in *.
    simpl in IH |- *. rewrite Htr, Ht. f_equal.
    change (trim (String " " p)) with (trim p). exact IH.
Qed.

(** X2: a list field that is empty or the word None has no items; the items
    of any list field are non-empty, trimmed and free of commas; and a list
    of such items written the way the context generator writes it, joined
    by a comma and a space or None when empty, is read back unchanged,
    unless it is the single item None. *)
Theorem parseListField_round_trip items :
  Forall (fun s => truthy s = true /\ trimmed s /\ lacks "," s = true) items ->
  items <> ["None"] ->
  parseListField (listOrNone items) = items /\
  parseListField EmptyString = [] /\
  forall value,
    Forall (fun s => truthy s = true /\ trimmed s /\ lacks "," s = true)
           (parseListField value).
Proof.
  intros Hc Hnone. split; [|split; [reflexivity | apply parseListField_clean]].
  destruct items as [|x rest]; [reflexivity|].
  unfold listOrNone, parseListField.
  destruct (negb (truthy (join ", " (x :: rest)))
            || String.eqb (join ", " (x :: rest)) "None") eqn:E.
  - exfalso. apply orb_true_iff in E. destruct E as [E|E].
    + inversion Hc as [|? ? (Ht & _) _]; subst.
      destruct x; [discriminate|]. destruct rest; simpl in E; discriminate.
    + apply String.eqb_eq in E. destruct rest as [|y rest'].
      * simpl in E. subst. apply Hnone. reflexivity.
      * inversion Hc as [|? ? (_ & _ & Hl) _]; subst.
        assert (Hl' : lacks "," (join ", " (x :: y :: rest')) = true)
          by (rewrite E; reflexivity).
        change (join ", " (x :: y :: rest'))
          with (x ++ String "," (String " " (join ", " (y :: rest'))))%string in Hl'.
        unfold lacks in Hl'. rewrite all_in_append in Hl'.
        apply andb_true_iff in Hl'. destruct Hl' as [_ Hl']. discriminate.
  - apply trimmed_join_pieces; [exact Hc | discriminate].
Qed.

Lemma parseListField_round_trip_witness :
  parseListField (listOrNone ["Diabetes"; "Hypertension"])
  = ["Diabetes"; "Hypertension"].
Proof.
  apply (@parseListField_round_trip ["Diabetes"; "Hypertension"]).
  - repeat constructor.
  - discriminate.
Defined.

End CsvFacts.

(** ** Visits and whole files *)

Module LoadFacts.
Import JsString Regex EhrDataService Shapes StringFacts CsvFacts.

Lemma indexOf_take_lacks c s : forall i,
  indexOf c s = Some i -> lacks c (take i s) = true.
Proof.
  induction s as [|x s IH]; intros i H; simpl in H; [discriminate|].
  destruct (Ascii.eqb x c) eqn:E.
  - inversion H; subst. reflexivity.
  - destruct (indexOf c s) as [j|]; [|discriminate]. inversion H; subst.
    unfold lacks in *. simpl. rewrite E. simpl. apply IH. reflexivity.
Qed.

Lemma visits_clean (matches : list string) : forall visits,
  Forall clean_visit visits ->
  Forall clean_visit
    (fold_left
       (fun visits m =>
          let content := take (String.length m - 2) (drop 1 m) in
          match indexOf ":" content with
          | Some colonIndex =>
              visits ++ [{| date := trim (take colonIndex content);
                            diagnosis := trim (drop (colonIndex + 1) content) |}]
          | None => visits
          end)
       matches visits).
Proof.
  induction matches as [|m ms IH]; intros visits H; simpl; [exact H|].
  apply IH. destruct (indexOf ":" _) as [i|] eqn:E; [|exact H].
  apply Forall_app. split; [exact H|]. constructor; [|constructor].
  repeat split; simpl.
  - apply all_in_trim. apply (indexOf_take_lacks _ _ E).
  - apply trim_idem.
  - apply trim_idem.
Qed.

(** A pattern that begins with a class fails where the input begins outside
    of it. *)
Lemma first_char_fails p b x s :
  p x = false -> exec_at (RSeq (RChar p) b) (String x s) = None.
Proof.
  intros H. unfold exec_at. simpl. rewrite H. reflexivity.
Qed.

Lemma search_visit_none s : lacks "[" s = true -> search visit_re s = None.
Proof.
  induction s as [|x s IH]; intros H; [reflexivity|].
  unfold lacks in H. simpl in H. apply andb_true_iff in H. destruct H as [Hx Hs].
  apply negb_true_iff in Hx.
  assert (Hx' : Ascii.eqb "[" x = false).
  { destruct (Ascii.eqb "[" x) eqn:E; [|reflexivity].
    apply Ascii.eqb_eq in E. subst. discriminate. }
  change (search visit_re (String x s))
    with (match exec_at visit_re (String x s) with
          | Some (c, rest) =>
              Some (Found EmptyString
                          (take (String.length (String x s) - String.length rest)
                                (String x s)) c rest)
          | None =>
              match search visit_re s with
              | Some f => Some (Found (String x (before f)) (matched f) (groups f) (after f))
              | None => None
              end
          end).
  assert (He : exec_at visit_re (String x s) = None).
  { apply (first_char_fails (Ascii.eqb "[")). exact Hx'. }
  rewrite He, (IH Hs). reflexivity.
Qed.

Lemma parsePastVisits_clean visitStr : Forall clean_visit (parsePastVisits visitStr).
Proof.
  unfold parsePastVisits.
  destruct (negb (truthy visitStr) || String.eqb visitStr "None"); [constructor|].
  apply visits_clean. constructor.
Qed.

(** X3: a visit field that is empty, the word None, or without an opening
    bracket has no visits; in every visit read from any field the date holds
    no colon, and the date and the diagnosis have no white space at their
    ends. *)
Theorem parsePastVisits_shape visitStr :
  parsePastVisits EmptyString = [] /\
  parsePastVisits "None" = [] /\
  (lacks "[" visitStr = true -> parsePastVisits visitStr = []) /\
  Forall (fun v => lacks ":" (date v) = true /\ trimmed (date v)
                   /\ trimmed (diagnosis v))
         (parsePastVisits visitStr).
Proof.
  split; [reflexivity|]. split; [reflexivity|]. split.
  - intros H. unfold parsePastVisits.
    destruct (negb (truthy visitStr) || String.eqb visitStr "None"); [reflexivity|].
    unfold match_all. simpl. rewrite (search_visit_none _ H). reflexivity.
  - apply parsePastVisits_clean.
Qed.

Lemma parsePastVisits_shape_witness :
  parsePastVisits "2024-10-06: Fever" = [].
Proof.
  apply (proj1 (proj2 (proj2 (parsePastVisits_shape "2024-10-06: Fever")))).
  reflexivity.
Defined.

Lemma parseContent_rows content :
  parseContent content
  = fold_left addRow
      (tl (filter (fun line => truthy (trim line)) (split_on newline content))) [].
Proof. reflexivity. Qed.

Lemma addRow_length records line :
  length (addRow records line) = length records + (if wide line then 1 else 0).
Proof.
  unfold addRow, wide. cbn zeta.
  destruct (length (parseCSVRow line) <? 10) eqn:E.
  - apply Nat.ltb_lt in E.
    destruct (10 <=? length (parseCSVRow line)) eqn:E2; [apply Nat.leb_le in E2|]; lia.
  - apply Nat.ltb_ge in E. rewrite length_app.
    destruct (10 <=? length (parseCSVRow line)) eqn:E2; [|apply Nat.leb_gt in E2];
      simpl; lia.
Qed.

Lemma rows_length (lines : list string) : forall records,
  length (fold_left addRow lines records)
  = length records + length (filter wide lines).
Proof.
  induction lines as [|line lines IH]; intros records; cbn [fold_left filter]; [simpl; lia|].
  rewrite IH, addRow_length. destruct (wide line); simpl; lia.
Qed.

(** X4: the records of a file are as many as its lines that are not blank,
    the first of them (the header) left aside, and that have ten fields or
    more; so a file of a header alone, or an empty one, has no record. *)
Theorem parseContent_count content :
  let lines := filter (fun line => truthy (trim line)) (split_on newline content) in
  length (parseContent content)
  = length (filter (fun line => 10 <=? length (parseCSVRow line)) (tl lines)) /\
  length (parseContent content) <= length lines - 1.
Proof.
  cbn zeta. rewrite parseContent_rows, rows_length.
  split; [reflexivity|].
  set (lines := filter _ (split_on newline content)).
  pose proof (filter_length_le wide (tl lines)).
  destruct lines; simpl in *; lia.
Qed.

Lemma clean_field_nth fields i :
  Forall clean_field fields -> clean_field (field fields i).
Proof.
  intros H. unfold field. revert i.
  induction H as [|f fs Hf Hfs IH]; intros i.
  - destruct i; split; reflexivity.
  - destruct i; [exact Hf | apply IH].
Qed.

Lemma clean_recordOf fields :
  Forall clean_field fields -> clean_record (recordOf fields).
Proof.
  intros H. unfold clean_record, recordOf. cbn [fullName gender region symptoms
    medicationHistory pastVisits].
  repeat split; try apply clean_field_nth; try exact H;
    try apply parseListField_clean.
  apply parsePastVisits_clean.
Qed.

Lemma rows_clean (lines : list string) : forall records,
  Forall clean_record records -> Forall clean_record (fold_left addRow lines records).
Proof.
  induction lines as [|line lines IH]; intros records H; cbn [fold_left]; [exact H|].
  apply IH. unfold addRow. cbn zeta.
  destruct (length (parseCSVRow line) <? 10); [exact H|].
  apply Forall_app. split; [exact H|]. constructor; [|constructor].
  apply clean_recordOf. apply parseCSVRow_from_clean; [reflexivity | constructor].
Qed.

Lemma parseContent_clean content : Forall clean_record (parseContent content).
Proof.
  rewrite parseContent_rows. apply rows_clean. constructor.
Qed.

End LoadFacts.

(** ** Sorting and capping an object of counts *)

Module CapFacts.
Import JsString Shapes Props JsObjFacts EhrDataService.

Lemma get_In (V : Type) k (v : V) (o : JsObj.t V) :
  NoDup (map fst o) -> (JsObj.get k o = Some v <-> In (k, v) o).
Proof.
  induction o as [|[k0 v0] o IH]; simpl; intros Hnd; [split; [discriminate | tauto]|].
  inversion Hnd as [|? ? Hk Hnd']; subst.
  destruct (String.eqb k k0) eqn:E.
  - apply String.eqb_eq in E. subst k0. split.
    + intros [= ->]. auto.
    + intros [[= ->]|Hin]; [reflexivity|].
      exfalso. apply Hk. apply (in_map fst) in Hin. exact Hin.
  - apply String.eqb_neq in E. rewrite (IH Hnd'). split; [auto|].
    intros [[= -> ->]|Hin]; [congruence | exact Hin].
Qed.

Lemma get_perm (V : Type) k (o o' : JsObj.t V) :
  NoDup (map fst o) -> Permutation o o' -> JsObj.get k o = JsObj.get k o'.
Proof.
  intros Hnd Hp.
  assert (Hnd' : NoDup (map fst o')).
  { eapply Permutation_NoDup; [apply Permutation_map, Hp | exact Hnd]. }
  destruct (JsObj.get k o) as [v|] eqn:E.
  - symmetry. apply get_In; [exact Hnd'|]. eapply Permutation_in; [exact Hp|].
    apply get_In; assumption.
  - destruct (JsObj.get k o') as [v'|] eqn:E'; [|reflexivity].
    apply get_In in E'; [|exact Hnd'].
    apply (Permutation_in _ (Permutation_sym Hp)) in E'.
    apply get_In in E'; [congruence | exact Hnd].
Qed.

Lemma perm_fold_set (V : Type) (l : list (string * V)) : forall acc : JsObj.t V,
  NoDup (map fst l) ->
  (forall k, In k (map fst l) -> JsObj.get k acc = None) ->
  Permutation (fold_left (fun o kv => JsObj.set (fst kv) (snd kv) o) l acc) (l ++ acc).
Proof.
  induction l as [|[k v] l IH]; simpl; intros acc Hnd Hfresh; [reflexivity|].
  inversion Hnd as [|? ? Hk Hnd']; subst.
  rewrite IH.
  - rewrite (perm_set_new k v acc) by (apply Hfresh; auto).
    symmetry. apply Permutation_middle.
  - exact Hnd'.
  - intros k' Hin. rewrite get_set_other.
    + apply Hfresh. auto.
    + intros ->. contradiction.
Qed.

Lemma perm_fromEntries (V : Type) (l : list (string * V)) :
  NoDup (map fst l) -> Permutation (JsObj.fromEntries l) l.
Proof.
  intros H. unfold JsObj.fromEntries. rewrite perm_fold_set; auto.
  rewrite app_nil_r. reflexivity.
Qed.

Lemma In_firstn (A : Type) (x : A) n l : In x (firstn n l) -> In x l.
Proof.
  revert n. induction l as [|y l IH]; intros n; destruct n; simpl; try tauto.
  intros [H|H]; [auto | right; eapply IH, H].
Qed.

Lemma In_skipn (A : Type) (x : A) n l : In x (skipn n l) -> In x l.
Proof.
  revert n. induction l as [|y l IH]; intros n; destruct n; simpl; try tauto.
  intros H. right. eapply IH, H.
Qed.

Lemma NoDup_firstn (A : Type) n (l : list A) : NoDup l -> NoDup (firstn n l).
Proof.
  revert n. induction l as [|x l IH]; intros n H; destruct n; simpl; try constructor.
  - inversion H; subst. intros Hin. apply In_firstn in Hin. contradiction.
  - inversion H; subst. apply IH. assumption.
Qed.

Lemma get_firstn (V : Type) k (v : V) n (o : JsObj.t V) :
  JsObj.get k (firstn n o) = Some v -> JsObj.get k o = Some v.
Proof.
  revert n. induction o as [|[k0 v0] o IH]; intros n; destruct n; simpl; try discriminate.
  destruct (String.eqb k k0); [auto | apply IH].
Qed.

Lemma insert_desc_sorted x l : descending l -> descending (JsObj.insert_desc x l).
Proof.
  unfold descending. induction 1 as [|y l Hs IH Hall]; simpl.
  - repeat constructor.
  - destruct (snd x <? snd y) eqn:E.
    + apply Nat.ltb_lt in E. constructor; [exact IH|].
      rewrite (perm_insert_desc x l). constructor; [lia | exact Hall].
    + apply Nat.ltb_ge in E. constructor; [constructor; assumption|].
      constructor; [exact E|]. eapply Forall_impl; [|exact Hall].
      simpl. intros a Ha. lia.
Qed.

Lemma sort_desc_sorted l : descending (JsObj.sort_desc l).
Proof.
  induction l as [|x l IH]; simpl; [constructor | apply insert_desc_sorted, IH].
Qed.

Lemma sorted_split n (l : list (string * nat)) a b :
  descending l -> In a (firstn n l) -> In b (skipn n l) -> snd b <= snd a.
Proof.
  unfold descending. intros H. revert n.
  induction H as [|x l Hs IH Hall]; intros n Ha Hb.
  - destruct n; contradiction.
  - destruct n; [contradiction|]. simpl in Ha, Hb. destruct Ha as [->|Ha].
    + rewrite Forall_forall in Hall. apply Hall. eapply In_skipn, Hb.
    + eapply IH; eassumption.
Qed.

Lemma NoDup_keys_sort (o : JsObj.t nat) :
  NoDup (map fst o) -> NoDup (map fst (JsObj.sort_desc o)).
Proof.
  intros H. eapply Permutation_NoDup; [|exact H].
  symmetry. apply Permutation_map, perm_sort_desc.
Qed.

Lemma NoDup_keys_firstn (V : Type) n (o : JsObj.t V) :
  NoDup (map fst o) -> NoDup (map fst (firstn n o)).
Proof.
  intros H. rewrite <- firstn_map. apply NoDup_firstn, H.
Qed.

(** What [sortAndLimit] keeps. *)
Lemma sortAndLimit_spec (o : JsObj.t nat) limit :
  NoDup (map fst o) ->
  Permutation (sortAndLimit o limit) (firstn limit (JsObj.sort_desc o)).
Proof.
  intros H. unfold sortAndLimit. apply perm_fromEntries.
  apply NoDup_keys_firstn, NoDup_keys_sort, H.
Qed.

Lemma sortAndLimit_length (o : JsObj.t nat) limit :
  NoDup (map fst o) -> length (sortAndLimit o limit) <= limit.
Proof.
  intros H. rewrite (Permutation_length (@sortAndLimit_spec o limit H)).
  rewrite length_firstn. lia.
Qed.

Lemma sortAndLimit_get (o : JsObj.t nat) limit k v :
  NoDup (map fst o) ->
  JsObj.get k (sortAndLimit o limit) = Some v -> JsObj.get k o = Some v.
Proof.
  intros H Hg.
  assert (Hnd : NoDup (map fst (sortAndLimit o limit))).
  { eapply Permutation_NoDup;
      [symmetry; apply Permutation_map, sortAndLimit_spec, H|].
    apply NoDup_keys_firstn, NoDup_keys_sort, H. }
  rewrite (@get_perm _ k _ _ Hnd (@sortAndLimit_spec o limit H)) in Hg.
  apply get_firstn in Hg.
  rewrite <- (@get_perm _ k _ _ H (Permutation_sym (perm_sort_desc o))) in Hg. exact Hg.
Qed.

Lemma sortAndLimit_top (o : JsObj.t nat) limit k v k' v' :
  NoDup (map fst o) ->
  JsObj.get k (sortAndLimit o limit) = Some v ->
  JsObj.get k' o = Some v' ->
  JsObj.get k' (sortAndLimit o limit) = None ->
  v' <= v.
Proof.
  intros H Hk Hk' Hout.
  assert (Hnd : NoDup (map fst (sortAndLimit o limit))).
  { eapply Permutation_NoDup;
      [symmetry; apply Permutation_map, sortAndLimit_spec, H|].
    apply NoDup_keys_firstn, NoDup_keys_sort, H. }
  pose proof (@NoDup_keys_sort o H) as Hs.
  pose proof (@NoDup_keys_firstn _ limit _ Hs) as Hf.
  rewrite (@get_perm _ k _ _ Hnd (@sortAndLimit_spec o limit H)) in Hk.
  rewrite (@get_perm _ k' _ _ Hnd (@sortAndLimit_spec o limit H)) in Hout.
  apply (@get_In _ k v _ Hf) in Hk.
  rewrite (@get_perm _ k' _ _ H (Permutation_sym (perm_sort_desc o))) in Hk'.
  apply (@get_In _ k' v' _ Hs) in Hk'.
  rewrite <- (firstn_skipn limit (JsObj.sort_desc o)) in Hk'.
  apply in_app_or in Hk'. destruct Hk' as [Hin|Hin].
  - apply (@get_In _ k' v' _ Hf) in Hin. congruence.
  - apply (@sorted_split limit _ _ _ (sort_desc_sorted o) Hk Hin).
Qed.

End CapFacts.

(** ** The statistics *)

Module StatsFacts.
Import JsString Shapes Props Samples Domains JsObjFacts EhrDataService CapFacts.

Lemma counted_fields (rs : list EHRRecord) : forall st,
  let st' := fold_left countRecord rs st in
  totalRecords st' = totalRecords st /\
  ageDistribution st'
  = fold_left (fun o r => JsObj.bump (getAgeGroup (age r)) o) rs (ageDistribution st) /\
  genderDistribution st'
  = fold_left (fun o r => JsObj.bump (gender r) o) rs (genderDistribution st) /\
  regionDistribution st'
  = fold_left (fun o r => JsObj.bump (region r) o) rs (regionDistribution st) /\
  chronicConditions st'
  = fold_left (fun o r => fold_left (fun o c => JsObj.bump c o) (symptoms r) o)
              rs (chronicConditions st) /\
  topMedications st'
  = fold_left (fun o r => fold_left (fun o c => JsObj.bump c o) (medicationHistory r) o)
              rs (topMedications st) /\
  topDiagnoses st'
  = fold_left (fun o r => fold_left (fun o v => JsObj.bump (diagnosis v) o)
                                    (pastVisits r) o)
              rs (topDiagnoses st) /\
  patientsOnMedication st'
  = patientsOnMedication st
    + length (filter (fun r => 0 <? length (medicationHistory r)) rs) /\
  patientsNoMedication st'
  = patientsNoMedication st
    + length (filter (fun r => negb (0 <? length (medicationHistory r))) rs) /\
  totalVisits st' = totalVisits st + visitCount rs.
Proof.
  induction rs as [|r rs IH]; intros st; cbn zeta.
  - simpl. repeat split; lia.
  - cbn [fold_left]. specialize (IH (countRecord st r)). cbn zeta in IH.
    destruct IH as (H1 & H2 & H3 & H4 & H5 & H6 & H7 & H8 & H9 & H10).
    rewrite H1, H2, H3, H4, H5, H6, H7, H8, H9, H10.
    unfold visitCount. unfold countRecord at 1 2 3 4 5 6 7 8 9 10.
    cbn [totalRecords ageDistribution genderDistribution
         regionDistribution chronicConditions topMedications topDiagnoses
         patientsOnMedication patientsNoMedication totalVisits filter fold_right].
    repeat split; try reflexivity;
      destruct (0 <? length (medicationHistory r)); simpl; lia.
Qed.

Lemma NoDup_tally (A : Type) (key : A -> string) (l : list A) : forall o : JsObj.t nat,
  NoDup (map fst o) ->
  NoDup (map fst (fold_left (fun o x => JsObj.bump (key x) o) l o)).
Proof.
  induction l as [|x l IH]; simpl; intros o H; [exact H|].
  apply IH, NoDup_keys_bump, H.
Qed.

Lemma total_tally_any (A : Type) (key : A -> string) (l : list A) : forall o,
  JsObj.total (fold_left (fun o x => JsObj.bump (key x) o) l o)
  = JsObj.total o + length l.
Proof.
  induction l as [|x l IH]; simpl; intros o; [lia|].
  rewrite IH, total_bump. lia.
Qed.

Lemma countOf_tally_any (A : Type) (key : A -> string) k (l : list A) : forall o,
  countOf k (fold_left (fun o x => JsObj.bump (key x) o) l o)
  = countOf k o + length (filter (fun x => String.eqb (key x) k) l).
Proof.
  induction l as [|x l IH]; simpl; intros o; [lia|].
  rewrite IH, countOf_bump. destruct (String.eqb (key x) k); simpl; lia.
Qed.

Lemma NoDup_tally_lists (field : EHRRecord -> list string) (rs : list EHRRecord) :
  forall o : JsObj.t nat,
  NoDup (map fst o) ->
  NoDup (map fst (fold_left (fun o r => fold_left (fun o c => JsObj.bump c o) (field r) o)
                            rs o)).
Proof.
  induction rs as [|r rs IH]; simpl; intros o H; [exact H|].
  apply IH. apply (NoDup_tally (fun c : string => c)). exact H.
Qed.

Lemma NoDup_tally_nested (A : Type) (items : EHRRecord -> list A) (key : A -> string)
      (rs : list EHRRecord) : forall o : JsObj.t nat,
  NoDup (map fst o) ->
  NoDup (map fst (fold_left (fun o r => fold_left (fun o x => JsObj.bump (key x) o)
                                                  (items r) o)
                            rs o)).
Proof.
  induction rs as [|r rs IH]; simpl; intros o H; [exact H|].
  apply IH. apply NoDup_tally. exact H.
Qed.

Lemma occurrences_filter k (l : list string) :
  length (filter (fun x => String.eqb x k) l) = occurrences k l.
Proof.
  unfold occurrences. induction l as [|x l IH]; simpl; [reflexivity|].
  rewrite (String.eqb_sym k x). destruct (String.eqb x k); simpl; rewrite IH; reflexivity.
Qed.

Lemma countOf_tally_lists (field : EHRRecord -> list string) k (rs : list EHRRecord) :
  forall o,
  countOf k (fold_left (fun o r => fold_left (fun o c => JsObj.bump c o) (field r) o)
                       rs o)
  = countOf k o + occurrencesIn field k rs.
Proof.
  induction rs as [|r rs IH]; simpl; intros o; [lia|].
  rewrite IH. rewrite (countOf_tally_any (fun c : string => c)).
  rewrite occurrences_filter. lia.
Qed.

Lemma countOf_get k n (o : JsObj.t nat) : JsObj.get k o = Some n -> countOf k o = n.
Proof. unfold countOf. intros ->. reflexivity. Qed.

Lemma stats_fields rs now :
  let st := computeStatistics rs now in
  let raw := fold_left countRecord rs (emptyStatistics (length rs) now) in
  totalRecords st = totalRecords raw /\ ageDistribution st = ageDistribution raw /\
  genderDistribution st = genderDistribution raw /\
  regionDistribution st = sortAndLimit (regionDistribution raw) 30 /\
  chronicConditions st = sortAndLimit (chronicConditions raw) 20 /\
  topDiagnoses st = sortAndLimit (topDiagnoses raw) 20 /\
  topMedications st = sortAndLimit (topMedications raw) 20 /\
  patientsOnMedication st = patientsOnMedication raw /\
  patientsNoMedication st = patientsNoMedication raw /\
  totalVisits st = totalVisits raw.
Proof. repeat split. Qed.

(** X5: in the statistics of any list of records, [totalRecords] is the
    number of records; every record is counted once as on medication or as
    without, the latter being those with an empty medication history; the
    age distribution sums to the number of records, and so does the gender
    distribution when every gender is an own name; and [totalVisits] is the
    number of visits of all records. *)
Theorem statistics_totals rs now :
  let st := computeStatistics rs now in
  totalRecords st = length rs /\
  patientsOnMedication st + patientsNoMedication st = length rs /\
  patientsNoMedication st
  = length (filter (fun r => match medicationHistory r with [] => true | _ => false end) rs) /\
  JsObj.total (ageDistribution st) = length rs /\
  (ownValued gender rs -> JsObj.total (genderDistribution st) = length rs) /\
  totalVisits st = visitCount rs.
Proof.
  cbn zeta.
  destruct (stats_fields rs now) as (E1 & E2 & E3 & _ & _ & _ & _ & E8 & E9 & E10).
  cbn zeta in *. rewrite E1, E2, E3, E8, E9, E10.
  destruct (counted_fields rs (emptyStatistics (length rs) now))
    as (H1 & H2 & H3 & _ & _ & _ & _ & H8 & H9 & H10).
  cbn zeta in *. rewrite H1, H2, H3, H8, H9, H10. simpl.
  rewrite !total_tally_any. simpl.
  pose proof (filter_length (fun r => 0 <? length (medicationHistory r)) rs) as Hp.
  repeat split; try lia.
  f_equal. apply filter_ext. intros r. destruct (medicationHistory r); reflexivity.
Qed.

Lemma statistics_totals_witness :
  let st := computeStatistics [alice; bob; carol] 0%Z in
  genderDistribution st = [("Female", 2); ("Male", 1)] /\
  JsObj.total (genderDistribution st) = 3 /\
  patientsOnMedication st = 1 /\ patientsNoMedication st = 2.
Proof.
  split; [reflexivity|]. split; [|split; reflexivity].
  destruct (statistics_totals [alice; bob; carol] 0%Z) as (_ & _ & _ & _ & H & _).
  apply H. repeat constructor.
Defined.





(** X7: the region distribution has at most 30 entries, the condition, the
    diagnosis and the medication distributions at most 20 each; and, when
    the values counted are own names, the count kept for a region is the
    number of records of that region, the count kept for a condition or a
    medication the number of times it is listed over all records. *)
Theorem statistics_caps rs now :
  let st := computeStatistics rs now in
  length (regionDistribution st) <= 30 /\
  length (chronicConditions st) <= 20 /\
  length (topDiagnoses st) <= 20 /\
  length (topMedications st) <= 20 /\
  (ownValued region rs ->
   forall k n, JsObj.get k (regionDistribution st) = Some n -> n = having region k rs) /\
  (ownListed symptoms rs ->
   forall k n, JsObj.get k (chronicConditions st) = Some n ->
               n = occurrencesIn symptoms k rs) /\
  (ownListed medicationHistory rs ->
   forall k n, JsObj.get k (topMedications st) = Some n ->
               n = occurrencesIn medicationHistory k rs).
Proof.
  cbn zeta.
  destruct (stats_fields rs now) as (_ & _ & _ & E4 & E5 & E6 & E7 & _).
  cbn zeta in *. rewrite E4, E5, E6, E7.
  destruct (counted_fields rs (emptyStatistics (length rs) now))
    as (_ & _ & _ & H4 & H5 & H6 & H7 & _).
  cbn zeta in *. rewrite H4, H5, H6, H7. simpl.
  assert (N4 : NoDup (map fst (fold_left (fun o r => JsObj.bump (region r) o) rs JsObj.empty)))
    by (apply NoDup_tally; constructor).
  assert (N5 : NoDup (map fst (fold_left
             (fun o r => fold_left (fun o c => JsObj.bump c o) (symptoms r) o)
             rs JsObj.empty)))
    by (apply NoDup_tally_lists; constructor).
  assert (N7 : NoDup (map fst (fold_left
             (fun o r => fold_left (fun o c => JsObj.bump c o) (medicationHistory r) o)
             rs JsObj.empty)))
    by (apply NoDup_tally_lists; constructor).
  assert (N6 : NoDup (map fst (fold_left
             (fun o r => fold_left (fun o v => JsObj.bump (diagnosis v) o)
                                   (pastVisits r) o)
             rs JsObj.empty)))
    by (apply NoDup_tally_nested; constructor).
  repeat split; try (apply sortAndLimit_length; assumption).
  - intros _ k n Hg. apply sortAndLimit_get in Hg; [|exact N4].
    apply countOf_get in Hg. rewrite countOf_tally_any in Hg. exact (eq_sym Hg).
  - intros _ k n Hg. apply sortAndLimit_get in Hg; [|exact N5].
    apply countOf_get in Hg. rewrite countOf_tally_lists in Hg. exact (eq_sym Hg).
  - intros _ k n Hg. apply sortAndLimit_get in Hg; [|exact N7].
    apply countOf_get in Hg. rewrite countOf_tally_lists in Hg. exact (eq_sym Hg).
Qed.

Lemma statistics_caps_witness :
  let st := computeStatistics [alice; bob; carol] 0%Z in
  regionDistribution st = [("Kanto", 2); ("Kansai", 1)] /\
  having region "Kanto" [alice; bob; carol] = 2 /\
  occurrencesIn symptoms "Asthma" [alice; bob; carol] = 1.
Proof.
  split; [reflexivity|].
  destruct (statistics_caps [alice; bob; carol] 0%Z) as (_ & _ & _ & _ & Hr & Hc & _).
  split.
  - symmetry. apply (Hr ltac:(repeat constructor) "Kanto" 2). reflexivity.
  - symmetry. apply (Hc ltac:(repeat constructor) "Asthma" 1). reflexivity.
Defined.

(** X8: when the regions are own names, a region that the region
    distribution leaves out has no more records than any region it lists;
    the same holds of the conditions. *)
Theorem statistics_keep_the_top rs now :
  let st := computeStatistics rs now in
  (ownValued region rs ->
   forall kept n dropped,
      JsObj.get kept (regionDistribution st) = Some n ->
      JsObj.get dropped (regionDistribution st) = None ->
      having region dropped rs <= n) /\
  (ownListed symptoms rs ->
   forall kept n dropped,
      JsObj.get kept (chronicConditions st) = Some n ->
      JsObj.get dropped (chronicConditions st) = None ->
      occurrencesIn symptoms dropped rs <= n).
Proof.
  cbn zeta.
  destruct (stats_fields rs now) as (_ & _ & _ & E4 & E5 & _).
  cbn zeta in *. rewrite E4, E5.
  destruct (counted_fields rs (emptyStatistics (length rs) now))
    as (_ & _ & _ & H4 & H5 & _).
  cbn zeta in *. rewrite H4, H5. simpl.
  set (regions := fold_left (fun o r => JsObj.bump (region r) o) rs JsObj.empty).
  set (conds := fold_left
                  (fun o r => fold_left (fun o c => JsObj.bump c o) (symptoms r) o)
                  rs JsObj.empty).
  assert (N4 : NoDup (map fst regions)) by (apply NoDup_tally; constructor).
  assert (N5 : NoDup (map fst conds)) by (apply NoDup_tally_lists; constructor).
  split.
  - intros _ kept n dropped Hk Hd.
    replace (having region dropped rs) with (countOf dropped regions)
      by (unfold regions; rewrite countOf_tally_any; reflexivity).
    unfold countOf. destruct (JsObj.get dropped regions) as [v'|] eqn:Eg; [|lia].
    exact (@sortAndLimit_top regions 30 kept n dropped v' N4 Hk Eg Hd).
  - intros _ kept n dropped Hk Hd.
    replace (occurrencesIn symptoms dropped rs) with (countOf dropped conds)
      by (unfold conds; rewrite countOf_tally_lists; reflexivity).
    unfold countOf. destruct (JsObj.get dropped conds) as [v'|] eqn:Eg; [|lia].
    exact (@sortAndLimit_top conds 20 kept n dropped v' N5 Hk Eg Hd).
Qed.

Lemma statistics_keep_the_top_witness :
  let st := computeStatistics crowd 0%Z in
  length crowd = 33 /\
  length (regionDistribution st) = 30 /\
  JsObj.get (regionNamed 0) (regionDistribution st) = Some 2 /\
  JsObj.get (regionNamed 31) (regionDistribution st) = None /\
  having region (regionNamed 31) crowd <= 2.
Proof.
  split; [reflexivity|]. split; [reflexivity|]. split; [reflexivity|].
  split; [reflexivity|].
  destruct (statistics_keep_the_top crowd 0%Z) as (Hr & _).
  apply (Hr ltac:(repeat constructor) (regionNamed 0) 2 (regionNamed 31));
    reflexivity.
Defined.

End StatsFacts.

(** ** How long the cache is served *)

Module TtlFacts.
Import JsString EhrDataService Props Samples CacheFacts.

Lemma loadEHRData_hit env h rs t :
  cachedRecords h = Some rs -> cacheTimestamp h = Some t -> t <> 0%Z ->
  (date_now env (nowCalls h) - t < CACHE_TTL_MS)%Z ->
  loadEHRData env h = (rs, snd (Date_now env h)).
Proof.
  destruct h as [cr cs ts nc fr co]. simpl. intros -> -> Ht Hlt.
  apply Z.eqb_neq in Ht. apply Z.ltb_lt in Hlt.
  run. rewrite Ht. simpl. rewrite Hlt. reflexivity.
Qed.

Lemma loadEHRData_miss env h rs t :
  cachedRecords h = Some rs -> cacheTimestamp h = Some t ->
  t = 0%Z \/ (CACHE_TTL_MS <= date_now env (nowCalls h) - t)%Z ->
  fsReads (snd (loadEHRData env h)) = S (fsReads h) /\
  fst (loadEHRData env h)
  = match read_file env (fsReads h) with
    | Some content => parseContent content
    | None => []
    end.
Proof.
  destruct h as [cr cs ts nc fr co]. simpl. intros -> -> Ht.
  run. destruct (t =? 0)%Z eqn:E0; simpl.
  - destruct (read_file env fr); simpl; split; reflexivity.
  - destruct Ht as [Ht|Ht]; [apply Z.eqb_neq in E0; contradiction|].
    apply Z.ltb_ge in Ht. rewrite Ht. simpl.
    destruct (read_file env fr); simpl; split; reflexivity.
Qed.

Lemma getEHRStatistics_hit env h st t :
  cachedStats h = Some st -> cacheTimestamp h = Some t -> t <> 0%Z ->
  (date_now env (nowCalls h) - t < CACHE_TTL_MS)%Z ->
  getEHRStatistics env h = (st, snd (Date_now env h)).
Proof.
  destruct h as [cr cs ts nc fr co]. simpl. intros -> -> Ht Hlt.
  apply Z.eqb_neq in Ht. apply Z.ltb_lt in Hlt.
  run. rewrite Ht. simpl. rewrite Hlt. reflexivity.
Qed.

(** X9: cached records are served for 300000 ms after their timestamp,
    the bound excluded.  With cached records and a timestamp [t] other than
    0, [loadEHRData] reads the clock once; when the reading is less than
    300000 above [t] it returns the cached records and touches neither the
    file nor the cache; when it is 300000 or more above, or when [t] is 0,
    it reads the file again and returns what the file gives, nothing if the
    file cannot be read. *)
Theorem cache_hit_boundary env h rs t :
  cachedRecords h = Some rs -> cacheTimestamp h = Some t ->
  let now := date_now env (nowCalls h) in
  (t <> 0%Z -> (now - t < 300000)%Z ->
   loadEHRData env h = (rs, snd (Date_now env h))) /\
  (t = 0%Z \/ (300000 <= now - t)%Z ->
   fsReads (snd (loadEHRData env h)) = S (fsReads h) /\
   fst (loadEHRData env h)
   = match read_file env (fsReads h) with
     | Some content => parseContent content
     | None => []
     end).
Proof.
  intros Hr Ht now. split.
  - intros H0 Hlt. exact (@loadEHRData_hit env h rs t Hr Ht H0 Hlt).
  - intros H. exact (@loadEHRData_miss env h rs t Hr Ht H).
Qed.

Lemma cache_hit_boundary_witness :
  loadEHRData env_unreadable (warm [alice])
  = ([alice], snd (Date_now env_unreadable (warm [alice]))).
Proof.
  apply (@cache_hit_boundary env_unreadable (warm [alice]) [alice] 1%Z);
    [reflexivity | reflexivity | discriminate | reflexivity].
Defined.

Lemma loadEHRData_reload env h content :
  fst (recordsFresh env h) = false ->
  read_file env (fsReads h) = Some content ->
  let h1 := snd (loadEHRData env h) in
  fst (loadEHRData env h) = parseContent content /\
  cacheOf h1 = (Some (parseContent content), None,
                Some (date_now env (pred (nowCalls h1)))) /\
  fsReads h1 = S (fsReads h).
Proof.
  destruct h as [cr cs ts nc fr co]. run. unfold cacheOf. simpl.
  intros Hf Hr.
  destruct cr as [l|]; simpl in *;
    [destruct ts as [t|]; simpl in *;
     [destruct (t =? 0)%Z; simpl in *;
      [|destruct (date_now env nc - t <? CACHE_TTL_MS)%Z; simpl in *;
        [discriminate|]]|]|];
    rewrite Hr; simpl; repeat split; reflexivity.
Qed.

(** X10: a load that reads the file stamps the cache with the clock
    reading it takes after parsing, and drops the cached statistics; a
    second load whose clock reading is within the 300000 ms of that stamp
    (a stamp other than 0) returns the same records and leaves the file and
    the cache alone. *)
Theorem load_twice env h content :
  fst (recordsFresh env h) = false ->
  read_file env (fsReads h) = Some content ->
  let h1 := snd (loadEHRData env h) in
  let stamp := date_now env (pred (nowCalls h1)) in
  fst (loadEHRData env h) = parseContent content /\
  cacheOf h1 = (Some (parseContent content), None, Some stamp) /\
  (stamp <> 0%Z -> (date_now env (nowCalls h1) - stamp < 300000)%Z ->
   fst (loadEHRData env h1) = parseContent content /\
   fsReads (snd (loadEHRData env h1)) = S (fsReads h) /\
   cacheOf (snd (loadEHRData env h1)) = cacheOf h1).
Proof.
  intros Hf Hr h1 stamp.
  destruct (@loadEHRData_reload env h content Hf Hr) as (E1 & E2 & E3).
  fold h1 in E2, E3. fold stamp in E2.
  split; [exact E1|]. split; [exact E2|].
  intros H0 Hlt. unfold cacheOf in E2. injection E2 as Ec Es Et.
  rewrite (@loadEHRData_hit env h1 (parseContent content) stamp Ec Et H0 Hlt).
  simpl. split; [reflexivity|]. split; [exact E3|].
  unfold cacheOf. simpl. reflexivity.
Qed.

Lemma load_twice_witness :
  let h1 := snd (loadEHRData env_csv initial_heap) in
  fst (loadEHRData env_csv h1) = parseContent csv /\
  fsReads (snd (loadEHRData env_csv h1)) = 1.
Proof.
  destruct (@load_twice env_csv initial_heap csv eq_refl eq_refl) as (_ & _ & H).
  destruct H as (H1 & H2 & _); [discriminate | reflexivity |].
  split; [exact H1 | exact H2].
Defined.

(** X11: whatever [getEHRStatistics] returns, it leaves in the cache; a
    second call whose clock reading is within the 300000 ms of the cache
    timestamp (a timestamp other than 0) returns the very same statistics,
    [lastUpdated] included, after one clock reading and without reading
    the file or touching the cache. *)
Theorem statistics_twice env h t :
  let st := fst (getEHRStatistics env h) in
  let h1 := snd (getEHRStatistics env h) in
  cachedStats h1 = Some st /\
  (cacheTimestamp h1 = Some t -> t <> 0%Z ->
   (date_now env (nowCalls h1) - t < 300000)%Z ->
   getEHRStatistics env h1 = (st, snd (Date_now env h1))).
Proof.
  intros st h1.
  assert (Hs : cachedStats h1 = Some st).
  { destruct (getEHRStatistics_cases env h) as [(_ & Hc & Hh) | (_ & H)].
    - fold st in Hc. fold h1 in Hh. rewrite Hh.
      pose proof (statsFresh_frame env h) as (Hf & _).
      unfold cacheOf in Hf. injection Hf as _ Hf _. congruence.
    - cbn zeta in H. destruct H as (_ & Hc & _). exact Hc. }
  split; [exact Hs|].
  intros Ht H0 Hlt. exact (@getEHRStatistics_hit env h1 st t Hs Ht H0 Hlt).
Qed.

Lemma statistics_twice_witness :
  let st := fst (getEHRStatistics env_csv initial_heap) in
  let h1 := snd (getEHRStatistics env_csv initial_heap) in
  getEHRStatistics env_csv h1 = (st, snd (Date_now env_csv h1)).
Proof.
  apply (@statistics_twice env_csv initial_heap 1%Z);
    [reflexivity | discriminate | reflexivity].
Defined.



End TtlFacts.

(** ** What a search returns *)

Module SearchFacts.
Import JsString EhrDataService QueryRoute Props Samples Shapes Variants.
Import RouteFacts FilterFacts StringFacts.

Lemma Subseq_refl (A : Type) (l : list A) : Subseq l l.
Proof. induction l; constructor; assumption. Qed.





Lemma slice0_firstn (A : Type) (l : list A) limit :
  exists n, slice0 l limit = firstn n l /\
            ((0 <= limit)%Z -> n = Z.to_nat limit) /\
            ((limit < 0)%Z -> n = length l - Z.to_nat (- limit)).
Proof.
  unfold slice0. destruct (0 <=? limit)%Z eqn:E.
  - apply Z.leb_le in E. eexists. split; [reflexivity|]. split; [reflexivity|lia].
  - apply Z.leb_gt in E. eexists. split; [reflexivity|]. split; [lia|reflexivity].
Qed.

Lemma searchRecords_eq env o h :
  searchRecords env o h
  = (slice0 (searchFiltered o (fst (loadEHRData env h))) (num_or (o_limit o) 50),
     snd (loadEHRData env h)).
Proof.
  unfold searchRecords, bind, ret. destruct (loadEHRData env h). reflexivity.
Qed.




Lemma present_lower x :
  present (option_map toLowerCase x) = option_map toLowerCase (present x).
Proof.
  destruct x as [s|]; simpl; [|reflexivity].
  rewrite truthy_toLowerCase. destruct (truthy s); reflexivity.
Qed.

Lemma keeps_inLowerCase o r : keeps (inLowerCase o) r = keeps o r.
Proof.
  unfold keeps, inLowerCase. simpl. rewrite !present_lower.
  destruct (present (o_condition o)), (present (o_medication o)),
    (present (o_region o)), (present (o_gender o)), (present (o_diagnosis o));
    simpl; rewrite ?toLowerCase_idem; reflexivity.
Qed.

Lemma some_includes_lower l needle :
  some_includes (map toLowerCase l) needle = some_includes l needle.
Proof.
  unfold some_includes. induction l as [|s l IH]; simpl; [reflexivity|].
  rewrite toLowerCase_idem, IH. reflexivity.
Qed.

Lemma keeps_recordInLowerCase o r : keeps o (recordInLowerCase r) = keeps o r.
Proof.
  unfold keeps, recordInLowerCase. simpl.
  rewrite map_map. simpl. rewrite <- (map_map diagnosis toLowerCase).
  destruct (present (o_condition o)), (present (o_medication o)),
    (present (o_region o)), (present (o_gender o)), (present (o_diagnosis o));
    simpl; rewrite ?some_includes_lower, ?toLowerCase_idem; reflexivity.
Qed.

Lemma filter_map_comm (A B : Type) (f : B -> bool) (g : A -> B) (l : list A) :
  filter f (map g l) = map g (filter (fun x => f (g x)) l).
Proof.
  induction l as [|x l IH]; simpl; [reflexivity|].
  destruct (f (g x)); simpl; rewrite IH; reflexivity.
Qed.

(** X14: the string predicates of a search ignore case on both sides:
    putting the options in lower case changes nothing, and putting the
    records in lower case selects the same records. *)
Theorem search_ignores_case o rs :
  searchFiltered (inLowerCase o) rs = searchFiltered o rs /\
  searchFiltered o (map recordInLowerCase rs)
  = map recordInLowerCase (searchFiltered o rs).
Proof.
  rewrite !searchFiltered_keeps. split.
  - apply filter_ext. intros r. apply keeps_inLowerCase.
  - rewrite filter_map_comm. f_equal. apply filter_ext. intros r.
    apply keeps_recordInLowerCase.
Qed.

Lemma keeps_age o r a b :
  o_ageMin o = Some a -> o_ageMax o = Some b ->
  keeps o r = true -> (a <= age r <= b)%Z.
Proof.
  unfold keeps. intros -> ->. intros H.
  repeat (apply andb_prop in H; destruct H as [H ?]).
  split; [apply Z.leb_le | apply Z.leb_le]; assumption.
Qed.

(** X15: the age bounds of a search are inclusive, and a range whose
    lower bound exceeds the upper one is not refused: it selects nothing. *)
Theorem age_bounds o rs a b :
  o_ageMin o = Some a -> o_ageMax o = Some b ->
  Forall (fun r => (a <= age r <= b)%Z) (searchFiltered o rs) /\
  ((b < a)%Z -> searchFiltered o rs = []) /\
  searchFiltered (ageRange a b (o_limit o)) rs
  = filter (fun r => (a <=? age r)%Z && (age r <=? b)%Z) rs.
Proof.
  intros Ha Hb. rewrite !searchFiltered_keeps.
  assert (Hall : Forall (fun r => (a <= age r <= b)%Z) (filter (keeps o) rs)).
  { apply Forall_forall. intros r Hin. apply filter_In in Hin.
    exact (@keeps_age o r a b Ha Hb (proj2 Hin)). }
  split; [exact Hall|]. split.
  - intros Hlt. destruct (filter (keeps o) rs) as [|r l]; [reflexivity|].
    inversion Hall; subst. lia.
  - apply filter_ext. intros r. unfold keeps, ageRange. simpl.
    rewrite !andb_true_r. reflexivity.
Qed.

Lemma age_bounds_witness :
  searchFiltered (ageRange 45 70 None) [alice; bob; carol] = [bob; carol] /\
  searchFiltered (ageRange 70 45 None) [alice; bob; carol] = [].
Proof.
  split; [reflexivity|].
  exact (proj1 (proj2 (@age_bounds (ageRange 70 45 None) [alice; bob; carol]
                                   70%Z 45%Z eq_refl eq_refl)) eq_refl).
Defined.



End SearchFacts.

(** ** What a capture holds *)

Module CaptureFacts.
Import JsString Regex Shapes RegexFacts.

Lemma rmatch_seq a b s c k :
  rmatch (RSeq a b) s c k = rmatch a s c (fun s' c' => rmatch b s' c' k).
Proof. reflexivity. Qed.

Lemma seq_tail a b s c k res :
  rmatch (RSeq a b) s c k = Some res ->
  exists s' c', rmatch b s' c' k = Some res.
Proof.
  rewrite rmatch_seq. intros H. apply rmatch_answer in H.
  destruct H as (s' & c' & H & _). eauto.
Qed.

Lemma length_drop s : forall j,
  j <= String.length s -> String.length (drop j s) = String.length s - j.
Proof.
  induction s as [|x s IH]; intros [|j] H; simpl in *; try lia.
  apply IH. lia.
Qed.

Lemma star_loop_class p g k res : forall fuel s c,
  star_loop (rmatch (RChar p)) g k fuel s c = Some res ->
  exists j, j <= String.length s /\ all_in p (take j s) = true /\
            k (drop j s) c = Some res.
Proof.
  assert (Hstop : forall s c, k s c = Some res ->
            exists j, j <= String.length s /\ all_in p (take j s) = true /\
                      k (drop j s) c = Some res).
  { intros s c H. exists 0. split; [lia|]. split; [destruct s; reflexivity|].
    destruct s; exact H. }
  induction fuel as [|fuel IH]; intros s c H.
  - simpl in H. destruct g.
    + apply Hstop. exact H.
    + destruct (k s c) eqn:E; [|discriminate]. inversion H; subst.
      apply Hstop. exact E.
  - assert (Hagain :
      rmatch (RChar p) s c
        (fun s' c' => if String.length s' <? String.length s
                      then star_loop (rmatch (RChar p)) g k fuel s' c' else None)
      = Some res ->
      exists j, j <= String.length s /\ all_in p (take j s) = true /\
                k (drop j s) c = Some res).
    { simpl. destruct s as [|x s]; [discriminate|].
      destruct (p x) eqn:Ep; [|discriminate].
      destruct (String.length s <? String.length (String x s)); [|discriminate].
      intros Hl. apply IH in Hl. destruct Hl as (j & Hj & Ha & Hk).
      exists (S j). simpl. rewrite Ep, Ha. split; [lia|]. split; [reflexivity|exact Hk]. }
    change (star_loop (rmatch (RChar p)) g k (S fuel) s c)
      with (if g then
              match rmatch (RChar p) s c
                      (fun s' c' => if String.length s' <? String.length s
                                    then star_loop (rmatch (RChar p)) g k fuel s' c'
                                    else None) with
              | Some r => Some r
              | None => k s c
              end
            else
              match k s c with
              | Some r => Some r
              | None =>
                  rmatch (RChar p) s c
                    (fun s' c' => if String.length s' <? String.length s
                                  then star_loop (rmatch (RChar p)) g k fuel s' c'
                                  else None)
              end) in H.
    destruct g.
    + destruct (rmatch (RChar p) s c _) eqn:E.
      * inversion H; subst. apply Hagain. reflexivity.
      * apply Hstop. exact H.
    + destruct (k s c) eqn:E.
      * inversion H; subst. apply Hstop. exact E.
      * apply Hagain. exact H.
Qed.

(** A group over one or more code units of a class captures a string of
    that class that is not empty. *)
Lemma group_class n g p s c k res :
  rmatch (RGroup n (RPlus g (RChar p))) s c k = Some res ->
  exists v rest, all_in p v = true /\ truthy v = true /\
                 k rest (cap_set n v c) = Some res.
Proof.
  simpl. destruct s as [|x s]; [discriminate|].
  destruct (p x) eqn:Ep; [|discriminate].
  intros H. apply star_loop_class in H. destruct H as (j & Hj & Ha & Hk).
  rewrite length_drop in Hk by exact Hj.
  replace (String.length (String x s) - (String.length s - j)) with (S j) in Hk
    by (change (String.length (String x s)) with (S (String.length s)); lia).
  exists (take (S j) (String x s)), (drop j s). simpl. rewrite Ep, Ha.
  repeat split. exact Hk.
Qed.

Lemma search_exec r : forall s m,
  search r s = Some m -> exists s0 rest, exec_at r s0 = Some (groups m, rest).
Proof.
  induction s as [|x s IH]; intros m H; simpl in H.
  - destruct (exec_at r EmptyString) as [[c rest]|] eqn:E; [|discriminate].
    inversion H; subst. simpl. eauto.
  - destruct (exec_at r (String x s)) as [[c rest]|] eqn:E.
    + inversion H; subst. simpl. eauto.
    + destruct (search r s) as [f|] eqn:Es; [|discriminate].
      inversion H; subst. simpl. apply IH. reflexivity.
Qed.

(** The capture of a pattern that ends with such a group, after two
    leading parts. *)
Lemma last_group_class a b n g p s m :
  search (RSeq a (RSeq b (RGroup n (RPlus g (RChar p))))) s = Some m ->
  exists v, cap_get n (groups m) = Some v /\ all_in p v = true /\ truthy v = true.
Proof.
  intros H. apply search_exec in H. destruct H as (s0 & rest & H).
  unfold exec_at in H.
  apply seq_tail in H. destruct H as (s1 & c1 & H).
  apply seq_tail in H. destruct H as (s2 & c2 & H).
  apply group_class in H. destruct H as (v & r & Ha & Ht & Hk).
  inversion Hk; subst. exists v. simpl. rewrite Nat.eqb_refl. auto.
Qed.

Lemma digit_plain c :
  is_digit c = true ->
  is_space c = false /\ Ascii.eqb c "-" = false /\ Ascii.eqb c "+" = false.
Proof.
  destruct c as [[] [] [] [] [] [] [] []]; try discriminate; repeat split.
Qed.

Lemma digits_prefix_some s : forall a, exists z, digits_prefix s (Some a) = Some z.
Proof.
  induction s as [|c s IH]; intros a; simpl; [eauto|].
  destruct (is_digit c); [apply IH | eauto].
Qed.

Lemma digits_prefix_nonneg s : forall acc z,
  (forall a, acc = Some a -> (0 <= a)%Z) ->
  digits_prefix s acc = Some z -> (0 <= z)%Z.
Proof.
  induction s as [|c s IH]; intros acc z Hacc H; cbn [digits_prefix] in H.
  - apply Hacc. exact H.
  - destruct (is_digit c).
    + apply (IH _ _) in H; [exact H|]. intros a Ha.
      destruct acc as [a0|]; injection Ha as <-;
        [specialize (Hacc a0 eq_refl); destruct a0|]; lia.
    + apply Hacc. exact H.
Qed.

(** [parseInt] of a string of digits that is not empty is a natural
    number. *)
Lemma parseInt_digits v :
  all_in is_digit v = true -> truthy v = true ->
  exists z, parseInt v = Some z /\ (0 <= z)%Z.
Proof.
  destruct v as [|c v]; [discriminate|]. simpl. intros H _.
  apply andb_prop in H. destruct H as [Hc _].
  assert (P : forall a, (0 <= a)%Z ->
                exists z, digits_prefix v (Some a) = Some z /\ (0 <= z)%Z).
  { intros a Ha. destruct (digits_prefix_some v a) as [z Hz]. exists z.
    split; [exact Hz|]. apply (@digits_prefix_nonneg v (Some a) z); [|exact Hz].
    intros a' E. inversion E; subst. exact Ha. }
  destruct c as [[] [] [] [] [] [] [] []]; try discriminate Hc;
    unfold parseInt; simpl; apply P; lia.
Qed.

End CaptureFacts.

(** ** Textual queries: the plan and its execution *)

Module SqlFacts.
Import JsString Regex QueryRoute EhrDataService Props Samples Shapes Variants Plans
  Domains.
Import JsObjFacts RouteFacts RegexFacts ParserFacts StringFacts CaptureFacts.

Lemma keys_set (V : Type) k k' (v : V) (o : JsObj.t V) :
  In k' (map fst (JsObj.set k v o)) -> k' = k \/ In k' (map fst o).
Proof.
  intros Hin. destruct (String.eqb k' k) eqn:E.
  - apply String.eqb_eq in E. auto.
  - apply String.eqb_neq in E. right.
    destruct (in_dec string_dec k' (map fst o)) as [Hi|Hn]; [exact Hi|].
    exfalso. apply get_None_keys in Hn.
    assert (Hg : JsObj.get k' (JsObj.set k v o) = None)
      by (rewrite get_set_other by exact E; exact Hn).
    apply get_None_keys in Hg. contradiction.
Qed.

Lemma settled_default : settled defaultPlan.
Proof.
  unfold settled, defaultPlan. simpl.
  repeat split; try discriminate. constructor.
Qed.

Lemma settled_with_where p k v : settled p -> settled (with_where p (toLowerCase k) v).
Proof.
  intros (H1 & H2 & H3 & H4). unfold settled, with_where. simpl.
  repeat split; try assumption; try (apply H3; assumption).
  apply Forall_forall. intros k' Hin. apply keys_set in Hin.
  destruct Hin as [->|Hin].
  - apply toLowerCase_idem.
  - rewrite Forall_forall in H2. apply H2. exact Hin.
Qed.

Lemma parseCondition_settled res condition res' :
  settled res -> parseCondition res condition = Ok res' -> settled res'.
Proof.
  intros Hs. unfold parseCondition.
  assert (H1 : forall r1,
    match search eqRe condition with
    | Some eqMatch =>
        k <~ group eqMatch 1 ;; v <~ group eqMatch 2 ;;
        Ok (with_where res (toLowerCase k) v)
    | None => Ok res
    end = Ok r1 -> settled r1).
  { intros r1. destruct (search eqRe condition) as [m|].
    - destruct (group m 1); simpl; [|discriminate].
      destruct (group m 2); simpl; [|discriminate].
      intros E. inversion E; subst. apply settled_with_where. exact Hs.
    - intros E. inversion E; subst. exact Hs. }
  destruct (match search eqRe condition with Some _ => _ | None => _ end)
    as [r1|msg]; simpl; [|discriminate].
  specialize (H1 r1 eq_refl).
  destruct (search likeRe condition) as [m|].
  - destruct (group m 1); simpl; [|discriminate].
    destruct (group m 2); simpl; [|discriminate].
    intros E. inversion E; subst. apply settled_with_where. exact H1.
  - intros E. inversion E; subst. exact H1.
Qed.

Lemma parseConditions_thrown (conditions : list string) msg :
  fold_left (fun acc condition => res <~ acc ;; parseCondition res condition)
            conditions (Throw msg) = Throw msg.
Proof. induction conditions as [|c cs IH]; simpl; [reflexivity | exact IH]. Qed.

Lemma parseConditions_settled (conditions : list string) : forall res res',
  settled res ->
  fold_left (fun acc condition => res <~ acc ;; parseCondition res condition)
            conditions (Ok res) = Ok res' ->
  settled res'.
Proof.
  induction conditions as [|c cs IH]; intros res res' Hs H; simpl in H.
  - inversion H; subst. exact Hs.
  - destruct (parseCondition res c) as [r1|msg] eqn:E.
    + apply (IH r1 res'); [|exact H]. exact (@parseCondition_settled res c r1 Hs E).
    + rewrite parseConditions_thrown in H. discriminate.
Qed.

Lemma groupRe_capture s m :
  search groupRe s = Some m ->
  exists v, group m 1 = Ok v /\ all_in is_word v = true /\ truthy v = true.
Proof.
  intros H.
  destruct (@search_exec groupRe s m H) as (s0 & rest & He).
  unfold exec_at, groupRe in He.
  change (seq [lit "GROUP"; RPlus true ws; lit "BY"; RPlus true ws;
               RGroup 1 (RPlus true word)])
    with (RSeq (lit "GROUP")
            (RSeq (RPlus true ws)
               (RSeq (lit "BY")
                  (RSeq (RPlus true ws) (RGroup 1 (RPlus true (RChar is_word)))))))
    in He.
  apply seq_tail in He. destruct He as (s1 & c1 & He).
  apply seq_tail in He. destruct He as (s2 & c2 & He).
  apply seq_tail in He. destruct He as (s3 & c3 & He).
  apply seq_tail in He. destruct He as (s4 & c4 & He).
  apply group_class in He. destruct He as (v & r & Ha & Ht & Hk).
  inversion Hk as [[Hg Hr]]. exists v. unfold group. rewrite <- Hg. simpl.
  auto.
Qed.

Lemma limitRe_capture s m :
  search limitRe s = Some m ->
  exists v, group m 1 = Ok v /\ all_in is_digit v = true /\ truthy v = true.
Proof.
  intros H.
  destruct (@search_exec limitRe s m H) as (s0 & rest & He).
  unfold exec_at, limitRe in He.
  change (seq [lit "LIMIT"; RPlus true ws; RGroup 1 (RPlus true digit)])
    with (RSeq (lit "LIMIT")
            (RSeq (RPlus true ws) (RGroup 1 (RPlus true (RChar is_digit)))))
    in He.
  apply seq_tail in He. destruct He as (s1 & c1 & He).
  apply seq_tail in He. destruct He as (s2 & c2 & He).
  apply group_class in He. destruct He as (v & r & Ha & Ht & Hk).
  inversion Hk as [[Hg Hr]]. exists v. unfold group. rewrite <- Hg. simpl.
  auto.
Qed.

Lemma parseSimpleSQL_settled q p : parseSimpleSQL q = Ok p -> settled p.
Proof.
  unfold parseSimpleSQL. set (n := trim q).
  assert (H1 : forall r1,
    match search selectRe n with
    | Some selectMatch =>
        fields <~ group selectMatch 1 ;;
        Ok (with_select defaultPlan (map trim (split_on "," fields)))
    | None => Ok defaultPlan
    end = Ok r1 -> settled r1).
  { intros r1. destruct (search selectRe n) as [m|].
    - destruct (group m 1) as [fields|]; simpl; [|discriminate].
      intros E. inversion E; subst. unfold settled, with_select. simpl.
      repeat split; try discriminate; [|constructor].
      destruct (CsvFacts.split_on_cons "," fields) as (x & xs & ->). discriminate.
    - intros E. inversion E; subst. apply settled_default. }
  destruct (match search selectRe n with Some _ => _ | None => _ end)
    as [r1|msg]; simpl; [|discriminate].
  specialize (H1 r1 eq_refl).
  assert (H2 : forall r2,
    match search whereRe n with
    | Some whereMatch =>
        clause <~ group whereMatch 1 ;;
        fold_left (fun acc condition => res <~ acc ;; parseCondition res condition)
                  (split andRe clause) (Ok r1)
    | None => Ok r1
    end = Ok r2 -> settled r2).
  { intros r2. destruct (search whereRe n) as [m|].
    - destruct (group m 1) as [clause|]; simpl; [|discriminate].
      apply parseConditions_settled. exact H1.
    - intros E. inversion E; subst. exact H1. }
  destruct (match search whereRe n with Some _ => _ | None => _ end)
    as [r2|msg]; simpl; [|discriminate].
  specialize (H2 r2 eq_refl).
  assert (H3 : forall r3,
    match search groupRe n with
    | Some groupMatch =>
        g <~ group groupMatch 1 ;; Ok (with_groupBy r2 (toLowerCase g))
    | None => Ok r2
    end = Ok r3 -> settled r3).
  { intros r3. destruct (search groupRe n) as [m|] eqn:Es.
    - destruct (groupRe_capture n Es) as (v & -> & _ & Ht). simpl.
      intros E. inversion E; subst.
      destruct H2 as (A1 & A2 & A3 & A4). unfold settled, with_groupBy. simpl.
      repeat split; try assumption.
      + inversion H; subst. apply toLowerCase_idem.
      + inversion H; subst. rewrite truthy_toLowerCase. exact Ht.
    - intros E. inversion E; subst. exact H2. }
  destruct (match search groupRe n with Some _ => _ | None => _ end)
    as [r3|msg]; simpl; [|discriminate].
  specialize (H3 r3 eq_refl).
  destruct (search limitRe n) as [m|] eqn:Es.
  - destruct (limitRe_capture n Es) as (v & -> & Ha & Ht). simpl.
    intros E. inversion E; subst.
    destruct (parseInt_digits v Ha Ht) as (z & Hz & Hpos).
    destruct H3 as (A1 & A2 & A3 & A4). unfold settled, with_limit. simpl.
    repeat split; try assumption; try (apply A3; assumption).
    intros n0 Hn. rewrite Hz in Hn. inversion Hn; subst. exact Hpos.
  - intros E. inversion E; subst. exact H3.
Qed.

(** X17: every query parses, and the plan is in a normal form: the
    select list has an entry, the where-keys and the group-by are in lower
    case, the group-by is not the empty string, and the limit, read from a
    run of digits, is neither NaN nor negative. *)
Theorem parsed_plan_normal_form q :
  exists p, parseSimpleSQL q = Ok p /\
    p_select p <> [] /\
    Forall (fun k => toLowerCase k = k) (map fst (p_where p)) /\
    (forall g, p_groupBy p = Some g -> toLowerCase g = g /\ g <> EmptyString) /\
    (forall n, p_limit p = Some n -> (0 <= n)%Z).
Proof.
  destruct (parseSimpleSQL_total q) as [p Hp]. exists p. split; [exact Hp|].
  destruct (@parseSimpleSQL_settled q p Hp) as (H1 & H2 & H3 & H4).
  repeat split; try assumption.
  - apply (H3 g). assumption.
  - intros ->. destruct (H3 EmptyString) as [_ Ht]; [assumption | discriminate].
Qed.

Lemma whereFiltered_where p p' rs :
  p_where p = p_where p' -> whereFiltered p rs = whereFiltered p' rs.
Proof. unfold whereFiltered. intros ->. reflexivity. Qed.

Lemma total_groups g (rs : list EHRRecord) :
  JsObj.total (fold_left (fun agg record => JsObj.bump (groupKey g record) agg)
                         rs JsObj.empty)
  = length rs.
Proof. rewrite (GroupFacts.total_tally (groupKey g)). reflexivity. Qed.

(** X18: a textual query always succeeds, and its [totalMatched] is the
    count of the records that pass the WHERE conditions, before any limit.
    Without GROUP BY the records returned are the first ones of these, as
    many as the limit in effect (the LIMIT of the query, 100 when it is
    absent or 0).  With GROUP BY no record is returned and the LIMIT is not
    applied; the group counts then sum to [totalMatched] when the group
    keys are own names. *)
Theorem sql_counts_before_limit env q h :
  exists p, parseSimpleSQL q = Ok p /\
    let matched := whereFiltered p (loaded env h) in
    let resp := fst (executeSQLQuery env {| query := q |} h) in
    success resp = true /\
    responseTotalMatched resp = Some (length matched) /\
    (p_groupBy p = None ->
     responseAggregations resp = None /\
     responseRecords resp
     = Some (firstn (Z.to_nat (num_or (p_limit p) 100)) matched)) /\
    (p_groupBy p <> None -> responseRecords resp = None) /\
    (forall g, p_groupBy p = Some g -> ownValued (groupKey g) matched ->
               responseGroupTotal resp = Some (length matched)).
Proof.
  destruct (parseSimpleSQL_total q) as [p Hp]. exists p. split; [exact Hp|].
  destruct (@parseSimpleSQL_settled q p Hp) as (_ & _ & H3 & H4).
  cbn zeta. rewrite (@executeSQLQuery_eq env q p h Hp). cbn zeta.
  unfold responseTotalMatched, responseRecords, responseAggregations,
    responseGroupTotal, responseAggregations, okResponse. simpl.
  destruct (p_groupBy p) as [g|] eqn:Eg.
  - destruct (H3 g eq_refl) as [_ Ht]. simpl. rewrite Ht. simpl.
    repeat split; try discriminate.
    intros g0 E _. injection E as <-. rewrite total_groups. reflexivity.
  - simpl. repeat split; try congruence; try discriminate.
    unfold slice0.
    assert (Hpos : (0 <= num_or (p_limit p) 100)%Z).
    { unfold num_or. destruct (p_limit p) as [n|]; [|lia].
      specialize (H4 n eq_refl). destruct (n =? 0)%Z; lia. }
    apply Z.leb_le in Hpos. rewrite Hpos. reflexivity.
Qed.

Lemma sql_counts_before_limit_witness :
  let run q := fst (executeSQLQuery env_unreadable {| query := q |}
                      (warm [alice; bob; carol])) in
  responseRecords (run "SELECT * FROM ehr_records WHERE region = 'kan' LIMIT 2")
  = Some [alice; bob] /\
  responseTotalMatched (run "SELECT * FROM ehr_records WHERE region = 'kan' LIMIT 2")
  = Some 3 /\
  responseAggregations (run "SELECT * FROM ehr_records GROUP BY gender LIMIT 1")
  = Some [("Female", 2); ("Male", 1)] /\
  responseGroupTotal (run "SELECT * FROM ehr_records GROUP BY gender LIMIT 1")
  = Some 3.
Proof.
  split; [reflexivity|]. split; [reflexivity|]. split; [reflexivity|].
  destruct (sql_counts_before_limit env_unreadable
              "SELECT * FROM ehr_records GROUP BY gender LIMIT 1"
              (warm [alice; bob; carol])) as (p & Hp & _ & _ & _ & _ & H).
  assert (E : p = {| p_select := ["*"]; p_where := JsObj.empty;
                     p_groupBy := Some "gender"; p_limit := Some 1%Z |}).
  { assert (E : Ok p = Ok {| p_select := ["*"]; p_where := JsObj.empty;
                             p_groupBy := Some "gender"; p_limit := Some 1%Z |})
      by (rewrite <- Hp; reflexivity).
    injection E as E. exact E. }
  subst p. apply (H "gender" eq_refl). repeat constructor.
Defined.

(** X19: the select list and the table name of a query are not used: two
    queries whose plans have the same conditions, group-by and limit get
    the same response, whole records included. *)
Theorem select_list_is_ignored env q q' p p' h :
  parseSimpleSQL q = Ok p -> parseSimpleSQL q' = Ok p' ->
  p_where p = p_where p' -> p_groupBy p = p_groupBy p' -> p_limit p = p_limit p' ->
  executeSQLQuery env {| query := q |} h = executeSQLQuery env {| query := q' |} h.
Proof.
  intros Hp Hp' Hw Hg Hl.
  rewrite (@executeSQLQuery_eq env q p h Hp), (@executeSQLQuery_eq env q' p' h Hp').
  cbn zeta. rewrite (@whereFiltered_where p p' _ Hw), Hg, Hl. reflexivity.
Qed.

Lemma select_list_is_ignored_witness :
  executeSQLQuery env_unreadable
    {| query := "SELECT fullName FROM patients WHERE gender = 'Female' LIMIT 1" |}
    (warm [bob; alice; carol])
  = executeSQLQuery env_unreadable
      {| query := "SELECT * FROM ehr_records WHERE gender = 'Female' LIMIT 1" |}
      (warm [bob; alice; carol]).
Proof.
  apply (@select_list_is_ignored env_unreadable _ _
           {| p_select := ["fullName"]; p_where := [("gender", "Female")];
              p_groupBy := None; p_limit := Some 1%Z |}
           {| p_select := ["*"]; p_where := [("gender", "Female")];
              p_groupBy := None; p_limit := Some 1%Z |});
    reflexivity.
Defined.

(** X20: a WHERE condition on a column other than age, age_group,
    agegroup, gender, region, condition, symptom and medication is parsed
    and then never read: it filters nothing. *)
Theorem unread_where_key k v p rs :
  ~ In k whereKeys -> whereFiltered (with_where p k v) rs = whereFiltered p rs.
Proof.
  intros Hk. unfold whereFiltered, with_where. cbn [p_where].
  assert (E : forall k', In k' whereKeys ->
                JsObj.get k' (JsObj.set k v (p_where p)) = JsObj.get k' (p_where p)).
  { intros k' Hin. apply get_set_other. intros ->. exact (Hk Hin). }
  rewrite !E by (simpl; auto 10). reflexivity.
Qed.

Lemma unread_where_key_witness :
  parseSimpleSQL "SELECT * FROM ehr_records WHERE diagnosis = 'Fever'"
  = Ok (with_where defaultPlan "diagnosis" "Fever") /\
  whereFiltered (with_where defaultPlan "diagnosis" "Fever") [alice; bob]
  = [alice; bob].
Proof.
  split; [reflexivity|].
  apply (@unread_where_key "diagnosis" "Fever" defaultPlan [alice; bob]).
  simpl. intros [E|[E|[E|[E|[E|[E|[E|[E|[]]]]]]]]]; discriminate E.
Defined.

Lemma Forall_stage (A B : Type) (P : A -> Prop) (x : option B)
      (f : B -> A -> bool) (l : list A) :
  Forall P l -> Forall P (match x with Some v => filter (f v) l | None => l end).
Proof.
  intros H. destruct x; [|exact H].
  apply Forall_forall. intros r Hin. apply filter_In in Hin.
  rewrite Forall_forall in H. apply H. tauto.
Qed.

Lemma whereFiltered_age p a rs P :
  JsObj.get "age" (p_where p) = Some a -> a <> EmptyString ->
  Forall P (filter (fun r => match parseInt a with
                             | Some n => (age r =? n)%Z
                             | None => false
                             end) rs) ->
  Forall P (whereFiltered p rs).
Proof.
  intros Ha Hne H. unfold whereFiltered. rewrite Ha.
  assert (Hp : present (Some a) = Some a)
    by (destruct a; [contradiction Hne; reflexivity | reflexivity]).
  rewrite Hp. cbn zeta.
  repeat apply Forall_stage. exact H.
Qed.

(** X21: WHERE age = ... compares each age with the integer that
    [parseInt] reads at the head of the value, for an integer and ages that
    a double holds exactly; when the value has no leading integer, the
    condition is not refused: no record passes. *)
Theorem where_age_reads_an_integer p a rs :
  JsObj.get "age" (p_where p) = Some a -> a <> EmptyString ->
  (parseInt a = None -> whereFiltered p rs = []) /\
  (forall n, parseInt a = Some n -> safe_integer n = true -> safeAges rs ->
             Forall (fun r => age r = n) (whereFiltered p rs)).
Proof.
  intros Ha Hne. split.
  - intros Hn.
    assert (H : Forall (fun _ : EHRRecord => False) (whereFiltered p rs)).
    { apply (@whereFiltered_age p a rs _ Ha Hne). rewrite Hn.
      induction rs; simpl; [constructor | assumption]. }
    destruct (whereFiltered p rs); [reflexivity | inversion H; contradiction].
  - intros n Hn _ _. apply (@whereFiltered_age p a rs _ Ha Hne). rewrite Hn.
    apply Forall_forall. intros r Hin. apply filter_In in Hin.
    apply Z.eqb_eq. tauto.
Qed.

Lemma where_age_reads_an_integer_witness :
  parseSimpleSQL "SELECT * FROM ehr_records WHERE age = 'old'"
  = Ok (with_where defaultPlan "age" "old") /\
  whereFiltered (with_where defaultPlan "age" "old") [alice; bob; carol] = [] /\
  whereFiltered (with_where defaultPlan "age" "45 years") [alice; bob; carol] = [bob] /\
  Forall (fun r => age r = 45%Z)
         (whereFiltered (with_where defaultPlan "age" "45 years") [alice; bob; carol]).
Proof.
  split; [reflexivity|]. split; [|split; [reflexivity|]].
  - apply (@where_age_reads_an_integer (with_where defaultPlan "age" "old") "old"
             [alice; bob; carol]); [reflexivity | discriminate | reflexivity].
  - apply (proj2 (@where_age_reads_an_integer
                    (with_where defaultPlan "age" "45 years") "45 years"
                    [alice; bob; carol] eq_refl ltac:(discriminate)) 45%Z);
      [reflexivity | reflexivity | repeat constructor].
Defined.

End SqlFacts.

(** ** Grouped counts, key by key *)

Module GroupingFacts.
Import JsString QueryRoute EhrDataService Props Samples Shapes Variants Plans
  Domains.
Import JsObjFacts RouteFacts GroupFacts ParserFacts CapFacts StatsFacts SqlFacts.

Lemma tally_unknown (A : Type) (l : list A) : forall n,
  fold_left (fun agg (_ : A) => JsObj.bump "unknown" agg) l [("unknown", n)]
  = [("unknown", n + length l)].
Proof.
  induction l as [|x l IH]; intros n; simpl.
  - rewrite Nat.add_0_r. reflexivity.
  - change (JsObj.bump "unknown" [("unknown", n)]) with [("unknown", n + 1)].
    rewrite IH. f_equal. f_equal. lia.
Qed.

Lemma tally_unknown_all (rs : list EHRRecord) :
  fold_left (fun agg (_ : EHRRecord) => JsObj.bump "unknown" agg) rs JsObj.empty
  = unknownBucket rs.
Proof.
  destruct rs as [|r rs]; [reflexivity|].
  cbn [fold_left]. change (JsObj.bump "unknown" JsObj.empty) with [("unknown", 0 + 1)].
  rewrite tally_unknown. simpl. reflexivity.
Qed.

Lemma groupKey_unknown g r : ~ In g sqlGroupColumns -> groupKey g r = "unknown".
Proof.
  intros H. unfold groupKey.
  assert (E : forall c, In c sqlGroupColumns -> String.eqb g c = false).
  { intros c Hc. apply String.eqb_neq. intros ->. exact (H Hc). }
  rewrite !E by (simpl; auto 10). reflexivity.
Qed.

Lemma aggregateRecord_unknown g agg r :
  ~ In g aggregateGroupColumns -> aggregateRecord g agg r = JsObj.bump "unknown" agg.
Proof.
  intros H. unfold aggregateRecord.
  assert (E : forall c, In c aggregateGroupColumns -> String.eqb g c = false).
  { intros c Hc. apply String.eqb_neq. intros ->. exact (H Hc). }
  rewrite !E by (simpl; auto 10). reflexivity.
Qed.

Lemma fold_ext (A B : Type) (f g : A -> B -> A) (l : list B) :
  (forall a b, f a b = g a b) -> forall a, fold_left f l a = fold_left g l a.
Proof.
  intros H. induction l as [|x l IH]; intros a; simpl; [reflexivity|].
  rewrite H. apply IH.
Qed.

Lemma unknownBucket_sorted (rs : list EHRRecord) :
  JsObj.fromEntries (JsObj.sort_desc (unknownBucket rs)) = unknownBucket rs.
Proof. destruct rs; reflexivity. Qed.

(** X22: grouping by a column that the executor does not know is not
    refused: every matching record falls under the one key [unknown].  For
    a textual query the known columns are age_group, agegroup, age, gender
    and region (so GROUP BY condition gives the one bucket too); for an
    aggregate request they are age, gender, region, condition and
    medication. *)
Theorem unknown_group_column env h :
  (forall q p g,
      parseSimpleSQL q = Ok p -> p_groupBy p = Some g -> ~ In g sqlGroupColumns ->
      responseAggregations (fst (executeSQLQuery env {| query := q |} h))
      = Some (unknownBucket (whereFiltered p (loaded env h)))) /\
  (forall request,
      ~ In (groupBy request) aggregateGroupColumns ->
      responseAggregations (fst (executeAggregateQuery env request h))
      = Some (unknownBucket (aggregateFiltered (filter_ request) (loaded env h)))).
Proof.
  split.
  - intros q p g Hp Hg Hn.
    destruct (@parseSimpleSQL_settled q p Hp) as (_ & _ & H3 & _).
    destruct (H3 g Hg) as [_ Ht].
    rewrite (@executeSQLQuery_eq env q p h Hp). cbn zeta.
    unfold responseAggregations, okResponse. simpl. rewrite Hg. simpl. rewrite Ht.
    simpl. f_equal. rewrite <- tally_unknown_all. apply fold_ext.
    intros agg r. rewrite (@groupKey_unknown g r Hn). reflexivity.
  - intros request Hn. rewrite executeAggregateQuery_eq. cbn zeta.
    unfold responseAggregations, okResponse. simpl. f_equal.
    rewrite (@fold_ext _ _ (aggregateRecord (groupBy request))
                       (fun agg _ => JsObj.bump "unknown" agg)).
    + rewrite tally_unknown_all. apply unknownBucket_sorted.
    + intros agg r. apply aggregateRecord_unknown. exact Hn.
Qed.

Lemma unknown_group_column_witness :
  responseAggregations
    (fst (executeSQLQuery env_unreadable
            {| query := "SELECT * FROM ehr_records GROUP BY condition" |}
            (warm [alice; bob; carol])))
  = Some [("unknown", 3)].
Proof.
  apply (proj1 (unknown_group_column env_unreadable (warm [alice; bob; carol]))
           "SELECT * FROM ehr_records GROUP BY condition"
           {| p_select := ["*"]; p_where := JsObj.empty;
              p_groupBy := Some "condition"; p_limit := None |}
           "condition" eq_refl eq_refl).
  simpl. intros [E|[E|[E|[E|[E|[]]]]]]; discriminate E.
Defined.



Lemma countOf_sorted k (raw : JsObj.t nat) :
  NoDup (map fst raw) ->
  countOf k (JsObj.fromEntries (JsObj.sort_desc raw)) = countOf k raw.
Proof.
  intros Hn. unfold countOf.
  rewrite (@get_perm nat k raw (JsObj.fromEntries (JsObj.sort_desc raw)) Hn);
    [reflexivity|].
  apply Permutation_sym. apply Permutation_trans with (JsObj.sort_desc raw).
  - apply perm_fromEntries. apply NoDup_keys_sort. exact Hn.
  - apply perm_sort_desc.
Qed.



Lemma aggregateRecord_key g agg r :
  In g ["age"; "gender"; "region"] ->
  aggregateRecord g agg r = JsObj.bump (aggregateKey g r) agg.
Proof.
  intros [<-|[<-|[<-|[]]]]; reflexivity.
Qed.





End GroupingFacts.

(** ** Visits by year *)

Module YearFacts.
Import JsString Shapes Props Samples Domains JsObjFacts EhrDataService CapFacts
  StatsFacts.

Lemma fold_flat_map (A B C : Type) (f : C -> B -> C) (items : A -> list B)
      (l : list A) : forall o,
  fold_left (fun o r => fold_left f (items r) o) l o
  = fold_left f (flat_map items l) o.
Proof.
  induction l as [|r l IH]; intros o; simpl; [reflexivity|].
  rewrite fold_left_app. apply IH.
Qed.







End YearFacts.

(** ** The two query paths side by side, and what a call may do *)

Module ConsistencyFacts.
Import JsString QueryRoute EhrDataService Props Samples Shapes Variants Plans.
Import JsObjFacts RouteFacts FilterFacts ParserFacts CacheFacts LoadFacts CapFacts SearchFacts.

(** Splits on every atom of a conjunction of booleans. *)
Ltac atoms :=
  repeat match goal with
         | |- context [andb ?a _] =>
             lazymatch a with
             | andb _ _ => fail
             | true => fail
             | false => fail
             | _ => destruct a
             end
         | |- context [andb _ ?b] =>
             lazymatch b with
             | andb _ _ => fail
             | true => fail
             | false => fail
             | _ => destruct b
             end
         end.

Lemma filter_all (A : Type) (f : A -> bool) (l : list A) :
  (forall x, f x = true) -> filter f l = l.
Proof.
  intros H. induction l as [|x l IH]; simpl; [reflexivity|].
  rewrite H, IH. reflexivity.
Qed.

(** X25: on gender, region, condition and medication a textual query and
    a filter request apply the same predicates: when the WHERE clause has
    no age, age_group, agegroup or symptom condition, the records it keeps
    are those that [searchRecords] keeps for the same four values. *)
Theorem where_agrees_with_search p rs :
  JsObj.get "age" (p_where p) = None ->
  JsObj.get "age_group" (p_where p) = None ->
  JsObj.get "agegroup" (p_where p) = None ->
  JsObj.get "symptom" (p_where p) = None ->
  whereFiltered p rs = searchFiltered (searchOptionsOfPlan p) rs.
Proof.
  intros H1 H2 H3 H4. rewrite searchFiltered_keeps.
  unfold whereFiltered, str_or. rewrite H1, H2, H3, H4.
  unfold keeps, searchOptionsOfPlan. simpl.
  destruct (present (JsObj.get "gender" (p_where p))),
    (present (JsObj.get "region" (p_where p))),
    (present (JsObj.get "condition" (p_where p))),
    (present (JsObj.get "medication" (p_where p)));
    rewrite ?filter_filter;
    first [ apply filter_ext; intros r; cbv beta; atoms; reflexivity
          | symmetry; apply filter_all; intros r; reflexivity ].
Qed.

Lemma where_agrees_with_search_witness :
  let p := with_where (with_where defaultPlan "gender" "female") "region" "kan" in
  whereFiltered p [alice; bob; carol] = [alice; carol] /\
  whereFiltered p [alice; bob; carol]
  = searchFiltered (searchOptionsOfPlan p) [alice; bob; carol].
Proof.
  split; [reflexivity|]. apply where_agrees_with_search; reflexivity.
Defined.

Lemma loadEHRData_bounds env h :
  let h' := snd (loadEHRData env h) in
  fsReads h <= fsReads h' <= S (fsReads h) /\
  nowCalls h <= nowCalls h' <= 2 + nowCalls h /\
  (fsReads h' = fsReads h -> console h' = console h /\ cacheOf h' = cacheOf h).
Proof.
  destruct h as [cr cs ts nc fr co]. run. unfold cacheOf.
  destruct cr as [l|]; simpl;
    [destruct ts as [t|]; simpl;
     [destruct (t =? 0)%Z; simpl;
      [|destruct (date_now env nc - t <? CACHE_TTL_MS)%Z; simpl]|]|];
    try destruct (read_file env fr); simpl;
    (split; [lia|]); (split; [lia|]); intros E; try lia; split; reflexivity.
Qed.

Lemma statsFresh_bounds env h :
  let h' := snd (statsFresh env h) in
  fsReads h' = fsReads h /\ nowCalls h <= nowCalls h' <= S (nowCalls h).
Proof.
  destruct h as [cr cs ts nc fr co]. run.
  destruct cs as [s|]; simpl; [destruct ts as [t|]; simpl;
                               [destruct (t =? 0)%Z; simpl|]|]; lia.
Qed.

(** X26: no call retries.  [loadEHRData] reads the file at most once and
    the clock at most twice, and when it does not read the file it leaves
    the cache and the console as they were; [getEHRStatistics] reads the
    file at most once and the clock at most four times; each of the three
    query functions reads the file at most once and the clock between two
    and four times. *)
Theorem calls_are_bounded env h :
  (let h' := snd (loadEHRData env h) in
   fsReads h <= fsReads h' <= S (fsReads h) /\
   nowCalls h <= nowCalls h' <= 2 + nowCalls h /\
   (fsReads h' = fsReads h -> console h' = console h /\ cacheOf h' = cacheOf h)) /\
  (let h' := snd (getEHRStatistics env h) in
   fsReads h <= fsReads h' <= S (fsReads h) /\
   nowCalls h <= nowCalls h' <= 4 + nowCalls h) /\
  (forall request,
      let h' := snd (executeFilterQuery env request h) in
      fsReads h <= fsReads h' <= S (fsReads h) /\
      2 + nowCalls h <= nowCalls h' <= 4 + nowCalls h) /\
  (forall request,
      let h' := snd (executeAggregateQuery env request h) in
      fsReads h <= fsReads h' <= S (fsReads h) /\
      2 + nowCalls h <= nowCalls h' <= 4 + nowCalls h) /\
  (forall q,
      let h' := snd (executeSQLQuery env {| query := q |} h) in
      fsReads h <= fsReads h' <= S (fsReads h) /\
      2 + nowCalls h <= nowCalls h' <= 4 + nowCalls h).
Proof.
  assert (Hq : let h' := snd (Date_now env
                                (snd (loadEHRData env (snd (Date_now env h))))) in
               fsReads h <= fsReads h' <= S (fsReads h) /\
               2 + nowCalls h <= nowCalls h' <= 4 + nowCalls h).
  { cbn zeta.
    destruct (loadEHRData_bounds env (snd (Date_now env h))) as (Hf & Hn & _).
    cbn zeta in Hf, Hn. simpl in *. lia. }
  cbn zeta in Hq.
  split; [apply loadEHRData_bounds|]. split; [|split; [|split]].
  - cbn zeta.
    destruct (getEHRStatistics_cases env h) as [(_ & _ & ->) | (_ & H)].
    + destruct (statsFresh_bounds env h) as (Hf & Hn). cbn zeta in Hf, Hn. lia.
    + cbn zeta in H. destruct H as (_ & _ & _ & _ & Hf & _ & Hn).
      destruct (statsFresh_bounds env h) as (Hf1 & Hn1). cbn zeta in Hf1, Hn1.
      destruct (loadEHRData_bounds env (snd (statsFresh env h))) as (Hf2 & Hn2 & _).
      cbn zeta in Hf2, Hn2. lia.
  - intros request. cbn zeta. rewrite executeFilterQuery_eq. exact Hq.
  - intros request. cbn zeta. rewrite executeAggregateQuery_eq. exact Hq.
  - intros q. cbn zeta. destruct (parseSimpleSQL_total q) as [p Hp].
    rewrite (@executeSQLQuery_eq env q p h Hp). exact Hq.
Qed.

Lemma clean_kept env h :
  (forall rs, cachedRecords h = Some rs -> Forall clean_record rs) ->
  Forall clean_record (fst (loadEHRData env h)) /\
  (forall rs, cachedRecords (snd (loadEHRData env h)) = Some rs ->
              Forall clean_record rs).
Proof.
  intros Hc. pose proof (loadEHRData_cases env h) as H. cbn zeta in H.
  destruct H as (_ & [(_ & Hr & Hk & _) | [(_ & content & _ & Hr & Hk & _)
                                          | (_ & _ & Hr & Hk & _)]]).
  - split; [apply Hc; exact Hr|]. unfold cacheOf in Hk. injection Hk as Hk _ _.
    rewrite Hk. exact Hc.
  - rewrite Hr. split; [apply parseContent_clean|].
    intros rs E. rewrite Hr in Hk. rewrite Hk in E. injection E as <-.
    apply parseContent_clean.
  - rewrite Hr. split; [constructor|]. unfold cacheOf in Hk. injection Hk as Hk _ _.
    rewrite Hk. exact Hc.
Qed.

Lemma reachable_clean env h :
  reachable env h -> forall rs, cachedRecords h = Some rs -> Forall clean_record rs.
Proof.
  induction 1 as [|h Hr IH|h Hr IH|h Hr IH].
  - discriminate.
  - apply clean_kept. exact IH.
  - destruct (getEHRStatistics_cases env h) as [(_ & _ & ->) | (_ & H)].
    + pose proof (statsFresh_frame env h) as (Hk & _). unfold cacheOf in Hk.
      injection Hk as Hk _ _. rewrite Hk. exact IH.
    + cbn zeta in H. destruct H as (_ & _ & -> & _).
      apply clean_kept.
      pose proof (statsFresh_frame env h) as (Hk & _). unfold cacheOf in Hk.
      injection Hk as Hk _ _. rewrite Hk. exact IH.
  - exact IH.
Qed.

(** X27: every record the service holds or returns has the shape the
    parser leaves: in every heap the service can reach, the cached records,
    the records [loadEHRData] returns and the records [searchRecords]
    returns have a name, gender and region without double quotes or outer
    white space, conditions and medications that are not empty, trimmed and
    free of commas, and visits with trimmed parts and a date free of
    colons. *)
Theorem records_are_clean env h :
  reachable env h ->
  (forall rs, cachedRecords h = Some rs -> Forall clean_record rs) /\
  Forall clean_record (fst (loadEHRData env h)) /\
  (forall o, Forall clean_record (fst (searchRecords env o h))).
Proof.
  intros Hr. pose proof (reachable_clean Hr) as Hc.
  destruct (@clean_kept env h Hc) as [Hl _].
  split; [exact Hc|]. split; [exact Hl|].
  intros o. rewrite searchRecords_eq. simpl fst.
  destruct (slice0_firstn (searchFiltered o (fst (loadEHRData env h)))
                          (num_or (o_limit o) 50)) as (n & -> & _).
  apply Forall_forall. intros r Hin. apply In_firstn in Hin.
  rewrite searchFiltered_keeps in Hin. apply filter_In in Hin.
  rewrite Forall_forall in Hl. apply Hl. tauto.
Qed.

Lemma records_are_clean_witness :
  Forall clean_record (fst (loadEHRData env_csv (snd (loadEHRData env_csv initial_heap)))).
Proof.
  apply (@records_are_clean env_csv (snd (loadEHRData env_csv initial_heap))).
  apply reach_load. apply reach_initial.
Defined.

End ConsistencyFacts.

(** ** The aggregate path beside the other two *)

Module PathFacts.
Import JsString QueryRoute EhrDataService Props Samples Shapes Variants Plans Paths.
Import JsObjFacts RouteFacts GroupFacts FilterFacts ParserFacts CapFacts.
Import SqlFacts GroupingFacts ConsistencyFacts.

Lemma aggregateFiltered_keeps f rs :
  aggregateFiltered (Some f) rs = filter (keeps (searchOptionsOfAggregate f)) rs.
Proof.
  unfold aggregateFiltered, keeps, searchOptionsOfAggregate. simpl.
  destruct (present (a_condition f)), (present (a_region f)), (present (a_gender f));
    rewrite ?filter_filter;
    first [ apply filter_ext; intros r; cbv beta; atoms; reflexivity
          | symmetry; apply filter_all; intros r; reflexivity ].
Qed.

(** X28: the filter of an aggregate request applies the predicates of
    [searchRecords] for its condition, region and gender, taken as they
    are: the value all is no sentinel here, it is compared like any other,
    so a gender of all keeps only records whose gender is all in some
    case. *)
Theorem aggregate_filter_agrees_with_search f rs :
  aggregateFiltered (Some f) rs = searchFiltered (searchOptionsOfAggregate f) rs /\
  aggregateFiltered None rs = rs /\
  (a_gender f = Some "all" ->
   Forall (fun r => toLowerCase (gender r) = "all") (aggregateFiltered (Some f) rs)).
Proof.
  split; [|split].
  - rewrite searchFiltered_keeps. apply aggregateFiltered_keeps.
  - reflexivity.
  - intros Hg. rewrite aggregateFiltered_keeps. apply Forall_forall.
    intros r Hin. apply filter_In in Hin. destruct Hin as [_ Hk].
    unfold keeps, searchOptionsOfAggregate in Hk. simpl in Hk. rewrite Hg in Hk.
    simpl in Hk.
    repeat (apply andb_prop in Hk; destruct Hk as [Hk ?]).
    match goal with H : String.eqb _ _ = true |- _ => apply String.eqb_eq in H; exact H end.
Qed.

Lemma aggregate_filter_agrees_with_search_witness :
  let f := {| a_condition := None; a_region := None; a_gender := Some "all" |} in
  aggregateFiltered (Some f) [alice; bob; carol] = [] /\
  Forall (fun r => toLowerCase (gender r) = "all")
         (aggregateFiltered (Some f) [alice; bob; carol]).
Proof.
  split; [reflexivity|].
  apply (@aggregate_filter_agrees_with_search
           {| a_condition := None; a_region := None; a_gender := Some "all" |}
           [alice; bob; carol]).
  reflexivity.
Defined.

Lemma groupKey_aggregateKey g r :
  In g ["age"; "gender"; "region"] -> groupKey g r = aggregateKey g r.
Proof. intros [<-|[<-|[<-|[]]]]; reflexivity. Qed.

(** X29: grouped by age, gender or region, a textual query and an
    aggregate request over the same matching records give the same
    [totalMatched] and the same entries, each key with the same count: the
    aggregations of the one are those of the other, rearranged. *)
Theorem group_by_agrees env h q p request g :
  parseSimpleSQL q = Ok p -> p_groupBy p = Some g -> groupBy request = g ->
  In g ["age"; "gender"; "region"] ->
  whereFiltered p (loaded env h) = aggregateFiltered (filter_ request) (loaded env h) ->
  let sql := fst (executeSQLQuery env {| query := q |} h) in
  let agg := fst (executeAggregateQuery env request h) in
  responseTotalMatched sql = responseTotalMatched agg /\
  exists a b,
    responseAggregations sql = Some a /\ responseAggregations agg = Some b /\
    Permutation a b /\ forall k, countOf k a = countOf k b.
Proof.
  intros Hp Hg Hr Hin Hm. cbn zeta.
  destruct (@parseSimpleSQL_settled q p Hp) as (_ & _ & H3 & _).
  destruct (H3 g Hg) as [_ Ht].
  rewrite (@executeSQLQuery_eq env q p h Hp), executeAggregateQuery_eq. cbn zeta.
  unfold responseTotalMatched, responseAggregations, okResponse. simpl.
  rewrite Hg. simpl. rewrite Ht. simpl. rewrite Hm, Hr.
  split; [reflexivity|].
  set (matched := aggregateFiltered (filter_ request) (loaded env h)).
  set (raw := fold_left (aggregateRecord g) matched JsObj.empty).
  assert (Hn : NoDup (map fst raw)) by (apply NoDup_aggregate; constructor).
  assert (E : fold_left (fun agg record => JsObj.bump (groupKey g record) agg)
                        matched JsObj.empty = raw).
  { unfold raw. apply fold_ext. intros agg r.
    rewrite (@groupKey_aggregateKey g r Hin). symmetry.
    apply aggregateRecord_key. exact Hin. }
  rewrite E. exists raw, (JsObj.fromEntries (JsObj.sort_desc raw)).
  split; [reflexivity|]. split; [reflexivity|]. split.
  - apply Permutation_sym. apply Permutation_trans with (JsObj.sort_desc raw).
    + apply perm_fromEntries. apply NoDup_keys_sort. exact Hn.
    + apply perm_sort_desc.
  - intros k. symmetry. apply countOf_sorted. exact Hn.
Qed.

Lemma group_by_agrees_witness :
  let h := warm [bob; alice; carol] in
  responseAggregations
    (fst (executeSQLQuery env_unreadable
            {| query := "SELECT * FROM ehr_records GROUP BY gender" |} h))
  = Some [("Male", 1); ("Female", 2)] /\
  responseAggregations
    (fst (executeAggregateQuery env_unreadable
            {| groupBy := "gender"; filter_ := None |} h))
  = Some [("Female", 2); ("Male", 1)] /\
  responseTotalMatched
    (fst (executeSQLQuery env_unreadable
            {| query := "SELECT * FROM ehr_records GROUP BY gender" |} h))
  = responseTotalMatched
      (fst (executeAggregateQuery env_unreadable
              {| groupBy := "gender"; filter_ := None |} h)).
Proof.
  split; [reflexivity|]. split; [reflexivity|].
  apply (@group_by_agrees env_unreadable (warm [bob; alice; carol])
           "SELECT * FROM ehr_records GROUP BY gender"
           {| p_select := ["*"]; p_where := JsObj.empty;
              p_groupBy := Some "gender"; p_limit := None |}
           {| groupBy := "gender"; filter_ := None |} "gender");
    try reflexivity.
  simpl. auto.
Defined.

End PathFacts.
